(** * TinyDAG: the dependency-graph walker of [openstack/utils.py]

    A shallow embedding of the class [TinyDAG] (Kahn's algorithm with a ready
    queue) and the properties of its construction and walk operations.

    Python objects are mutated in place and a raised exception leaves every
    mutation made so far in place, so each method is a function from the
    object's state to a result (a value or a raised exception) paired with
    the state it leaves behind. *)

From Stdlib Require Import Ascii String DecimalString List ZArith Lia Bool Permutation.
Import ListNotations.
Local Open Scope string_scope.
Local Open Scope list_scope.
Local Open Scope Z_scope.

(** Node identifiers.  The source annotates them as [str]
    ([queue.Queue[str]], [ty.Dict[str, int]]). *)
Abbreviation node := string (only parsing).

(** ** Python containers *)

(** [dict]: insertion-ordered, unique keys.  Iteration follows the list. *)
Module Dict.

Definition t (V : Type) := list (node * V).

(** [d[k]]; [None] stands for [KeyError]. *)
Fixpoint get {V} (k : node) (d : t V) : option V :=
  match d with
  | [] => None
  | (k', v) :: d' => if String.eqb k k' then Some v else get k d'
  end.

(** [d[k] = v]: an existing key keeps its position, a new one goes last. *)
Fixpoint set {V} (k : node) (v : V) (d : t V) : t V :=
  match d with
  | [] => [(k, v)]
  | (k', v') :: d' =>
      if String.eqb k k' then (k, v) :: d' else (k', v') :: set k v d'
  end.

(** [d.keys()] *)
Definition keys {V} (d : t V) : list node := map fst d.

(** [d.setdefault(k, v)] (the returned value is not used by the source). *)
Definition setdefault {V} (k : node) (v : V) (d : t V) : t V :=
  match get k d with
  | Some _ => d
  | None => set k v d
  end.

(** [len(d)] *)
Definition len {V} (d : t V) : Z := Z.of_nat (length d).

End Dict.

(** [set]: a duplicate-free list.  The order of the list stands for the
    iteration order of the set, which CPython derives from the hashes of the
    members and not from the order of insertion.  Only membership and size
    of a [PySet.t] are facts about the set; the order of the list is one of
    the orders in which the set may iterate.  Statements about what a loop
    over a set does therefore quantify over the graph (and so over every
    order of each successor set), and statements about the completed set
    speak of its members. *)
Module PySet.

Definition t := list node.

Definition empty : t := [].

(** [v in s] *)
Definition mem (v : node) (s : t) : bool := existsb (String.eqb v) s.

(** [s.add(v)] *)
Definition add (v : node) (s : t) : t := if mem v s then s else s ++ [v].

(** [set(iterable)] *)
Definition of_list (l : list node) : t := fold_left (fun s v => add v s) l empty.

End PySet.

(** ** Object state *)

(** The attributes created by [_start_traverse]. *)
Record Walk := mkWalk {
  _run_in_degree : Dict.t Z;
  _queue : list node;          (* queue.Queue: put at the back, get at the front *)
  _done : PySet.t;
  _it_cnt : Z
}.

(** The attributes of a [TinyDAG] instance.  [walk_attrs] is [None] until
    [_start_traverse] has run once: reading one of its attributes before
    that is an [AttributeError]. *)
Record TinyDAG := mkDAG {
  _graph : Dict.t PySet.t;
  _wait_timeout : Z;
  _lock : bool;                (* threading.Lock(): [true] while held *)
  walk_attrs : option Walk
}.

Definition set_graph (g : Dict.t PySet.t) (d : TinyDAG) : TinyDAG :=
  mkDAG g (_wait_timeout d) (_lock d) (walk_attrs d).

Definition set_wait_timeout (t : Z) (d : TinyDAG) : TinyDAG :=
  mkDAG (_graph d) t (_lock d) (walk_attrs d).

Definition set_walk (w : Walk) (d : TinyDAG) : TinyDAG :=
  mkDAG (_graph d) (_wait_timeout d) (_lock d) (Some w).

(** ** Exceptions and the method monad *)

Inductive exn :=
| KeyError (k : node)
| AttributeError (attr : string)
| ValueError (msg : string)
| OverflowError                 (* its text depends on where the number overflowed *)
| QueueEmpty                    (* queue.Empty *)
| SDKException (msg : string)
| StopIteration.

Inductive res (A : Type) :=
| Ret (a : A)
| Raise (e : exn).
Arguments Ret {A} a.
Arguments Raise {A} e.

Definition M (A : Type) := TinyDAG -> res A * TinyDAG.

Definition ret {A} (a : A) : M A := fun d => (Ret a, d).

Definition raise {A} (e : exn) : M A := fun d => (Raise e, d).

Definition bind {A B} (c : M A) (k : A -> M B) : M B :=
  fun d =>
    match c d with
    | (Ret a, d') => k a d'
    | (Raise e, d') => (Raise e, d')
    end.

Notation "x <- c ;; k" := (bind c (fun x => k))
  (at level 61, c at next level, right associativity).
Notation "c ;; k" := (bind c (fun _ => k))
  (at level 61, right associativity).

(** [try: c except ...: handler]; [handler e] is [None] when no clause
    matches [e]. *)
Definition try_except {A} (c : M A) (handler : exn -> option (M A)) : M A :=
  fun d =>
    match c d with
    | (Ret a, d') => (Ret a, d')
    | (Raise e, d') =>
        match handler e with
        | Some h => h d'
        | None => (Raise e, d')
        end
    end.

(** [for x in l: body(x)] for a body that does not mutate [l]. *)
Fixpoint for_each {A} (l : list A) (body : A -> M unit) : M unit :=
  match l with
  | [] => ret tt
  | x :: l' => body x ;; for_each l' body
  end.

(** Attribute access. *)
Definition get_graph : M (Dict.t PySet.t) := fun d => (Ret (_graph d), d).

Definition put_graph (g : Dict.t PySet.t) : M unit :=
  fun d => (Ret tt, set_graph g d).

Definition get_walk (attr : string) : M Walk :=
  fun d =>
    match walk_attrs d with
    | Some w => (Ret w, d)
    | None => (Raise (AttributeError attr), d)
    end.

Definition put_walk (w : Walk) : M unit := fun d => (Ret tt, set_walk w d).

(** [self._graph[u]] *)
Definition graph_getitem (u : node) : M PySet.t :=
  g <- get_graph ;;
  match Dict.get u g with
  | Some s => ret s
  | None => raise (KeyError u)
  end.

(** [threading.TIMEOUT_MAX], the longest wait a lock accepts: 9223372036
    seconds on the 64-bit builds of CPython for Linux.  The value differs
    between platforms; the properties below use it only as a bound. *)
Definition TIMEOUT_MAX : Z := 9223372036.

(** The least integer that cannot be converted to a float (a double):
    from [2^1024 - 2^970] on, [time() + timeout] raises [OverflowError]. *)
Definition FLOAT_LIMIT : Z := 2 ^ 1024 - 2 ^ 970.

(** [self._queue.get(block=True, timeout=self._wait_timeout)] while no other
    thread puts an item, for a timeout that is an integer number of seconds.
    In the order of [queue.Queue.get]: a negative timeout is refused with
    [ValueError]; [endtime = time() + timeout] raises [OverflowError] for an
    integer too large for a float; an item that is there is returned at
    once; on an empty queue [self.not_empty.wait(remaining)] raises
    [OverflowError] for a wait longer than [threading.TIMEOUT_MAX], and
    otherwise the wait elapses and [queue.Empty] is raised. *)
Definition negative_timeout_message : string :=
  "'timeout' must be a non-negative number".

Definition queue_get : M node :=
  w <- get_walk "_queue" ;;
  t <- (fun d => (Ret (_wait_timeout d), d)) ;;
  if t <? 0 then raise (ValueError negative_timeout_message)
  else if FLOAT_LIMIT <=? t then raise OverflowError
  else
    match _queue w with
    | item :: rest =>
        put_walk (mkWalk (_run_in_degree w) rest (_done w) (_it_cnt w)) ;;
        ret item
    | [] => if TIMEOUT_MAX <? t then raise OverflowError else raise QueueEmpty
    end.

(** [self._queue.put(v)] *)
Definition queue_put (v : node) : M unit :=
  w <- get_walk "_queue" ;;
  put_walk (mkWalk (_run_in_degree w) (_queue w ++ [v]) (_done w) (_it_cnt w)).

(** [self._run_in_degree[v]] *)
Definition in_degree_getitem (v : node) : M Z :=
  w <- get_walk "_run_in_degree" ;;
  match Dict.get v (_run_in_degree w) with
  | Some n => ret n
  | None => raise (KeyError v)
  end.

(** [self._run_in_degree[v] -= 1] *)
Definition in_degree_decr (v : node) : M unit :=
  w <- get_walk "_run_in_degree" ;;
  match Dict.get v (_run_in_degree w) with
  | Some n =>
      put_walk (mkWalk (Dict.set v (n - 1) (_run_in_degree w))
                       (_queue w) (_done w) (_it_cnt w))
  | None => raise (KeyError v)
  end.

(** ** The methods of [TinyDAG] *)

(** [_reset]: a fresh adjacency dict and the default timeout. *)
Definition _reset : M unit :=
  fun d => (Ret tt, set_wait_timeout 120 (set_graph [] d)).

(** [add_node]: [self._graph.setdefault(node, set())] *)
Definition add_node (n : node) : M unit :=
  g <- get_graph ;;
  put_graph (Dict.setdefault n PySet.empty g).

(** [add_edge]: [self._graph[u].add(v)] *)
Definition add_edge (u v : node) : M unit :=
  s <- graph_getitem u ;;
  g <- get_graph ;;
  put_graph (Dict.set u (PySet.add v s) g).

(** [from_dict]: [data.items()] is the list of (key, iterable) pairs. *)
Definition load_row (kv : node * list node) : M unit :=
  add_node (fst kv) ;;
  for_each (snd kv) (fun dep => add_edge (fst kv) dep).

Definition from_dict (data : Dict.t (list node)) : M unit :=
  _reset ;;
  for_each data load_row.

(** [__init__]: [data] is [None] or a dict; an empty dict is falsy. *)
Definition __init__ (data : option (Dict.t (list node))) : res unit * TinyDAG :=
  let fresh := mkDAG [] 120 false None in
  match data with
  | Some (kv :: rest) => from_dict (kv :: rest) fresh
  | _ => (Ret tt, fresh)
  end.


(** [_get_in_degree]: [_in_degree] is a local dict. *)
Definition count_incoming (v : node) (deg : res (Dict.t Z)) : res (Dict.t Z) :=
  match deg with
  | Ret t =>
      match Dict.get v t with
      | Some n => Ret (Dict.set v (n + 1) t)
      | None => Raise (KeyError v)
      end
  | Raise e => Raise e
  end.

Definition count_row (g : Dict.t PySet.t) (u : node) (deg : res (Dict.t Z))
  : res (Dict.t Z) :=
  match deg with
  | Ret t =>
      match Dict.get u g with
      | Some s => fold_left (fun acc v => count_incoming v acc) s (Ret t)
      | None => Raise (KeyError u)
      end
  | Raise e => Raise e
  end.

Definition in_degrees (g : Dict.t PySet.t) : res (Dict.t Z) :=
  let _in_degree := map (fun u => (u, 0)) (Dict.keys g) in
  fold_left (fun acc u => count_row g u acc) (Dict.keys g) (Ret _in_degree).

Definition _get_in_degree : M (Dict.t Z) :=
  g <- get_graph ;;
  match in_degrees g with
  | Ret t => ret t
  | Raise e => raise e
  end.

(** [_start_traverse]; [seed] is the body of its loop over
    [self._run_in_degree.items()]. *)
Definition seed (kv : node * Z) : M unit :=
  if snd kv =? 0 then queue_put (fst kv) else ret tt.

Definition _start_traverse : M unit :=
  deg <- _get_in_degree ;;
  g <- get_graph ;;
  put_walk (mkWalk deg [] PySet.empty (Dict.len g)) ;;
  for_each deg seed.

(** [__iter__] *)
Definition __iter__ : M unit := _start_traverse.

Definition timeout_message : string :=
  "Timeout waiting for cleanup task to complete".

(** [__next__] *)
Definition __next__ : M node :=
  w <- get_walk "_it_cnt" ;;
  if 0 <? _it_cnt w then
    put_walk (mkWalk (_run_in_degree w) (_queue w) (_done w) (_it_cnt w - 1)) ;;
    try_except queue_get
      (fun e =>
         match e with
         | QueueEmpty => Some (raise (SDKException timeout_message))
         | _ => None
         end)
  else raise StopIteration.

(** [node_done]; [release] is the body of its loop over the successors. *)
Definition release (v : node) : M unit :=
  in_degree_decr v ;;
  deg <- in_degree_getitem v ;;
  if deg =? 0 then queue_put v else ret tt.

Definition node_done (n : node) : M unit :=
  w <- get_walk "_done" ;;
  put_walk (mkWalk (_run_in_degree w) (_queue w) (PySet.add n (_done w)) (_it_cnt w)) ;;
  succs <- graph_getitem n ;;
  for_each succs release.

(** The body of [for node in self: result.append(node); self.node_done(node)]
    after [iter(self)]: call [__next__] until [StopIteration].  [fuel] bounds
    the number of rounds; [None] means the bound was reached. *)
Fixpoint consume (fuel : nat) (result : list node) (d : TinyDAG)
  : option (res (list node) * TinyDAG) :=
  match __next__ d with
  | (Raise StopIteration, d1) => Some (Ret result, d1)
  | (Raise e, d1) => Some (Raise e, d1)
  | (Ret n, d1) =>
      match fuel with
      | O => None
      | S fuel' =>
          match node_done n d1 with
          | (Ret _, d2) => consume fuel' (result ++ [n]) d2
          | (Raise e, d2) => Some (Raise e, d2)
          end
      end
  end.

(** [topological_sort].  [__next__] yields at most [len(self._graph)] times,
    so that many rounds always suffice (see [topological_sort_total]). *)
Definition topological_sort (d : TinyDAG) : option (res (list node) * TinyDAG) :=
  match __iter__ d with
  | (Ret _, d0) => consume (length (_graph d0)) [] d0
  | (Raise e, d0) => Some (Raise e, d0)
  end.

(** [size] *)
Definition size : M Z :=
  g <- get_graph ;; ret (Z.of_nat (length (Dict.keys g))).

(** [is_complete] *)
Definition is_complete : M bool :=
  w <- get_walk "_done" ;;
  n <- size ;;
  ret (Z.of_nat (length (_done w)) =? n).

(** ** Concurrent completion reports

    [node_done] holds no lock, so another thread can run between any two of
    its statements.  [pc] names the statement boundaries of one call and
    [thread_step] executes one statement; a schedule picks which of two
    calls moves next.  (CPython can switch threads between bytecodes, so
    every schedule at statement granularity is one the interpreter can
    produce.) *)

Inductive pc :=
| AtEntry (n : node)                      (* before [self._done.add(node)] *)
| AtDecr (v : node) (rest : list node)    (* before [self._run_in_degree[v] -= 1] *)
| AtCheck (v : node) (rest : list node)   (* before [if self._run_in_degree[v] == 0] *)
| AtExit.

Definition loop_head (succs : list node) : pc :=
  match succs with
  | [] => AtExit
  | v :: rest => AtDecr v rest
  end.

Definition thread_step (p : pc) : M pc :=
  match p with
  | AtEntry n =>
      w <- get_walk "_done" ;;
      put_walk (mkWalk (_run_in_degree w) (_queue w) (PySet.add n (_done w)) (_it_cnt w)) ;;
      succs <- graph_getitem n ;;
      ret (loop_head succs)
  | AtDecr v rest =>
      in_degree_decr v ;;
      ret (AtCheck v rest)
  | AtCheck v rest =>
      deg <- in_degree_getitem v ;;
      (if deg =? 0 then queue_put v else ret tt) ;;
      ret (loop_head rest)
  | AtExit => ret AtExit
  end.

(** One call run alone, statement by statement. *)
Fixpoint run_thread (steps : nat) (p : pc) : M pc :=
  match steps with
  | O => ret p
  | S k => p' <- thread_step p ;; run_thread k p'
  end.

(** Two calls under a schedule: [true] moves the first, [false] the second. *)
Fixpoint interleave (sched : list bool) (t1 t2 : pc) : M (pc * pc) :=
  match sched with
  | [] => ret (t1, t2)
  | true :: s => t1' <- thread_step t1 ;; interleave s t1' t2
  | false :: s => t2' <- thread_step t2 ;; interleave s t1 t2'
  end.

(** ** Graphs, orders and lifetimes: the vocabulary of the properties *)

Definition graph := Dict.t PySet.t.

(** [u -> v]: [v] is in the successor set of [u]. *)
Definition edge (g : graph) (u v : node) : Prop :=
  exists s, Dict.get u g = Some s /\ In v s.

(** The successor set of [u], empty when [u] is not a node. *)
Definition succs (g : graph) (u : node) : PySet.t :=
  match Dict.get u g with
  | Some s => s
  | None => []
  end.

Definition edgeb (g : graph) (u v : node) : bool :=
  match Dict.get u g with
  | Some s => PySet.mem v s
  | None => false
  end.

Inductive path (g : graph) : node -> node -> Prop :=
| path_edge u v : edge g u v -> path g u v
| path_step u v w : edge g u v -> path g v w -> path g u w.

Definition acyclic (g : graph) : Prop := forall x, ~ path g x x.

(** Every edge endpoint is a node. *)
Definition closed (g : graph) : Prop :=
  forall u v, edge g u v -> In v (Dict.keys g).

(** What a [dict] of [set]s is: unique keys, duplicate-free values. *)
Definition wf (g : graph) : Prop :=
  NoDup (Dict.keys g) /\ forall u s, Dict.get u g = Some s -> NoDup s.

(** The same adjacency dict up to the iteration order of each set. *)
Definition same_graph (g1 g2 : graph) : Prop :=
  Forall2 (fun e1 e2 => fst e1 = fst e2 /\ Permutation (snd e1) (snd e2)) g1 g2.

(** [l.index(x)]; [None] stands for [ValueError]. *)
Fixpoint index (x : node) (l : list node) : option nat :=
  match l with
  | [] => None
  | y :: l' => if String.eqb x y then Some O else option_map S (index x l')
  end.

(** [l.index(u) < l.index(v)], the check of the unit test [_verify_order]. *)
Definition before (u v : node) (l : list node) : Prop :=
  exists i j, index u l = Some i /\ index v l = Some j /\ (i < j)%nat.

(** Number of direct prerequisites of [v] that are not in [acc]. *)
Definition pending (acc : list node) (v : node) (e : node * PySet.t) : bool :=
  PySet.mem v (snd e) && negb (PySet.mem (fst e) acc).

Definition indeg (g : graph) (acc : list node) (v : node) : Z :=
  Z.of_nat (length (filter (pending acc v) g)).

(** Objects reachable through the construction interface. *)
Inductive built : TinyDAG -> Prop :=
| built_init data r d :
    __init__ data = (r, d) -> built d
| built_add_node n d r d' :
    built d -> add_node n d = (r, d') -> built d'
| built_add_edge u v d r d' :
    built d -> add_edge u v d = (r, d') -> built d'
| built_from_dict data d r d' :
    built d -> from_dict data d = (r, d') -> built d'.

(** The lifetime of one walk: from the state [d0] left by [__iter__], any
    sequence of [__next__] and [node_done] calls, whatever they return or
    raise.  The first list collects the yielded nodes, the second the nodes
    reported done, both in order; the number counts the pulls that raised
    an error (anything but [StopIteration]).  Each call runs to its end
    before the next one starts; [node_done] calls that overlap are
    described by [interleave]. *)
Inductive lifetime (d0 : TinyDAG) : list node -> list node -> nat -> TinyDAG -> Prop :=
| life_start : lifetime d0 [] [] 0 d0
| life_yield ys xs k d n d' :
    lifetime d0 ys xs k d -> __next__ d = (Ret n, d') ->
    lifetime d0 (ys ++ [n]) xs k d'
| life_error ys xs k d e d' :
    lifetime d0 ys xs k d -> __next__ d = (Raise e, d') -> e <> StopIteration ->
    lifetime d0 ys xs (S k) d'
| life_stop ys xs k d d' :
    lifetime d0 ys xs k d -> __next__ d = (Raise StopIteration, d') ->
    lifetime d0 ys xs k d'
| life_done ys xs k d n r d' :
    lifetime d0 ys xs k d -> node_done n d = (r, d') ->
    lifetime d0 ys (xs ++ [n]) k d'.

(** The nodes [_start_traverse] puts on the queue: the keys of the in-degree
    table whose count is zero, in the order of the table. *)
Definition seeds (deg : Dict.t Z) : list node :=
  map fst (filter (fun kv => snd kv =? 0) deg).

(** The successors [node_done] puts on the queue: those whose count in the
    table [deg] (read before the call) becomes zero by one decrement. *)
Definition reaches_zero (deg : Dict.t Z) (v : node) : bool :=
  match Dict.get v deg with
  | Some n => n - 1 =? 0
  | None => false
  end.

(** The ready queue and the in-degree table of an object ([[]] before the
    first walk). *)
Definition queue_of (d : TinyDAG) : list node :=
  match walk_attrs d with
  | Some w => _queue w
  | None => []
  end.

Definition in_degree_of (d : TinyDAG) : Dict.t Z :=
  match walk_attrs d with
  | Some w => _run_in_degree w
  | None => []
  end.

Definition done_of (d : TinyDAG) : PySet.t :=
  match walk_attrs d with
  | Some w => _done w
  | None => []
  end.

(** The adjacency mapping of the unit tests without its node [g], as the
    specification quotes it. *)
Definition scenario : Dict.t (list node) :=
  [ ("a", ["b"; "d"; "f"]);
    ("b", ["c"; "d"]);
    ("c", ["d"]);
    ("d", ["e"]);
    ("e", []);
    ("f", ["e"]) ].

(** The fan-in graph [p1 -> s <- p2]. *)
Definition fan_in : Dict.t (list node) :=
  [ ("p1", ["s"]); ("p2", ["s"]); ("s", []) ].

(** The fan-in graph with a node after it: [p1 -> s <- p2], [s -> t]. *)
Definition fan_in_tail : Dict.t (list node) :=
  [ ("p1", ["s"]); ("p2", ["s"]); ("s", ["t"]); ("t", []) ].


(** The two-node cycle [a -> b -> a]. *)
Definition two_cycle : Dict.t (list node) :=
  [ ("a", ["b"]); ("b", ["a"]) ].

(** Checkers for concrete graphs: every successor is a key, and every edge
    goes forward in a given list of the nodes. *)
Definition closedb (g : graph) : bool :=
  forallb (fun e => forallb (fun v => PySet.mem v (Dict.keys g)) (snd e)) g.

Definition rank_in (order : list node) (v : node) : nat :=
  match index v order with
  | Some i => i
  | None => length order
  end.

Definition rankedb (order : list node) (g : graph) : bool :=
  forallb (fun e =>
    forallb (fun v => Nat.ltb (rank_in order (fst e)) (rank_in order v)) (snd e)) g.

(** The adjacency dict [from_dict] builds from the quoted scenario. *)
Definition scenario_graph : graph := _graph (snd (__init__ (Some scenario))).

(** ** The graph [project_cleanup] builds ([openstack/cloud/openstackcloud.py])

    Each service maps to a dict with a ['before'] list and an optional
    ['after'] list; [v['before']] on a dict without that key is a
    [KeyError], [v.get('after', [])] defaults to the empty list. *)
Record cleanup_deps := mkDeps {
  deps_before : option (list node);
  deps_after : option (list node)
}.

(** The body of [for k, v in dependencies.items()]. *)
Definition add_dependencies (kv : node * cleanup_deps) : M unit :=
  add_node (fst kv) ;;
  match deps_before (snd kv) with
  | Some deps =>
      for_each deps (fun dep => add_node dep ;; add_edge (fst kv) dep)
  | None => raise (KeyError "before")
  end ;;
  for_each (match deps_after (snd kv) with Some deps => deps | None => [] end)
           (fun dep => add_edge dep (fst kv)).

(** [dep_graph = utils.TinyDAG()] followed by the loop over the
    dependencies. *)
Definition cleanup_graph (dependencies : Dict.t cleanup_deps) : res unit * TinyDAG :=
  for_each dependencies add_dependencies (snd (__init__ None)).

(** The nodes without a prerequisite, in the order of the adjacency dict. *)
Definition sources (g : graph) : list node :=
  filter (fun v => negb (existsb (fun u => edgeb g u v) (Dict.keys g))) (Dict.keys g).

(** The number of nodes that have [v] in their successor set. *)
Definition prerequisites (g : graph) (v : node) : Z :=
  Z.of_nat (length (filter (fun u => edgeb g u v) (Dict.keys g))).

(** Whether the table [deg] holds the count [c] for [v]. *)
Definition has_count (deg : Dict.t Z) (c : Z) (v : node) : bool :=
  match Dict.get v deg with
  | Some n => n =? c
  | None => false
  end.

(** ** Other helpers of [openstack/utils.py] *)

(** Truth value of an optional string: [None] and [''] are falsy. *)
Definition truthy (s : option string) : bool :=
  match s with
  | Some (String _ _) => true
  | _ => false
  end.

(** [a == b] on optional strings. *)
Definition py_eq (a b : option string) : bool :=
  match a, b with
  | Some x, Some y => String.eqb x y
  | None, None => true
  | _, _ => false
  end.

(** [_hashes_up_to_date]: the four [if] statements in order. *)
Definition _hashes_up_to_date (md5 sha256 md5_key sha256_key : option string) : bool :=
  let up_to_date := false in
  let up_to_date :=
    if truthy md5 && py_eq md5_key md5 then true else up_to_date in
  let up_to_date :=
    if truthy sha256 && py_eq sha256_key sha256 then true else up_to_date in
  let up_to_date :=
    if truthy md5 && negb (py_eq md5_key md5) then false else up_to_date in
  let up_to_date :=
    if truthy sha256 && negb (py_eq sha256_key sha256) then false else up_to_date in
  up_to_date.

(** [s.lstrip('/')] and [s.rstrip('/')] *)
Fixpoint lstrip (s : string) : string :=
  match s with
  | EmptyString => EmptyString
  | String c s' => if Ascii.eqb c "/"%char then lstrip s' else s
  end.

Fixpoint rstrip (s : string) : string :=
  match s with
  | EmptyString => EmptyString
  | String c s' =>
      match rstrip s' with
      | EmptyString => if Ascii.eqb c "/"%char then EmptyString else String c EmptyString
      | r => String c r
      end
  end.

(** [s.strip('/')] *)
Definition strip (s : string) : string := rstrip (lstrip s).

(** [str(a or '')] for an argument that is a string or [None]. *)
Definition str_or_empty (a : option string) : string :=
  match a with
  | Some s => s
  | None => EmptyString
  end.

(** [urljoin]: the stripped arguments, [None] taken as [''], joined by ['/'] *)
Definition urljoin (args : list (option string)) : string :=
  String.concat "/" (map (fun a => strip (str_or_empty a)) args).

(** ** Microversion negotiation *)

(** A version as the callers pass it: a string such as ['2.10'] or a tuple
    of integers such as [(2, 10)]; [None] is the absent [option]. *)
Inductive version :=
| VStr (s : string)
| VTuple (t : list Z).

(** Truth value of an optional version: [None], [''] and [()] are falsy. *)
Definition version_truthy (v : option version) : bool :=
  match v with
  | Some (VStr (String _ _)) => true
  | Some (VTuple (_ :: _)) => true
  | _ => false
  end.

(** The texts of the [SDKException]s raised here, with their parameters. *)
Inductive message :=
| HigherThanSelected (ver curr : version)
    (* Required microversion {ver} is higher than currently selected {curr} *)
| NotSupportedByServer (ver : version)
    (* Required microversion {ver} is not supported by the server side *)
| NotSupportedOrDefaultTooLow.
    (* Requested microversion is not supported by the server side or the
       default microversion is too low *)

Inductive error :=
| SDKError (msg : message)          (* openstack.exceptions.SDKException *)
| NoneAttribute (name : string)     (* AttributeError on [None] *)
| DiscoveryFailure                  (* keystoneauth1.exceptions.discovery *)
| LibraryError (name : string).     (* anything else keystoneauth1 raises *)

Inductive outcome (A : Type) :=
| Returns (a : A)
| Raises (e : error).
Arguments Returns {A} a.
Arguments Raises {A} e.

Definition and_then {A B} (c : outcome A) (k : A -> outcome B) : outcome B :=
  match c with
  | Returns a => k a
  | Raises e => Raises e
  end.

Notation "'let*' x ':=' c 'in' k" := (and_then c (fun x => k))
  (at level 10, x name, c at level 100, k at level 200).

(** The functions of [keystoneauth1.discover] that the helpers call.  They
    are outside this code base and are taken as an interface; each may
    raise. *)
Class Discover := {
  normalize_version_number : version -> outcome (list Z);
  version_match : list Z -> list Z -> outcome bool;
  version_between : version -> version -> version -> outcome bool;
  version_to_string : list Z -> outcome string
}.

(** [keystoneauth1.discover.EndpointData], the two attributes read here. *)
Record EndpointData := mkEndpointData {
  min_microversion : option version;
  max_microversion : option version
}.

(** [keystoneauth1.adapter.Adapter]: what [get_endpoint_data()] gives and
    the [default_microversion] attribute. *)
Record Adapter := mkAdapter {
  get_endpoint_data : outcome (option EndpointData);
  default_microversion : option version
}.

(** [a < b] on tuples of integers: lexicographic, a proper prefix is smaller. *)
Fixpoint tuple_lt (a b : list Z) : bool :=
  match a, b with
  | [], [] => false
  | [], _ :: _ => true
  | _ :: _, [] => false
  | x :: a', y :: b' => if x =? y then tuple_lt a' b' else x <? y
  end.

(** [min(a, b)]: the first argument unless the second is smaller. *)
Definition py_min (a b : list Z) : list Z := if tuple_lt b a then b else a.

Definition supports_microversion `{Discover} (adapter : Adapter)
    (microversion : version) (raise_exception : bool) : outcome bool :=
  let* endpoint_data := get_endpoint_data adapter in
  match endpoint_data with
  | None => Raises (NoneAttribute "min_microversion")
  | Some endpoint_data =>
      let* in_range :=
        match min_microversion endpoint_data, max_microversion endpoint_data with
        | Some lo, Some hi =>
            if version_truthy (Some lo) && version_truthy (Some hi)
            then version_between lo hi microversion
            else Returns false
        | _, _ => Returns false
        end in
      if in_range then
        match default_microversion adapter with
        | Some default =>
            let* candidate := normalize_version_number default in
            let* required := normalize_version_number microversion in
            let* supports := version_match required candidate in
            if raise_exception && negb supports
            then Raises (SDKError (HigherThanSelected microversion default))
            else Returns supports
        | None => Returns true
        end
      else if raise_exception
      then Raises (SDKError (NotSupportedByServer microversion))
      else Returns false
  end.

Definition require_microversion `{Discover} (adapter : Adapter)
    (required : version) : outcome unit :=
  let* _ := supports_microversion adapter required true in
  Returns tt.

Definition pick_microversion `{Discover} (session : Adapter)
    (required : option version) : outcome (option string) :=
  let* required :=
    match required with
    | Some r => let* t := normalize_version_number r in Returns (Some t)
    | None => Returns None
    end in
  let* required :=
    match default_microversion session with
    | Some dm =>
        let* default := normalize_version_number dm in
        match required with
        | None => Returns (Some default)
        | Some r =>
            let* m := version_match r default in
            Returns (Some (if m then default else r))
        end
    | None => Returns required
    end in
  match required with
  | Some r =>
      let* ok := supports_microversion session (VTuple r) false in
      if negb ok then Raises (SDKError NotSupportedOrDefaultTooLow)
      else let* s := version_to_string r in Returns (Some s)
  | None => Returns None
  end.

(** [maximum_supported_microversion]; the warning written to the log when
    there is no endpoint data is not modelled. *)
Definition maximum_supported_microversion `{Discover} (adapter : Adapter)
    (client_maximum : option version) : outcome (option string) :=
  match client_maximum with
  | None => Returns None
  | Some client_maximum =>
      let* endpoint_data :=
        match get_endpoint_data adapter with
        | Raises DiscoveryFailure => Returns None
        | r => r
        end in
      match endpoint_data with
      | None => Returns None
      | Some endpoint_data =>
          match max_microversion endpoint_data with
          | Some smax =>
              if negb (version_truthy (Some smax)) then Returns None else
              let* client_max := normalize_version_number client_maximum in
              let* server_max := normalize_version_number smax in
              let* too_old :=
                match min_microversion endpoint_data with
                | Some smin =>
                    if version_truthy (Some smin) then
                      let* server_min := normalize_version_number smin in
                      Returns (tuple_lt client_max server_min)
                    else Returns false
                | None => Returns false
                end in
              if too_old then Returns None else
              let* s := version_to_string (py_min client_max server_max) in
              Returns (Some s)
          | None => Returns None
          end
      end
  end.

(** An implementation of the interface on tuples, to run the helpers on
    examples; strings are refused. *)
Definition tuple_between (lo hi c : list Z) : bool :=
  negb (tuple_lt c lo) && negb (tuple_lt hi c).

Definition tuples_only (v : version) : outcome (list Z) :=
  match v with
  | VTuple t => Returns t
  | VStr _ => Raises (LibraryError "TypeError")
  end.

Definition tuple_discover : Discover := {|
  normalize_version_number := tuples_only;
  version_match := fun required candidate =>
    Returns (match required, candidate with
             | r :: _, c :: _ => (c =? r) && negb (tuple_lt candidate required)
             | _, _ => false
             end);
  version_between := fun lo hi c =>
    let* lo := tuples_only lo in
    let* hi := tuples_only hi in
    let* c := tuples_only c in
    Returns (tuple_between lo hi c);
  version_to_string := fun t => Returns (String.concat "." (map (fun z => NilZero.string_of_int (Z.to_int z)) t))
|}.

(** An adapter of a service that supports the microversions 2.1 to 2.90,
    with no default microversion. *)
Definition sample_adapter : Adapter :=
  mkAdapter (Returns (Some (mkEndpointData (Some (VTuple [2; 1])) (Some (VTuple [2; 90])))))
            None.

(** ** [Munch]: the methods that work on the items *)

(** A [Munch] is a [dict]; the values are any Python objects. *)
Module Munch.

Definition t (V : Type) := Dict.t V.

(** [self[k] = v] for one item [(k, v)]. *)
Definition set_item {V} (d : Dict.t V) (kv : string * V) : Dict.t V :=
  Dict.set (fst kv) (snd kv) d.

(** [dict(arg, **kwargs)] for a mapping or an iterable of pairs [arg]. *)
Definition py_dict {V} (arg kwargs : list (string * V)) : Dict.t V :=
  fold_left set_item (arg ++ kwargs) [].

Definition update {V} (self : t V) (arg kwargs : list (string * V)) : t V :=
  fold_left set_item (py_dict arg kwargs) self.

Definition __init__ {V} (arg kwargs : list (string * V)) : t V :=
  update [] arg kwargs.

Definition get {V} (self : t V) (k : string) (d : V) : V :=
  match Dict.get k self with
  | None => d
  | Some v => v
  end.

(** The returned value is [self[k]], read after the assignment; [None]
    stands for its [KeyError]. *)
Definition setdefault {V} (self : t V) (k : string) (d : V) : option V * t V :=
  let self :=
    match Dict.get k self with
    | None => Dict.set k d self
    | Some _ => self
    end in
  (Dict.get k self, self).

Definition __getstate__ {V} (self : t V) : Dict.t V :=
  fold_left set_item self [].

(** [self.clear()] and then [self.update(state)]. *)
Definition __setstate__ {V} (self : t V) (state : Dict.t V) : t V :=
  update [] state [].

End Munch.

(** ** Relations and invariants used in the proofs *)

(** A method all of whose outcomes are related to the state it ran in. *)
Definition stable (R : TinyDAG -> TinyDAG -> Prop) {A} (c : M A) : Prop :=
  forall d, R d (snd (c d)).

Definition keeps_wf (d d' : TinyDAG) : Prop := wf (_graph d) -> wf (_graph d').

Definition keeps_timeout (d d' : TinyDAG) : Prop :=
  _wait_timeout d' = _wait_timeout d.

(** What a completion report keeps: the walk exists afterwards, and its
    yield counter, like the keys of its in-degree table, is as before. *)
Definition keeps_counter (d d' : TinyDAG) : Prop :=
  forall w, walk_attrs d = Some w ->
  exists w', walk_attrs d' = Some w' /\ _it_cnt w' = _it_cnt w /\
             Dict.keys (_run_in_degree w') = Dict.keys (_run_in_degree w).

Definition keeps_graph (d d' : TinyDAG) : Prop :=
  _graph d' = _graph d /\ _wait_timeout d' = _wait_timeout d /\ _lock d' = _lock d.

(** Yields, failed pulls and the remaining count add up to the node count. *)
Definition counted (g : graph) (ys : list node) (k : nat) (d : TinyDAG) : Prop :=
  _graph d = g /\
  exists w, walk_attrs d = Some w /\
            0 <= _it_cnt w /\
            _it_cnt w + Z.of_nat (length ys) + Z.of_nat k = Z.of_nat (length g).

(** No node is on the queue or yielded twice, whatever the caller reports:
    a node that was ever enqueued has a count that is not positive. *)
Definition at_most_once (g : graph) (ys : list node) (w : Walk) : Prop :=
  Dict.keys (_run_in_degree w) = Dict.keys g /\
  NoDup (ys ++ _queue w) /\
  forall v, In v (ys ++ _queue w) ->
            exists n, Dict.get v (_run_in_degree w) = Some n /\ n <= 0.

(** Kahn's invariant, for a caller that reports each node once: the table
    holds the number of unreported prerequisites, and a node has been
    enqueued (once) exactly when that number is zero. *)
Definition kahn (g : graph) (ys xs : list node) (w : Walk) : Prop :=
  Dict.keys (_run_in_degree w) = Dict.keys g /\
  (forall v, In v (Dict.keys g) ->
             Dict.get v (_run_in_degree w) = Some (indeg g xs v)) /\
  (forall v, In v (ys ++ _queue w) -> In v (Dict.keys g)) /\
  (forall v, In v (Dict.keys g) ->
             count_occ string_dec (ys ++ _queue w) v =
             if indeg g xs v =? 0 then 1%nat else 0%nat).

(** A closed, well-formed graph that has the node [k]. *)
Definition closed_with (k : node) (d : TinyDAG) : Prop :=
  wf (_graph d) /\ closed (_graph d) /\ In k (Dict.keys (_graph d)).

Definition keeps_closed_with (k : node) (d d' : TinyDAG) : Prop :=
  closed_with k d -> closed_with k d'.

Definition keeps_closed (d d' : TinyDAG) : Prop :=
  wf (_graph d) /\ closed (_graph d) -> wf (_graph d') /\ closed (_graph d').

Definition keeps_walk (d d' : TinyDAG) : Prop := walk_attrs d' = walk_attrs d.

(** * Properties *)

(** ** Container lemmas *)

Module DictFacts.
Import Dict.

Lemma get_some_in_keys {V} k (d : t V) v : get k d = Some v -> In k (keys d).
Proof.
  induction d as [|[k' v'] d IH]; simpl; [discriminate|].
  destruct (String.eqb_spec k k'); auto.
Qed.

Lemma in_keys_get_some {V} k (d : t V) : In k (keys d) -> exists v, get k d = Some v.
Proof.
  induction d as [|[k' v'] d IH]; simpl; [tauto|].
  intros [->|H].
  - rewrite String.eqb_refl. eauto.
  - destruct (String.eqb k k'); eauto.
Qed.

Lemma get_none_iff {V} k (d : t V) : get k d = None <-> ~ In k (keys d).
Proof.
  split.
  - intros H Hin. apply in_keys_get_some in Hin as [v Hv]. congruence.
  - intros H. destruct (get k d) eqn:E; auto.
    apply get_some_in_keys in E. contradiction.
Qed.

Lemma get_set_same {V} k v (d : t V) : get k (set k v d) = Some v.
Proof.
  induction d as [|[k' v'] d IH]; simpl.
  - now rewrite String.eqb_refl.
  - destruct (String.eqb_spec k k') as [->|N]; simpl.
    + now rewrite String.eqb_refl.
    + apply String.eqb_neq in N. now rewrite N.
Qed.

Lemma get_set_other {V} k k' v (d : t V) : k' <> k -> get k' (set k v d) = get k' d.
Proof.
  intros N. induction d as [|[k0 v0] d IH]; simpl.
  - apply String.eqb_neq in N. now rewrite N.
  - destruct (String.eqb_spec k k0) as [->|N0]; simpl.
    + apply String.eqb_neq in N. now rewrite N.
    + now rewrite IH.
Qed.

Lemma keys_set_present {V} k v (d : t V) : In k (keys d) -> keys (set k v d) = keys d.
Proof.
  induction d as [|[k0 v0] d IH]; simpl; [tauto|].
  intros H. destruct (String.eqb_spec k k0) as [->|N]; simpl; auto.
  f_equal. apply IH. destruct H; congruence.
Qed.

Lemma set_absent {V} k v (d : t V) : get k d = None -> set k v d = d ++ [(k, v)].
Proof.
  induction d as [|[k0 v0] d IH]; simpl; auto.
  destruct (String.eqb k k0); [discriminate|].
  intros H. now rewrite IH.
Qed.

Lemma set_same_value {V} k v (d : t V) : get k d = Some v -> set k v d = d.
Proof.
  induction d as [|[k0 v0] d IH]; simpl; [discriminate|].
  destruct (String.eqb_spec k k0) as [->|N].
  - now intros [= ->].
  - intros H. now rewrite IH.
Qed.

Lemma set_set {V} k v v' (d : t V) : set k v (set k v' d) = set k v d.
Proof.
  induction d as [|[k0 v0] d IH]; simpl.
  - now rewrite String.eqb_refl.
  - destruct (String.eqb_spec k k0) as [->|N]; simpl.
    + now rewrite String.eqb_refl.
    + apply String.eqb_neq in N. rewrite N. now rewrite IH.
Qed.

Lemma length_set_present {V} k v (d : t V) :
  In k (keys d) -> length (set k v d) = length d.
Proof.
  intros H. rewrite <- (length_map fst (set k v d)), <- (length_map fst d).
  fold (keys (set k v d)). fold (keys d). now rewrite keys_set_present.
Qed.

Lemma get_app_left {V} k (d1 d2 : t V) v :
  get k d1 = Some v -> get k (d1 ++ d2) = Some v.
Proof.
  induction d1 as [|[k0 v0] d1 IH]; simpl; [discriminate|].
  destruct (String.eqb k k0); auto.
Qed.

Lemma get_app_right {V} k (d1 d2 : t V) :
  get k d1 = None -> get k (d1 ++ d2) = get k d2.
Proof.
  induction d1 as [|[k0 v0] d1 IH]; simpl; auto.
  destruct (String.eqb k k0); [discriminate|auto].
Qed.

Lemma get_in {V} k v (d : t V) : get k d = Some v -> In (k, v) d.
Proof.
  induction d as [|[k0 v0] d IH]; simpl; [discriminate|].
  destruct (String.eqb_spec k k0) as [->|N].
  - intros [= ->]. now left.
  - auto.
Qed.

Lemma in_get {V} k v (d : t V) : NoDup (keys d) -> In (k, v) d -> get k d = Some v.
Proof.
  induction d as [|[k0 v0] d IH]; simpl; [tauto|].
  intros ND [E|H].
  - injection E as -> ->. now rewrite String.eqb_refl.
  - inversion ND as [|? ? Hn ND']; subst.
    destruct (String.eqb_spec k k0) as [->|N]; auto.
    exfalso. apply Hn. change (In (fst (k0, v)) (map fst d)). now apply in_map.
Qed.

End DictFacts.

Module PySetFacts.
Import PySet.

Lemma mem_true_iff v s : mem v s = true <-> In v s.
Proof.
  unfold mem. rewrite existsb_exists. split.
  - intros [x [Hx E]]. apply String.eqb_eq in E. now subst.
  - intros H. exists v. split; auto. apply String.eqb_refl.
Qed.

Lemma mem_false_iff v s : mem v s = false <-> ~ In v s.
Proof.
  rewrite <- mem_true_iff. destruct (mem v s); split; congruence.
Qed.

Lemma in_add x v s : In x (add v s) <-> x = v \/ In x s.
Proof.
  unfold add. destruct (mem v s) eqn:E.
  - apply mem_true_iff in E. split; [auto|]. intros [->|H]; auto.
  - rewrite in_app_iff. simpl. intuition congruence.
Qed.

Lemma add_present v s : In v s -> add v s = s.
Proof.
  intros H. unfold add. apply mem_true_iff in H. now rewrite H.
Qed.

Lemma nodup_add v s : NoDup s -> NoDup (add v s).
Proof.
  intros ND. unfold add. destruct (mem v s) eqn:E; auto.
  apply mem_false_iff in E.
  apply NoDup_rev in ND. rewrite <- (rev_involutive (s ++ [v])).
  apply NoDup_rev. rewrite rev_app_distr. simpl.
  constructor; auto. now rewrite <- in_rev.
Qed.

Lemma add_add v s : add v (add v s) = add v s.
Proof.
  apply add_present. apply in_add. now left.
Qed.

Lemma nodup_fold_add l s : NoDup s -> NoDup (fold_left (fun s v => add v s) l s).
Proof.
  revert s. induction l as [|x l IH]; simpl; auto.
  intros s ND. apply IH. now apply nodup_add.
Qed.

Lemma in_fold_add x l s :
  In x (fold_left (fun s v => add v s) l s) <-> In x l \/ In x s.
Proof.
  revert s. induction l as [|y l IH]; simpl; intros s.
  - tauto.
  - rewrite IH, in_add. intuition congruence.
Qed.

End PySetFacts.

(** ** Graph construction *)

Lemma add_node_absent n d :
  Dict.get n (_graph d) = None ->
  add_node n d = (Ret tt, set_graph (_graph d ++ [(n, PySet.empty)]) d).
Proof.
  intros H. unfold add_node, bind, get_graph, put_graph, Dict.setdefault.
  rewrite H. now rewrite DictFacts.set_absent.
Qed.

Lemma add_node_present n d :
  In n (Dict.keys (_graph d)) -> add_node n d = (Ret tt, d).
Proof.
  intros H. apply DictFacts.in_keys_get_some in H as [s Hs].
  unfold add_node, bind, get_graph, put_graph, Dict.setdefault.
  rewrite Hs. now destruct d.
Qed.

Lemma add_edge_present u v d s :
  Dict.get u (_graph d) = Some s ->
  add_edge u v d = (Ret tt, set_graph (Dict.set u (PySet.add v s) (_graph d)) d).
Proof.
  intros H. unfold add_edge, graph_getitem, bind, get_graph, put_graph, ret.
  now rewrite H.
Qed.

Lemma add_edge_absent u v d :
  Dict.get u (_graph d) = None -> add_edge u v d = (Raise (KeyError u), d).
Proof.
  intros H. unfold add_edge, graph_getitem, bind, get_graph, raise.
  now rewrite H.
Qed.

Lemma edge_iff_edgeb g u v : edge g u v <-> edgeb g u v = true.
Proof.
  unfold edge, edgeb. split.
  - intros [s [-> H]]. now apply PySetFacts.mem_true_iff.
  - destruct (Dict.get u g) as [s|]; [|discriminate].
    intros H. exists s. split; auto. now apply PySetFacts.mem_true_iff.
Qed.

Lemma edge_source_is_node g u v : edge g u v -> In u (Dict.keys g).
Proof.
  intros [s [H _]]. eapply DictFacts.get_some_in_keys; eauto.
Qed.

(** The successor loop of [from_dict] for one key that is present. *)
Lemma add_edges_present k vs : forall d s,
  Dict.get k (_graph d) = Some s ->
  for_each vs (fun dep => add_edge k dep) d =
  (Ret tt, set_graph (Dict.set k (fold_left (fun s v => PySet.add v s) vs s) (_graph d)) d).
Proof.
  induction vs as [|v vs IH]; intros d s H; simpl.
  - unfold ret. rewrite DictFacts.set_same_value by auto. now destruct d.
  - unfold bind. rewrite (add_edge_present _ _ _ _ H).
    rewrite (IH _ (PySet.add v s)).
    + simpl. now rewrite DictFacts.set_set.
    + simpl. apply DictFacts.get_set_same.
Qed.

Lemma set_app_last {V} k (v v' : V) (g : Dict.t V) :
  Dict.get k g = None -> Dict.set k v' (g ++ [(k, v)]) = g ++ [(k, v')].
Proof.
  induction g as [|[k0 v0] g IH]; simpl.
  - now rewrite String.eqb_refl.
  - destruct (String.eqb k k0); [discriminate|]. intros H. now rewrite IH.
Qed.

(** The outer loop of [from_dict] on keys that are new to the graph. *)
Lemma load_rows data : forall d,
  NoDup (Dict.keys data) ->
  (forall k, In k (Dict.keys data) -> ~ In k (Dict.keys (_graph d))) ->
  for_each data load_row d =
  (Ret tt,
   set_graph (_graph d ++ map (fun kv => (fst kv, PySet.of_list (snd kv))) data) d).
Proof.
  induction data as [|[k vs] data IH]; intros d ND Hnew; simpl.
  - unfold ret. rewrite app_nil_r. now destruct d.
  - inversion ND as [|? ? Hk ND']; subst.
    assert (Hget : Dict.get k (_graph d) = None).
    { apply DictFacts.get_none_iff. apply Hnew. now left. }
    unfold bind at 1. unfold load_row at 1. unfold bind at 1. simpl fst. simpl snd.
    rewrite (add_node_absent _ _ Hget).
    rewrite (add_edges_present k vs _ PySet.empty).
    2:{ simpl. rewrite DictFacts.get_app_right by auto. simpl.
        now rewrite String.eqb_refl. }
    simpl _graph. rewrite set_app_last by auto.
    rewrite IH; auto.
    + simpl. rewrite <- app_assoc. reflexivity.
    + intros k' Hin. simpl. unfold Dict.keys. rewrite map_app, in_app_iff.
      simpl. intros [H|[H|[]]].
      * apply (Hnew k'); [now right|exact H].
      * subst. contradiction.
Qed.

Lemma from_dict_result data d :
  NoDup (Dict.keys data) ->
  from_dict data d =
  (Ret tt, mkDAG (map (fun kv => (fst kv, PySet.of_list (snd kv))) data)
                 120 (_lock d) (walk_attrs d)).
Proof.
  intros ND. unfold from_dict. unfold bind at 1. unfold _reset.
  rewrite load_rows; auto.
Qed.

Lemma get_map_rows k (data : Dict.t (list node)) :
  Dict.get k (map (fun kv => (fst kv, PySet.of_list (snd kv))) data) =
  option_map PySet.of_list (Dict.get k data).
Proof.
  induction data as [|[k0 v0] data IH]; simpl; auto.
  destruct (String.eqb k k0); auto.
Qed.

Lemma keys_map_rows (data : Dict.t (list node)) :
  Dict.keys (map (fun kv => (fst kv, PySet.of_list (snd kv))) data) = Dict.keys data.
Proof.
  unfold Dict.keys. rewrite map_map. reflexivity.
Qed.

Lemma in_of_list v l : In v (PySet.of_list l) <-> In v l.
Proof.
  unfold PySet.of_list. rewrite PySetFacts.in_fold_add. simpl. tauto.
Qed.

Lemma nodup_of_list l : NoDup (PySet.of_list l).
Proof.
  apply PySetFacts.nodup_fold_add. constructor.
Qed.

(** ** Relations every step of a method maintains *)

Section Stable.

Variable R : TinyDAG -> TinyDAG -> Prop.
Hypothesis R_refl : forall d, R d d.
Hypothesis R_trans : forall d1 d2 d3, R d1 d2 -> R d2 d3 -> R d1 d3.

Lemma stable_ret {A} (a : A) : stable R (ret a).
Proof. intros d. apply R_refl. Qed.

Lemma stable_raise {A} e : stable R (@raise A e).
Proof. intros d. apply R_refl. Qed.

Lemma stable_bind {A B} (c : M A) (k : A -> M B) :
  stable R c -> (forall a, stable R (k a)) -> stable R (bind c k).
Proof.
  intros Hc Hk d. unfold bind. specialize (Hc d).
  destruct (c d) as [[a|e] d1]; simpl in *; auto.
  eapply R_trans; [exact Hc|apply Hk].
Qed.

Lemma stable_for_each {A} (l : list A) (body : A -> M unit) :
  (forall x, stable R (body x)) -> stable R (for_each l body).
Proof.
  intros Hb. induction l as [|x l IH]; simpl.
  - apply stable_ret.
  - apply stable_bind; auto.
Qed.

Lemma stable_get_graph : stable R get_graph.
Proof. intros d. apply R_refl. Qed.

Lemma stable_get_walk a : stable R (get_walk a).
Proof. intros d. unfold get_walk. destruct (walk_attrs d); apply R_refl. Qed.

Lemma stable_if {A} (b : bool) (c1 c2 : M A) :
  stable R c1 -> stable R c2 -> stable R (if b then c1 else c2).
Proof. now destruct b. Qed.

Lemma stable_graph_getitem u : stable R (graph_getitem u).
Proof.
  apply stable_bind; [apply stable_get_graph|].
  intros g. destruct (Dict.get u g); [apply stable_ret|apply stable_raise].
Qed.

(** Methods of the walk phase, given that writing the walk attributes
    maintains [R]. *)
Hypothesis R_put_walk : forall w, stable R (put_walk w).

Lemma stable_queue_put v : stable R (queue_put v).
Proof. apply stable_bind; [apply stable_get_walk|auto]. Qed.

Lemma stable_in_degree_getitem v : stable R (in_degree_getitem v).
Proof.
  apply stable_bind; [apply stable_get_walk|].
  intros w. destruct (Dict.get v _); [apply stable_ret|apply stable_raise].
Qed.

Lemma stable_in_degree_decr v : stable R (in_degree_decr v).
Proof.
  apply stable_bind; [apply stable_get_walk|].
  intros w. destruct (Dict.get v _); [auto|apply stable_raise].
Qed.

Lemma stable_node_done n : stable R (node_done n).
Proof.
  unfold node_done.
  apply stable_bind; [apply stable_get_walk|intros w].
  apply stable_bind; [auto|intros _].
  apply stable_bind; [apply stable_graph_getitem|intros succs].
  apply stable_for_each. intros v.
  apply stable_bind; [apply stable_in_degree_decr|intros _].
  apply stable_bind; [apply stable_in_degree_getitem|intros deg].
  apply stable_if; [apply stable_queue_put|apply stable_ret].
Qed.

Lemma stable_try_except {A} (c : M A) handler :
  stable R c -> (forall e h, handler e = Some h -> stable R h) ->
  stable R (try_except c handler).
Proof.
  intros Hc Hh d. unfold try_except. specialize (Hc d).
  destruct (c d) as [[a|e] d1]; simpl in *; auto.
  destruct (handler e) as [h|] eqn:E; auto.
  eapply R_trans; [exact Hc|]. eapply Hh; eauto.
Qed.

Lemma stable_queue_get : stable R queue_get.
Proof.
  unfold queue_get.
  apply stable_bind; [apply stable_get_walk|intros w].
  apply stable_bind; [intros d; apply R_refl|intros t].
  apply stable_if; [apply stable_raise|].
  apply stable_if; [apply stable_raise|].
  destruct (_queue w); [apply stable_if; apply stable_raise|].
  apply stable_bind; [auto|intros _; apply stable_ret].
Qed.

Lemma stable_next : stable R __next__.
Proof.
  unfold __next__.
  apply stable_bind; [apply stable_get_walk|intros w].
  apply stable_if; [|apply stable_raise].
  apply stable_bind; [auto|intros _].
  apply stable_try_except; [apply stable_queue_get|].
  intros e h. destruct e; try discriminate. intros [= <-]. apply stable_raise.
Qed.

Lemma stable_get_in_degree : stable R _get_in_degree.
Proof.
  unfold _get_in_degree.
  apply stable_bind; [apply stable_get_graph|intros g].
  destruct (in_degrees g); [apply stable_ret|apply stable_raise].
Qed.

Lemma stable_start_traverse : stable R _start_traverse.
Proof.
  unfold _start_traverse.
  apply stable_bind; [apply stable_get_in_degree|intros deg].
  apply stable_bind; [apply stable_get_graph|intros g].
  apply stable_bind; [auto|intros _].
  apply stable_for_each. intros kv.
  apply stable_if; [apply stable_queue_put|apply stable_ret].
Qed.

Lemma stable_thread_step p : stable R (thread_step p).
Proof.
  destruct p; simpl.
  - apply stable_bind; [apply stable_get_walk|intros w].
    apply stable_bind; [auto|intros _].
    apply stable_bind; [apply stable_graph_getitem|intros; apply stable_ret].
  - apply stable_bind; [apply stable_in_degree_decr|intros; apply stable_ret].
  - apply stable_bind; [apply stable_in_degree_getitem|intros deg].
    apply stable_bind; [|intros; apply stable_ret].
    apply stable_if; [apply stable_queue_put|apply stable_ret].
  - apply stable_ret.
Qed.

Lemma stable_consume fuel : forall acc d r d',
  consume fuel acc d = Some (r, d') -> R d d'.
Proof.
  induction fuel as [|fuel IH]; intros acc d r d' H; simpl in H;
    pose proof (stable_next d) as Hn;
    destruct (__next__ d) as [[n|e] d1]; simpl in Hn.
  - discriminate.
  - destruct e; injection H as <- <-; auto.
  - pose proof (stable_node_done n d1) as Hd.
    destruct (node_done n d1) as [[u|e] d2]; simpl in Hd.
    + eapply R_trans; [exact Hn|]. eapply R_trans; [exact Hd|]. eapply IH; eauto.
    + injection H as <- <-. eapply R_trans; eauto.
  - destruct e; injection H as <- <-; auto.
Qed.

Lemma stable_topological_sort d r d' :
  topological_sort d = Some (r, d') -> R d d'.
Proof.
  unfold topological_sort, __iter__. intros H.
  pose proof (stable_start_traverse d) as Hs.
  destruct (_start_traverse d) as [[u|e] d0]; simpl in Hs.
  - eapply R_trans; [exact Hs|]. eapply stable_consume; eauto.
  - now injection H as <- <-.
Qed.

End Stable.

(** ** Well-formedness of every constructed graph *)

Lemma nodup_snoc {A} (l : list A) x : NoDup l -> ~ In x l -> NoDup (l ++ [x]).
Proof.
  intros ND H. apply NoDup_rev in ND. rewrite <- (rev_involutive (l ++ [x])).
  apply NoDup_rev. rewrite rev_app_distr. simpl.
  constructor; auto. now rewrite <- in_rev.
Qed.

Lemma wf_nil : wf [].
Proof. split; [constructor|discriminate]. Qed.

Lemma wf_setdefault n g : wf g -> wf (Dict.setdefault n PySet.empty g).
Proof.
  intros [ND Hs]. unfold Dict.setdefault.
  destruct (Dict.get n g) eqn:E; [now split|].
  rewrite DictFacts.set_absent by auto. split.
  - unfold Dict.keys. rewrite map_app. simpl. apply nodup_snoc; auto.
    now apply DictFacts.get_none_iff.
  - intros u s. destruct (Dict.get u g) eqn:Eu.
    + rewrite (DictFacts.get_app_left _ _ _ _ Eu). intros [= <-]. eauto.
    + rewrite DictFacts.get_app_right by auto. simpl.
      destruct (String.eqb u n); [|discriminate]. intros [= <-]. constructor.
Qed.

Lemma wf_set_add u v s g :
  wf g -> Dict.get u g = Some s -> wf (Dict.set u (PySet.add v s) g).
Proof.
  intros [ND Hs] Hu. split.
  - rewrite DictFacts.keys_set_present; auto.
    eapply DictFacts.get_some_in_keys; eauto.
  - intros u' s'. destruct (String.eqb_spec u' u) as [->|N].
    + rewrite DictFacts.get_set_same. intros [= <-].
      apply PySetFacts.nodup_add. eauto.
    + rewrite DictFacts.get_set_other by auto. eauto.
Qed.

Lemma keeps_wf_refl d : keeps_wf d d.
Proof. now intros H. Qed.

Lemma keeps_wf_trans d1 d2 d3 : keeps_wf d1 d2 -> keeps_wf d2 d3 -> keeps_wf d1 d3.
Proof. unfold keeps_wf. auto. Qed.

Lemma add_node_keeps_wf n : stable keeps_wf (add_node n).
Proof. intros d H. simpl. now apply wf_setdefault. Qed.

Lemma add_edge_keeps_wf u v : stable keeps_wf (add_edge u v).
Proof.
  intros d H. destruct (Dict.get u (_graph d)) as [s|] eqn:E.
  - rewrite (add_edge_present _ _ _ _ E). simpl. now apply wf_set_add.
  - now rewrite (add_edge_absent _ _ _ E).
Qed.

Lemma from_dict_wf data d : wf (_graph (snd (from_dict data d))).
Proof.
  unfold from_dict, bind. unfold _reset at 1.
  apply (stable_for_each keeps_wf keeps_wf_refl keeps_wf_trans).
  - intros kv. apply (stable_bind keeps_wf keeps_wf_trans).
    + apply add_node_keeps_wf.
    + intros _. apply (stable_for_each keeps_wf keeps_wf_refl keeps_wf_trans).
      intros dep. apply add_edge_keeps_wf.
  - simpl. apply wf_nil.
Qed.

Lemma built_wf d : built d -> wf (_graph d).
Proof.
  induction 1 as [data r d H|n d r d' _ IH H|u v d r d' _ IH H|data d r d' _ IH H];
    apply (f_equal snd) in H; cbn [snd] in H; subst.
  - unfold __init__. destruct data as [[|kv rest]|];
      [apply wf_nil|apply from_dict_wf|apply wf_nil].
  - now apply add_node_keeps_wf.
  - now apply add_edge_keeps_wf.
  - apply from_dict_wf.
Qed.

(** Construction leaves the default wait timeout in place. *)
Lemma keeps_timeout_refl d : keeps_timeout d d.
Proof. reflexivity. Qed.

Lemma keeps_timeout_trans d1 d2 d3 :
  keeps_timeout d1 d2 -> keeps_timeout d2 d3 -> keeps_timeout d1 d3.
Proof. unfold keeps_timeout. congruence. Qed.

Lemma add_node_keeps_timeout n : stable keeps_timeout (add_node n).
Proof. intros d. reflexivity. Qed.

Lemma add_edge_keeps_timeout u v : stable keeps_timeout (add_edge u v).
Proof.
  intros d. destruct (Dict.get u (_graph d)) as [s|] eqn:E.
  - now rewrite (add_edge_present _ _ _ _ E).
  - now rewrite (add_edge_absent _ _ _ E).
Qed.

Lemma from_dict_timeout data d : _wait_timeout (snd (from_dict data d)) = 120.
Proof.
  unfold from_dict, bind. unfold _reset at 1.
  rewrite (stable_for_each keeps_timeout keeps_timeout_refl keeps_timeout_trans
             data load_row); [reflexivity|].
  intros kv. apply (stable_bind keeps_timeout keeps_timeout_trans).
  - apply add_node_keeps_timeout.
  - intros _. apply (stable_for_each keeps_timeout keeps_timeout_refl keeps_timeout_trans).
    intros dep. apply add_edge_keeps_timeout.
Qed.

Lemma built_timeout d : built d -> _wait_timeout d = 120.
Proof.
  induction 1 as [data r d H|n d r d' _ IH H|u v d r d' _ IH H|data d r d' _ IH H];
    apply (f_equal snd) in H; cbn [snd] in H; subst.
  - unfold __init__. destruct data as [[|kv rest]|];
      [reflexivity|apply from_dict_timeout|reflexivity].
  - now rewrite add_node_keeps_timeout.
  - now rewrite add_edge_keeps_timeout.
  - apply from_dict_timeout.
Qed.

(** ** Claims about construction *)

(** C5 (as the code has it): [add_edge(u, v)] succeeds exactly when [u] is
    already a node.  It then puts [v] into the successor set of [u] and
    changes nothing else: the node set stays as it was, so [v] is not
    created.  When [u] is not a node it raises [KeyError(u)] and leaves the
    object unchanged. *)
Theorem add_edge_needs_source_node : forall d u v,
  (In u (Dict.keys (_graph d)) ->
   exists d',
     add_edge u v d = (Ret tt, d') /\
     Dict.keys (_graph d') = Dict.keys (_graph d) /\
     (forall x y, edge (_graph d') x y <-> edge (_graph d) x y \/ (x = u /\ y = v)) /\
     _wait_timeout d' = _wait_timeout d /\ walk_attrs d' = walk_attrs d) /\
  (~ In u (Dict.keys (_graph d)) ->
   add_edge u v d = (Raise (KeyError u), d)).
Proof.
  intros d u v. split.
  - intros Hin. destruct (DictFacts.in_keys_get_some _ _ Hin) as [s Hs].
    eexists. split; [apply (add_edge_present _ _ _ _ Hs)|].
    simpl. split; [now apply DictFacts.keys_set_present|].
    split; [|auto].
    intros x y. unfold edge. destruct (String.eqb_spec x u) as [->|N].
    + rewrite DictFacts.get_set_same. split.
      * intros [s' [[= <-] Hy]]. apply PySetFacts.in_add in Hy as [->|Hy]; eauto.
      * intros [[s' [Hs' Hy]]|[_ ->]]; eexists; (split; [reflexivity|]);
          apply PySetFacts.in_add; [right; congruence|now left].
    + rewrite DictFacts.get_set_other by auto. split; [auto|].
      intros [H|[E _]]; [auto|contradiction].
  - intros Hn. apply add_edge_absent. now apply DictFacts.get_none_iff.
Qed.

Lemma add_edge_needs_source_node_witness :
  In "a" (Dict.keys (_graph (snd (__init__ (Some [("a", [])]))))) /\
  exists d',
    add_edge "a" "b" (snd (__init__ (Some [("a", [])]))) = (Ret tt, d') /\
    Dict.keys (_graph d') = ["a"].
Proof.
  split; [simpl; auto|].
  destruct (proj1 (add_edge_needs_source_node
                     (snd (__init__ (Some [("a", [])]))) "a" "b"))
    as [d' [H1 [H2 _]]]; [simpl; auto|].
  exists d'. split; [exact H1|exact H2].
Defined.

(** C5, as stated, fails on the empty graph: [add_edge('a', 'b')] raises
    [KeyError('a')]; and after [add_node('a')] it succeeds but [b] is still
    not a node. *)
Lemma add_edge_does_not_create_nodes :
  ~ (forall d u v, exists d',
       add_edge u v d = (Ret tt, d') /\
       In u (Dict.keys (_graph d')) /\ In v (Dict.keys (_graph d'))) /\
  add_edge "a" "b" (snd (__init__ None)) = (Raise (KeyError "a"), snd (__init__ None)) /\
  Dict.keys (_graph (snd (add_edge "a" "b" (snd (add_node "a" (snd (__init__ None))))))) = ["a"].
Proof.
  split; [|split; reflexivity].
  intros H. destruct (H (snd (__init__ None)) "a" "b") as [d' [E _]].
  discriminate E.
Qed.

Lemma add_edge_known u v d : edge (_graph d) u v -> add_edge u v d = (Ret tt, d).
Proof.
  intros [s [Hs Hv]]. rewrite (add_edge_present _ _ _ _ Hs).
  rewrite PySetFacts.add_present by auto.
  rewrite DictFacts.set_same_value by auto. now destruct d.
Qed.

(** C8: [add_node] of a node already present changes nothing (its successor
    set is kept), [add_edge] of an edge already present changes nothing (so
    every successor set keeps its cardinality), and a repeated call of
    either leaves the object as the first call left it. *)
Theorem add_node_add_edge_idempotent : forall d n u v,
  (In n (Dict.keys (_graph d)) -> add_node n d = (Ret tt, d)) /\
  (edge (_graph d) u v ->
   add_edge u v d = (Ret tt, d) /\
   forall x, Dict.get x (_graph (snd (add_edge u v d))) = Dict.get x (_graph d)) /\
  snd (add_node n (snd (add_node n d))) = snd (add_node n d) /\
  snd (add_edge u v (snd (add_edge u v d))) = snd (add_edge u v d).
Proof.
  intros d n u v. split; [apply add_node_present|].
  split; [|split].
  - intros He. split; [now apply add_edge_known|].
    now rewrite (add_edge_known _ _ _ He).
  - destruct (Dict.get n (_graph d)) as [s|] eqn:E.
    + apply DictFacts.get_some_in_keys in E.
      rewrite (add_node_present _ _ E). cbn [snd].
      now rewrite (add_node_present _ _ E).
    + rewrite (add_node_absent _ _ E). cbn [snd].
      rewrite add_node_present; [reflexivity|].
      simpl. unfold Dict.keys. rewrite map_app, in_app_iff. simpl. auto.
  - destruct (Dict.get u (_graph d)) as [s|] eqn:E.
    + rewrite (add_edge_present _ _ _ _ E). cbn [snd].
      rewrite add_edge_known; [reflexivity|].
      exists (PySet.add v s). simpl. split; [apply DictFacts.get_set_same|].
      apply PySetFacts.in_add. now left.
    + rewrite (add_edge_absent _ _ _ E). cbn [snd].
      now rewrite (add_edge_absent _ _ _ E).
Qed.

Lemma add_node_add_edge_idempotent_witness :
  let d := snd (add_edge "a" "b" (snd (add_node "a" (snd (__init__ None))))) in
  add_node "a" d = (Ret tt, d) /\ add_edge "a" "b" d = (Ret tt, d) /\
  Dict.get "a" (_graph d) = Some ["b"].
Proof.
  intros d.
  destruct (add_node_add_edge_idempotent d "a" "a" "b") as [H1 [H2 _]].
  split; [apply H1; simpl; auto|].
  split; [|reflexivity].
  apply H2. exists ["b"]. split; [reflexivity|simpl; auto].
Defined.

(** C7 (as the code has it): [from_dict] resets the graph and the wait
    timeout and then runs [add_node(k)] followed by [add_edge(k, dep)] for
    every declared pair.  Afterwards the nodes are exactly the keys of the
    mapping, in its order, and the edges are exactly the declared pairs; a
    declared successor is a node only when it is itself a key of the
    mapping. *)
Theorem from_dict_loads_the_keys : forall data d,
  NoDup (Dict.keys data) ->
  exists d',
    from_dict data d = (Ret tt, d') /\
    from_dict data d = for_each data load_row (snd (_reset d)) /\
    Dict.keys (_graph d') = Dict.keys data /\
    (forall u v, edge (_graph d') u v <->
                 exists vs, Dict.get u data = Some vs /\ In v vs) /\
    wf (_graph d') /\
    _wait_timeout d' = 120 /\ walk_attrs d' = walk_attrs d.
Proof.
  intros data d ND. eexists. split; [apply (from_dict_result _ _ ND)|].
  split; [reflexivity|]. simpl.
  split; [apply keys_map_rows|]. split; [|split; [|auto]].
  - intros u v. unfold edge. rewrite get_map_rows.
    destruct (Dict.get u data) as [vs|]; simpl.
    + split.
      * intros [s [[= <-] H]]. exists vs. split; auto. now apply in_of_list.
      * intros [vs' [[= <-] H]]. eexists. split; [reflexivity|]. now apply in_of_list.
    + split; intros [x [H _]]; discriminate.
  - split; [now rewrite keys_map_rows|].
    intros u s. rewrite get_map_rows.
    destruct (Dict.get u data); simpl; [|discriminate].
    intros [= <-]. apply nodup_of_list.
Qed.

Lemma from_dict_loads_the_keys_witness :
  NoDup (Dict.keys scenario) /\
  exists d',
    from_dict scenario (snd (__init__ None)) = (Ret tt, d') /\
    Dict.keys (_graph d') = ["a"; "b"; "c"; "d"; "e"; "f"].
Proof.
  assert (ND : NoDup (Dict.keys scenario)).
  { simpl. repeat (constructor; [simpl; intuition discriminate|]). constructor. }
  split; [exact ND|].
  destruct (from_dict_loads_the_keys scenario (snd (__init__ None)) ND)
    as [d' [H1 [_ [H2 _]]]].
  exists d'. split; [exact H1|exact H2].
Defined.

(** C7, as stated, fails on the mapping [{'a': ['b']}]: [b] is referenced
    as a successor but is not a node afterwards, and the in-degree
    computation of the next walk raises [KeyError('b')]. *)
Lemma from_dict_does_not_add_successors :
  let d' := snd (from_dict [("a", ["b"])] (snd (__init__ None))) in
  fst (from_dict [("a", ["b"])] (snd (__init__ None))) = Ret tt /\
  edge (_graph d') "a" "b" /\
  ~ In "b" (Dict.keys (_graph d')) /\
  ~ closed (_graph d') /\
  fst (_get_in_degree d') = Raise (KeyError "b").
Proof.
  simpl. split; [reflexivity|].
  assert (He : edge [("a", ["b"])] "a" "b").
  { exists ["b"]. split; [reflexivity|simpl; auto]. }
  split; [exact He|]. split; [simpl; intuition discriminate|].
  split; [|reflexivity].
  intros Hc. specialize (Hc _ _ He). simpl in Hc. intuition discriminate.
Qed.

(** ** The walk methods on a started walk *)

Lemma queue_put_result v d w :
  walk_attrs d = Some w ->
  queue_put v d =
  (Ret tt, set_walk (mkWalk (_run_in_degree w) (_queue w ++ [v]) (_done w) (_it_cnt w)) d).
Proof.
  intros H. unfold queue_put, bind, get_walk. now rewrite H.
Qed.

Lemma seed_all deg : forall d w,
  walk_attrs d = Some w ->
  for_each deg seed d =
  (Ret tt, set_walk (mkWalk (_run_in_degree w) (_queue w ++ seeds deg)
                            (_done w) (_it_cnt w)) d).
Proof.
  induction deg as [|[k n] deg IH]; intros d w H; simpl.
  - unfold ret, seeds. simpl. rewrite app_nil_r. destruct d, w. simpl in *. now subst.
  - unfold bind, seed. simpl. unfold seeds. simpl. destruct (n =? 0).
    + rewrite (queue_put_result _ _ _ H).
      erewrite IH by reflexivity. simpl. rewrite <- app_assoc. reflexivity.
    + unfold ret. apply IH, H.
Qed.

Lemma start_traverse_result d :
  _start_traverse d =
  match in_degrees (_graph d) with
  | Ret t =>
      (Ret tt, set_walk (mkWalk t (seeds t) PySet.empty (Dict.len (_graph d))) d)
  | Raise e => (Raise e, d)
  end.
Proof.
  unfold _start_traverse, _get_in_degree, bind, get_graph.
  destruct (in_degrees (_graph d)) as [t|e]; [|reflexivity].
  unfold ret, put_walk. erewrite seed_all by reflexivity. reflexivity.
Qed.

Lemma timeout_max_below_float_limit : TIMEOUT_MAX < FLOAT_LIMIT.
Proof. reflexivity. Qed.

Lemma default_timeout_waitable : 0 <= 120 <= TIMEOUT_MAX.
Proof. unfold TIMEOUT_MAX. lia. Qed.

Lemma waitable_is_accepted t : 0 <= t <= TIMEOUT_MAX -> 0 <= t < FLOAT_LIMIT.
Proof. pose proof timeout_max_below_float_limit. lia. Qed.

Lemma next_result d w :
  walk_attrs d = Some w ->
  __next__ d =
  if 0 <? _it_cnt w then
    let w1 := mkWalk (_run_in_degree w) (_queue w) (_done w) (_it_cnt w - 1) in
    if _wait_timeout d <? 0 then
      (Raise (ValueError negative_timeout_message), set_walk w1 d)
    else if FLOAT_LIMIT <=? _wait_timeout d then
      (Raise OverflowError, set_walk w1 d)
    else
      match _queue w with
      | n :: rest =>
          (Ret n, set_walk (mkWalk (_run_in_degree w) rest (_done w) (_it_cnt w - 1)) d)
      | [] =>
          if TIMEOUT_MAX <? _wait_timeout d then (Raise OverflowError, set_walk w1 d)
          else (Raise (SDKException timeout_message), set_walk w1 d)
      end
  else (Raise StopIteration, d).
Proof.
  intros H. unfold __next__, bind, get_walk. rewrite H.
  destruct (0 <? _it_cnt w); [|reflexivity].
  unfold put_walk, try_except, queue_get, bind, get_walk.
  cbn -[FLOAT_LIMIT TIMEOUT_MAX Z.ltb Z.leb].
  destruct (_wait_timeout d <? 0); [reflexivity|].
  destruct (FLOAT_LIMIT <=? _wait_timeout d); [reflexivity|].
  destruct (_queue w) eqn:E; [|reflexivity].
  destruct (TIMEOUT_MAX <? _wait_timeout d); reflexivity.
Qed.

(** A pull on a started walk that finds an item, for a timeout that
    [queue.get] accepts. *)
Lemma next_result_item d w n rest :
  walk_attrs d = Some w -> 0 <= _wait_timeout d < FLOAT_LIMIT ->
  0 < _it_cnt w -> _queue w = n :: rest ->
  __next__ d =
  (Ret n, set_walk (mkWalk (_run_in_degree w) rest (_done w) (_it_cnt w - 1)) d).
Proof.
  intros H Ht Hc Hq. rewrite (next_result _ _ H). cbv zeta.
  destruct (Z.ltb_spec 0 (_it_cnt w)); [|lia].
  destruct (Z.ltb_spec (_wait_timeout d) 0); [lia|].
  destruct (Z.leb_spec FLOAT_LIMIT (_wait_timeout d)); [lia|].
  now rewrite Hq.
Qed.

(** A pull on a started walk that finds the queue empty. *)
Lemma next_result_empty d w :
  walk_attrs d = Some w -> 0 <= _wait_timeout d < FLOAT_LIMIT ->
  0 < _it_cnt w -> _queue w = [] ->
  __next__ d =
  (Raise (if TIMEOUT_MAX <? _wait_timeout d then OverflowError
          else SDKException timeout_message),
   set_walk (mkWalk (_run_in_degree w) [] (_done w) (_it_cnt w - 1)) d).
Proof.
  intros H Ht Hc Hq. rewrite (next_result _ _ H). cbv zeta.
  destruct (Z.ltb_spec 0 (_it_cnt w)); [|lia].
  destruct (Z.ltb_spec (_wait_timeout d) 0); [lia|].
  destruct (Z.leb_spec FLOAT_LIMIT (_wait_timeout d)); [lia|].
  rewrite Hq. destruct (TIMEOUT_MAX <? _wait_timeout d); reflexivity.
Qed.

(** A pull of a walk that has yielded its count. *)
Lemma next_result_stop d w :
  walk_attrs d = Some w -> _it_cnt w <= 0 -> __next__ d = (Raise StopIteration, d).
Proof.
  intros H Hc. rewrite (next_result _ _ H).
  destruct (Z.ltb_spec 0 (_it_cnt w)); [lia|reflexivity].
Qed.


Lemma next_before_walk d :
  walk_attrs d = None -> __next__ d = (Raise (AttributeError "_it_cnt"), d).
Proof.
  intros H. unfold __next__, bind, get_walk. now rewrite H.
Qed.

(** The outcomes of a pull on a started walk. *)
Lemma next_cases d w r d' :
  walk_attrs d = Some w -> __next__ d = (r, d') ->
  (r = Raise StopIteration /\ d' = d /\ _it_cnt w <= 0) \/
  (0 < _it_cnt w /\
   ((exists n rest,
       r = Ret n /\ _queue w = n :: rest /\ 0 <= _wait_timeout d < FLOAT_LIMIT /\
       d' = set_walk (mkWalk (_run_in_degree w) rest (_done w) (_it_cnt w - 1)) d) \/
    (exists e,
       r = Raise e /\ e <> StopIteration /\
       d' = set_walk (mkWalk (_run_in_degree w) (_queue w) (_done w) (_it_cnt w - 1)) d /\
       (e = SDKException timeout_message /\ _queue w = [] /\
        0 <= _wait_timeout d <= TIMEOUT_MAX \/
        e = ValueError negative_timeout_message /\ _wait_timeout d < 0 \/
        e = OverflowError /\
        (FLOAT_LIMIT <= _wait_timeout d \/
         _queue w = [] /\ TIMEOUT_MAX < _wait_timeout d))))).
Proof.
  intros Hw H. rewrite (next_result _ _ Hw) in H. cbv zeta in H.
  destruct (Z.ltb_spec 0 (_it_cnt w)) as [Hc|Hc].
  2:{ left. injection H as <- <-. auto. }
  right. split; [exact Hc|].
  destruct (Z.ltb_spec (_wait_timeout d) 0) as [Ht|Ht].
  { right. injection H as <- <-. eexists. repeat split; eauto. discriminate. }
  destruct (Z.leb_spec FLOAT_LIMIT (_wait_timeout d)) as [Hf|Hf].
  { right. injection H as <- <-. eexists.
    split; [reflexivity|]. split; [discriminate|]. split; [reflexivity|].
    right. right. auto. }
  destruct (_queue w) as [|n rest] eqn:Eq.
  - destruct (Z.ltb_spec TIMEOUT_MAX (_wait_timeout d)) as [Hm|Hm];
      injection H as <- <-; right; eexists;
      (split; [reflexivity|]); (split; [discriminate|]); (split; [reflexivity|]).
    + right. right. auto.
    + left. auto.
  - injection H as <- <-. left. exists n, rest. auto.
Qed.

Lemma release_result v d w :
  walk_attrs d = Some w ->
  release v d =
  match Dict.get v (_run_in_degree w) with
  | Some n =>
      (Ret tt,
       set_walk (mkWalk (Dict.set v (n - 1) (_run_in_degree w))
                        (if n - 1 =? 0 then _queue w ++ [v] else _queue w)
                        (_done w) (_it_cnt w)) d)
  | None => (Raise (KeyError v), d)
  end.
Proof.
  intros H.
  cbv beta iota zeta delta [release bind in_degree_decr in_degree_getitem get_walk].
  rewrite H. destruct (Dict.get v (_run_in_degree w)) as [n|]; [|reflexivity].
  unfold put_walk. simpl. rewrite DictFacts.get_set_same. unfold ret.
  destruct (n - 1 =? 0); [|reflexivity].
  erewrite queue_put_result by reflexivity. reflexivity.
Qed.

Lemma node_done_result n d w :
  walk_attrs d = Some w ->
  node_done n d =
  let d1 := set_walk (mkWalk (_run_in_degree w) (_queue w)
                             (PySet.add n (_done w)) (_it_cnt w)) d in
  match Dict.get n (_graph d) with
  | Some succs => for_each succs release d1
  | None => (Raise (KeyError n), d1)
  end.
Proof.
  intros H. unfold node_done, bind, get_walk. rewrite H.
  unfold put_walk, graph_getitem, bind, get_graph. simpl.
  destruct (Dict.get n (_graph d)); reflexivity.
Qed.

Lemma node_done_before_walk n d :
  walk_attrs d = None -> node_done n d = (Raise (AttributeError "_done"), d).
Proof.
  intros H. unfold node_done, bind, get_walk. now rewrite H.
Qed.

Lemma keeps_counter_refl d : keeps_counter d d.
Proof. intros w H. eauto. Qed.

Lemma keeps_counter_trans d1 d2 d3 :
  keeps_counter d1 d2 -> keeps_counter d2 d3 -> keeps_counter d1 d3.
Proof.
  intros H1 H2 w Hw. destruct (H1 w Hw) as [w2 [Hw2 [E2 K2]]].
  destruct (H2 w2 Hw2) as [w3 [Hw3 [E3 K3]]]. exists w3. repeat split; congruence.
Qed.

Lemma release_keeps_counter v : stable keeps_counter (release v).
Proof.
  intros d w H. rewrite (release_result _ _ _ H).
  destruct (Dict.get v (_run_in_degree w)) as [n|] eqn:E; simpl; [|eauto].
  eexists. split; [reflexivity|]. simpl. split; [reflexivity|].
  apply DictFacts.keys_set_present. eapply DictFacts.get_some_in_keys; eauto.
Qed.

Lemma node_done_keeps_counter n : stable keeps_counter (node_done n).
Proof.
  intros d w H. rewrite (node_done_result _ _ _ H). cbv zeta.
  destruct (Dict.get n (_graph d)) as [succs|]; simpl.
  - pose proof (stable_for_each keeps_counter keeps_counter_refl keeps_counter_trans
                  succs release release_keeps_counter) as Hl.
    destruct (Hl (set_walk (mkWalk (_run_in_degree w) (_queue w)
                                   (PySet.add n (_done w)) (_it_cnt w)) d) _ eq_refl)
      as [w' [Hw' [E K]]].
    exists w'. auto.
  - eexists. split; [reflexivity|]. auto.
Qed.

(** [topological_sort] always returns or raises: the rounds it is given
    are enough. *)
Lemma consume_total fuel : forall acc d,
  (forall w, walk_attrs d = Some w -> _it_cnt w <= Z.of_nat fuel) ->
  exists r d', consume fuel acc d = Some (r, d').
Proof.
  induction fuel as [|fuel IH]; intros acc d Hc; simpl.
  - destruct (walk_attrs d) as [w|] eqn:Hw.
    + rewrite (next_result _ _ Hw). specialize (Hc w eq_refl).
      destruct (Z.ltb_spec 0 (_it_cnt w)); [simpl in Hc; lia|eauto].
    + rewrite (next_before_walk _ Hw). eauto.
  - destruct (walk_attrs d) as [w|] eqn:Hw.
    + rewrite (next_result _ _ Hw). specialize (Hc w eq_refl). cbv zeta.
      destruct (Z.ltb_spec 0 (_it_cnt w)); [|eauto].
      destruct (_wait_timeout d <? 0); [eauto|].
      destruct (FLOAT_LIMIT <=? _wait_timeout d); [eauto|].
      destruct (_queue w) as [|n rest];
        [destruct (TIMEOUT_MAX <? _wait_timeout d); eauto|].
      match goal with |- context [node_done n ?d1] =>
        pose proof (node_done_keeps_counter n d1 _ eq_refl) as [w' [Hw' [E _]]];
        destruct (node_done n d1) as [[u|e] d2] end; [|eauto].
      apply IH. intros w2 Hw2. simpl in Hw', E. rewrite Hw' in Hw2.
      injection Hw2 as <-. lia.
    + rewrite (next_before_walk _ Hw). eauto.
Qed.

Lemma topological_sort_total d : exists r d', topological_sort d = Some (r, d').
Proof.
  unfold topological_sort, __iter__. rewrite start_traverse_result.
  destruct (in_degrees (_graph d)) as [t|e]; [|eauto].
  apply consume_total. simpl. intros w [= <-]. simpl. unfold Dict.len. lia.
Qed.

(** ** The walk phase does not touch the adjacency dict *)

Lemma keeps_graph_refl d : keeps_graph d d.
Proof. now repeat split. Qed.

Lemma keeps_graph_trans d1 d2 d3 :
  keeps_graph d1 d2 -> keeps_graph d2 d3 -> keeps_graph d1 d3.
Proof. unfold keeps_graph. intuition congruence. Qed.

Lemma put_walk_keeps_graph w : stable keeps_graph (put_walk w).
Proof. intros d. now repeat split. Qed.

Lemma lifetime_keeps_graph d0 ys xs k d :
  lifetime d0 ys xs k d -> keeps_graph d0 d.
Proof.
  induction 1 as [|ys xs k d n d' _ IH H|ys xs k d e d' _ IH H _
                  |ys xs k d d' _ IH H|ys xs k d n r d' _ IH H];
    [apply keeps_graph_refl|..]; apply (f_equal snd) in H; cbn [snd] in H; subst;
    (eapply keeps_graph_trans; [exact IH|]).
  - apply (stable_next _ keeps_graph_refl keeps_graph_trans put_walk_keeps_graph).
  - apply (stable_next _ keeps_graph_refl keeps_graph_trans put_walk_keeps_graph).
  - apply (stable_next _ keeps_graph_refl keeps_graph_trans put_walk_keeps_graph).
  - apply (stable_node_done _ keeps_graph_refl keeps_graph_trans put_walk_keeps_graph).
Qed.



(** ** The in-degree table of [_get_in_degree] *)

Lemma fold_res_raise {T A} (f : res T -> A -> res T) :
  (forall a e, f (Raise e) a = Raise e) ->
  forall l e, fold_left f l (Raise e) = Raise e.
Proof.
  intros Hf. induction l as [|a l IH]; intros e; simpl; auto.
  now rewrite Hf.
Qed.

Lemma fold_res_inv {T A} (f : res T -> A -> res T) (P : T -> Prop) :
  (forall a e, f (Raise e) a = Raise e) ->
  (forall a t t', P t -> f (Ret t) a = Ret t' -> P t') ->
  forall l t t', P t -> fold_left f l (Ret t) = Ret t' -> P t'.
Proof.
  intros Hr Hs. induction l as [|a l IH]; intros t t' Ht H; simpl in H.
  - now injection H as <-.
  - destruct (f (Ret t) a) as [t1|e] eqn:E.
    + eapply IH; [|exact H]. eapply Hs; eauto.
    + rewrite fold_res_raise in H by auto. discriminate.
Qed.

Lemma count_incoming_keys v t t' :
  count_incoming v (Ret t) = Ret t' -> Dict.keys t' = Dict.keys t.
Proof.
  simpl. destruct (Dict.get v t) as [n|] eqn:E; [|discriminate].
  intros [= <-]. apply DictFacts.keys_set_present.
  eapply DictFacts.get_some_in_keys; eauto.
Qed.

Lemma count_row_keys g u t t' :
  count_row g u (Ret t) = Ret t' -> Dict.keys t' = Dict.keys t.
Proof.
  simpl. destruct (Dict.get u g) as [s|]; [|discriminate].
  apply (fold_res_inv (fun acc v => count_incoming v acc)
           (fun x => Dict.keys x = Dict.keys t)); auto.
  intros a t1 t2 H1 H2. rewrite <- H1. now apply (count_incoming_keys a).
Qed.

Lemma in_degrees_keys g t : in_degrees g = Ret t -> Dict.keys t = Dict.keys g.
Proof.
  unfold in_degrees.
  apply (fold_res_inv (fun acc u => count_row g u acc)
           (fun x => Dict.keys x = Dict.keys g)); auto.
  - intros a t1 t2 H1 H2. rewrite <- H1. now apply (count_row_keys g a).
  - unfold Dict.keys. rewrite map_map. simpl. apply map_id.
Qed.

Lemma iter_result d d0 :
  __iter__ d = (Ret tt, d0) ->
  exists t, in_degrees (_graph d) = Ret t /\
            d0 = set_walk (mkWalk t (seeds t) PySet.empty (Dict.len (_graph d))) d.
Proof.
  unfold __iter__. rewrite start_traverse_result.
  destruct (in_degrees (_graph d)) as [t|e]; [|discriminate].
  intros [= <-]. eauto.
Qed.

(** ** Counting the pulls of a walk *)

Lemma lifetime_counted d d0 ys xs k d' :
  __iter__ d = (Ret tt, d0) -> lifetime d0 ys xs k d' ->
  counted (_graph d) ys k d'.
Proof.
  intros Hi Hl. destruct (iter_result _ _ Hi) as [t [Ht ->]].
  induction Hl as [|ys xs k d1 n d2 _ IH H|ys xs k d1 e d2 _ IH H Hne
                   |ys xs k d1 d2 _ IH H|ys xs k d1 n r d2 _ IH H].
  - split; [reflexivity|]. eexists. split; [reflexivity|]. simpl.
    unfold Dict.len. lia.
  - destruct IH as [Hg [w [Hw [H0 Hc]]]].
    destruct (next_cases _ _ _ _ Hw H)
      as [[E _]|[Hpos [[m [rest [E [Eq [_ ->]]]]]|[e [E _]]]]]; try discriminate.
    split; [exact Hg|]. eexists. split; [reflexivity|]. simpl.
    rewrite length_app. simpl. lia.
  - destruct IH as [Hg [w [Hw [H0 Hc]]]].
    destruct (next_cases _ _ _ _ Hw H)
      as [[E _]|[Hpos [[m [rest [E _]]]|[e' [E [_ [-> _]]]]]]]; try discriminate.
    + injection E as ->. contradiction.
    + split; [exact Hg|]. eexists. split; [reflexivity|]. simpl. lia.
  - destruct IH as [Hg [w [Hw [H0 Hc]]]].
    destruct (next_cases _ _ _ _ Hw H)
      as [[_ [-> _]]|[Hpos [[m [rest [E _]]]|[e' [E [Hne _]]]]]]; try discriminate.
    + split; [exact Hg|]. eauto.
    + injection E as <-. contradiction.
  - destruct IH as [Hg [w [Hw [H0 Hc]]]].
    apply (f_equal snd) in H. cbn [snd] in H. subst d2.
    destruct (node_done_keeps_counter n d1 w Hw) as [w' [Hw' [E _]]].
    split.
    + rewrite <- Hg.
      apply (stable_node_done _ keeps_graph_refl keeps_graph_trans put_walk_keeps_graph).
    + exists w'. split; [exact Hw'|]. rewrite E. auto.
Qed.

(** ** No node is enqueued twice *)

Lemma seeds_in t v : In v (seeds t) <-> In (v, 0) t.
Proof.
  unfold seeds. rewrite in_map_iff. split.
  - intros [[k n] [E H]]. simpl in E. subst k.
    apply filter_In in H as [H Hz]. simpl in Hz. apply Z.eqb_eq in Hz. now subst.
  - intros H. exists (v, 0). split; auto. apply filter_In. split; auto.
Qed.

Lemma seeds_nodup (t : Dict.t Z) : NoDup (Dict.keys t) -> NoDup (seeds t).
Proof.
  unfold seeds, Dict.keys. induction t as [|[k n] t IH]; simpl; intros ND.
  - constructor.
  - inversion ND as [|? ? Hk ND']; subst. destruct (n =? 0); simpl; auto.
    constructor; auto. intros Hin. apply Hk.
    apply in_map_iff in Hin as [[k' n'] [E H]]. simpl in E. subst k'.
    apply filter_In in H as [H _].
    change (In (fst (k, n')) (map fst t)). now apply in_map.
Qed.

Lemma release_once g ys v d w :
  walk_attrs d = Some w -> at_most_once g ys w ->
  exists w', walk_attrs (snd (release v d)) = Some w' /\ at_most_once g ys w'.
Proof.
  intros Hw [Hk [ND Hz]]. rewrite (release_result _ _ _ Hw).
  destruct (Dict.get v (_run_in_degree w)) as [n|] eqn:E; simpl.
  2:{ exists w. repeat split; auto. }
  eexists. split; [reflexivity|].
  assert (Hin : In v (Dict.keys (_run_in_degree w)))
    by (eapply DictFacts.get_some_in_keys; eauto).
  split; [|split]; simpl.
  - now rewrite DictFacts.keys_set_present.
  - destruct (Z.eqb_spec (n - 1) 0) as [Hn|Hn]; auto.
    rewrite app_assoc. apply nodup_snoc; auto.
    intros Hv. destruct (Hz v Hv) as [m [Hm Hle]]. rewrite E in Hm.
    injection Hm as <-. lia.
  - intros x Hx. destruct (String.eqb_spec x v) as [->|N].
    + rewrite DictFacts.get_set_same. eexists. split; [reflexivity|].
      destruct (Z.eqb_spec (n - 1) 0) as [Hn|Hn]; [lia|].
      destruct (Hz v Hx) as [m [Hm Hle]]. rewrite E in Hm. injection Hm as <-. lia.
    + rewrite DictFacts.get_set_other by auto. apply Hz.
      destruct (n - 1 =? 0); auto.
      rewrite app_assoc, in_app_iff in Hx. destruct Hx as [Hx|[Hx|[]]]; auto.
      congruence.
Qed.

Lemma release_loop_once g ys vs : forall d w,
  walk_attrs d = Some w -> at_most_once g ys w ->
  exists w', walk_attrs (snd (for_each vs release d)) = Some w' /\
             at_most_once g ys w'.
Proof.
  induction vs as [|v vs IH]; intros d w Hw Hi; simpl.
  - eauto.
  - unfold bind. destruct (release_once g ys v d w Hw Hi) as [w1 [Hw1 Hi1]].
    destruct (release v d) as [[u|e] d1]; simpl in Hw1; eauto.
Qed.

Lemma node_done_once g ys n d w :
  walk_attrs d = Some w -> at_most_once g ys w ->
  exists w', walk_attrs (snd (node_done n d)) = Some w' /\ at_most_once g ys w'.
Proof.
  intros Hw Hi. rewrite (node_done_result _ _ _ Hw). cbv zeta.
  destruct (Dict.get n (_graph d)) as [succs|].
  - eapply release_loop_once; [reflexivity|]. exact Hi.
  - simpl. eexists. split; [reflexivity|]. exact Hi.
Qed.

Lemma lifetime_once d d0 ys xs k d' :
  wf (_graph d) -> __iter__ d = (Ret tt, d0) -> lifetime d0 ys xs k d' ->
  exists w, walk_attrs d' = Some w /\ at_most_once (_graph d) ys w.
Proof.
  intros [NDk _] Hi Hl. destruct (iter_result _ _ Hi) as [t [Ht ->]].
  pose proof (in_degrees_keys _ _ Ht) as Hk.
  induction Hl as [|ys xs k d1 n d2 _ IH H|ys xs k d1 e d2 _ IH H Hne
                   |ys xs k d1 d2 _ IH H|ys xs k d1 n r d2 _ IH H].
  - eexists. split; [reflexivity|]. split; [exact Hk|]. simpl.
    rewrite <- Hk in NDk. split; [now apply seeds_nodup|].
    intros v Hv. exists 0. split; [|lia].
    apply DictFacts.in_get; auto. now apply seeds_in.
  - destruct IH as [w [Hw [Hkw [ND Hz]]]].
    destruct (next_cases _ _ _ _ Hw H)
      as [[E _]|[Hpos [[m [rest [E [Eq [_ ->]]]]]|[e [E _]]]]]; try discriminate.
    injection E as <-. rewrite Eq in ND, Hz.
    eexists. split; [reflexivity|]. unfold at_most_once. simpl.
    rewrite <- app_assoc. simpl. now repeat split.
  - destruct IH as [w [Hw Hi']].
    destruct (next_cases _ _ _ _ Hw H)
      as [[E _]|[Hpos [[m [rest [E _]]]|[e' [E [_ [-> _]]]]]]]; try discriminate.
    + injection E as ->. contradiction.
    + eexists. split; [reflexivity|]. exact Hi'.
  - destruct IH as [w [Hw Hi']].
    destruct (next_cases _ _ _ _ Hw H)
      as [[_ [-> _]]|[Hpos [[m [rest [E _]]]|[e' [E [Hne _]]]]]]; try discriminate.
    + eauto.
    + injection E as <-. contradiction.
  - destruct IH as [w [Hw Hi']].
    apply (f_equal snd) in H. cbn [snd] in H. subst d2.
    now apply (node_done_once _ _ n d1 w).
Qed.

(** X20: in a walk whose pulls and completion reports run one at a time
    (no call starts before the previous one has returned or raised),
    whatever the caller pulls and reports, also the same node several
    times, the yielded items are nodes of the graph, no node is yielded
    twice, and at most N items are yielded on a graph of N nodes; once N
    items have been yielded the next pull raises [StopIteration] and
    changes nothing.  On the empty graph the first pull already does.
    Reports that overlap are outside this statement. *)
Theorem walk_yields_each_node_once : forall d,
  wf (_graph d) ->
  (forall d0 ys xs k d',
     __iter__ d = (Ret tt, d0) -> lifetime d0 ys xs k d' ->
     NoDup ys /\
     incl ys (Dict.keys (_graph d)) /\
     (length ys <= length (_graph d))%nat /\
     (length ys = length (_graph d) -> __next__ d' = (Raise StopIteration, d'))) /\
  (_graph d = [] ->
   exists d0, __iter__ d = (Ret tt, d0) /\ __next__ d0 = (Raise StopIteration, d0)).
Proof.
  intros d Hwf. split.
  - intros d0 ys xs k d' Hi Hl.
    destruct (lifetime_once _ _ _ _ _ _ Hwf Hi Hl) as [w [Hw [Hk [ND Hz]]]].
    destruct (lifetime_counted _ _ _ _ _ _ Hi Hl) as [Hg [w' [Hw' [H0 Hc]]]].
    rewrite Hw in Hw'. injection Hw' as <-.
    split; [now apply NoDup_app_remove_r in ND|].
    split; [|split].
    + intros v Hv. rewrite <- Hk.
      destruct (Hz v) as [n [Hn _]]; [apply in_app_iff; now left|].
      eapply DictFacts.get_some_in_keys; eauto.
    + lia.
    + intros E. rewrite (next_result _ _ Hw).
      destruct (Z.ltb_spec 0 (_it_cnt w)); [lia|reflexivity].
  - intros E. unfold __iter__. rewrite start_traverse_result, E. simpl.
    eexists. split; [reflexivity|]. reflexivity.
Qed.

Lemma walk_yields_each_node_once_witness :
  let d := snd (__init__ (Some fan_in)) in
  wf (_graph d) /\
  NoDup ["p1"; "p2"] /\ incl ["p1"; "p2"] (Dict.keys (_graph d)).
Proof.
  intros d.
  assert (Hwf : wf (_graph d))
    by (apply built_wf; apply (built_init (Some fan_in) (Ret tt)); reflexivity).
  split; [exact Hwf|].
  destruct (walk_yields_each_node_once d Hwf) as [H _].
  destruct (H (snd (__iter__ d)) ["p1"; "p2"] [] 0%nat
              (snd (__next__ (snd (__next__ (snd (__iter__ d)))))))
    as [H1 [H2 _]]; [reflexivity| |split; assumption].
  apply (life_yield _ ["p1"] [] 0%nat (snd (__next__ (snd (__iter__ d))))); [|reflexivity].
  apply (life_yield _ [] [] 0%nat (snd (__iter__ d))); [|reflexivity].
  apply life_start.
Defined.




(** ** Counting unreported prerequisites *)

Lemma mem_app v l1 l2 : PySet.mem v (l1 ++ l2) = PySet.mem v l1 || PySet.mem v l2.
Proof. apply existsb_app. Qed.

Lemma filter_none {A} (f : A -> bool) l :
  (forall e, In e l -> f e = false) -> filter f l = [].
Proof.
  induction l as [|a l IH]; simpl; auto.
  intros H. rewrite (H a) by auto. apply IH. auto.
Qed.

Lemma indeg_nonneg g xs v : 0 <= indeg g xs v.
Proof. unfold indeg. lia. Qed.

Lemma indeg_zero_preds g xs v u :
  indeg g xs v = 0 -> edge g u v -> In u xs.
Proof.
  unfold indeg. intros H [s [Hs Hv]].
  destruct (filter (pending xs v) g) as [|e l] eqn:E; [|simpl in H; lia].
  apply DictFacts.get_in in Hs.
  destruct (PySet.mem u xs) eqn:Em; [now apply PySetFacts.mem_true_iff|].
  assert (Hin : In (u, s) (filter (pending xs v) g)).
  { apply filter_In. split; auto. unfold pending. simpl. rewrite Em.
    apply PySetFacts.mem_true_iff in Hv. now rewrite Hv. }
  rewrite E in Hin. destruct Hin.
Qed.

Lemma preds_reported_indeg_zero g xs v :
  NoDup (Dict.keys g) ->
  (forall u, edge g u v -> In u xs) -> indeg g xs v = 0.
Proof.
  intros ND H. unfold indeg. rewrite filter_none; [reflexivity|].
  intros [u s] Hin. unfold pending. simpl.
  destruct (PySet.mem v s) eqn:Ev; [|reflexivity]. simpl.
  assert (He : edge g u v).
  { exists s. split; [now apply DictFacts.in_get|now apply PySetFacts.mem_true_iff]. }
  apply H, PySetFacts.mem_true_iff in He. now rewrite He.
Qed.

Lemma filter_pending_absent g xs x v :
  ~ In x (Dict.keys g) ->
  filter (pending (xs ++ [x]) v) g = filter (pending xs v) g.
Proof.
  intros Hx. apply filter_ext_in. intros [u s] Hin. unfold pending. simpl.
  rewrite mem_app. simpl. rewrite orb_false_r.
  destruct (String.eqb_spec u x) as [->|N]; [|now rewrite orb_false_r].
  exfalso. apply Hx. change (In (fst (x, s)) (map fst g)). now apply in_map.
Qed.

Lemma mem_single u x : PySet.mem u [x] = String.eqb u x.
Proof. unfold PySet.mem. simpl. apply orb_false_r. Qed.

Lemma pending_count_snoc g xs x v :
  NoDup (Dict.keys g) -> In x (Dict.keys g) -> ~ In x xs ->
  length (filter (pending xs v) g) =
  (length (filter (pending (xs ++ [x]) v) g) + if edgeb g x v then 1 else 0)%nat.
Proof.
  intros ND Hin Hx. apply PySetFacts.mem_false_iff in Hx.
  induction g as [|[u s] g IH]; [destruct Hin|].
  simpl in ND. inversion ND as [|? ? Hu ND']; subst.
  unfold edgeb. cbn [filter Dict.get]. destruct (String.eqb_spec x u) as [->|N].
  - rewrite filter_pending_absent by auto.
    assert (E1 : pending xs v (u, s) = PySet.mem v s).
    { unfold pending. cbn [fst snd]. rewrite Hx. apply andb_true_r. }
    assert (E2 : pending (xs ++ [u]) v (u, s) = false).
    { unfold pending. cbn [fst snd].
      rewrite mem_app, mem_single, String.eqb_refl, orb_true_r. apply andb_false_r. }
    rewrite E1, E2. destruct (PySet.mem v s); simpl; lia.
  - destruct Hin as [E|Hin]; [simpl in E; congruence|].
    specialize (IH ND' Hin). unfold edgeb in IH.
    assert (Ep : pending (xs ++ [x]) v (u, s) = pending xs v (u, s)).
    { unfold pending. cbn [fst snd]. rewrite mem_app, mem_single.
      assert (Eq : String.eqb u x = false) by (apply String.eqb_neq; congruence).
      now rewrite Eq, orb_false_r. }
    rewrite Ep. destruct (pending xs v (u, s)); simpl; lia.
Qed.

Lemma indeg_snoc g xs x v :
  NoDup (Dict.keys g) -> In x (Dict.keys g) -> ~ In x xs ->
  indeg g (xs ++ [x]) v = indeg g xs v - (if edgeb g x v then 1 else 0).
Proof.
  intros ND Hin Hx. unfold indeg.
  rewrite (pending_count_snoc g xs x v ND Hin Hx).
  destruct (edgeb g x v); lia.
Qed.

(** ** [_get_in_degree] counts the prerequisites *)

Lemma count_incoming_fold s : forall t,
  (forall v, In v s -> In v (Dict.keys t)) ->
  exists t',
    fold_left (fun acc v => count_incoming v acc) s (Ret t) = Ret t' /\
    Dict.keys t' = Dict.keys t /\
    forall x, Dict.get x t' =
              option_map (fun n => n + Z.of_nat (count_occ string_dec s x)) (Dict.get x t).
Proof.
  induction s as [|v s IH]; intros t Hin.
  - exists t. simpl. repeat split; auto.
    intros x. destruct (Dict.get x t); simpl; f_equal; lia.
  - destruct (DictFacts.in_keys_get_some v t) as [n Hn]; [apply Hin; now left|].
    assert (Hk : Dict.keys (Dict.set v (n + 1) t) = Dict.keys t).
    { apply DictFacts.keys_set_present. apply Hin. now left. }
    destruct (IH (Dict.set v (n + 1) t)) as [t' [Hf [Hk' Hg]]].
    { intros u Hu. rewrite Hk. apply Hin. now right. }
    exists t'. simpl. rewrite Hn. split; [exact Hf|]. split; [congruence|].
    intros x. rewrite Hg. destruct (string_dec v x) as [->|N].
    + rewrite DictFacts.get_set_same, Hn. simpl. f_equal. lia.
    + rewrite DictFacts.get_set_other by congruence. reflexivity.
Qed.

Lemma count_rows_fold g ks : forall t,
  (forall u, In u ks -> forall v, In v (succs g u) -> In v (Dict.keys t)) ->
  (forall u, In u ks -> In u (Dict.keys g)) ->
  exists t',
    fold_left (fun acc u => count_row g u acc) ks (Ret t) = Ret t' /\
    Dict.keys t' = Dict.keys t /\
    forall x, Dict.get x t' =
              option_map
                (fun n => n + Z.of_nat
                   (list_sum (map (fun u => count_occ string_dec (succs g u) x) ks)))
                (Dict.get x t).
Proof.
  induction ks as [|u ks IH]; intros t Hs Hk.
  - exists t. simpl. repeat split; auto.
    intros x. destruct (Dict.get x t); simpl; f_equal; lia.
  - destruct (DictFacts.in_keys_get_some u g) as [s Hu]; [apply Hk; now left|].
    destruct (count_incoming_fold s t) as [t1 [Hf1 [Hk1 Hg1]]].
    { intros v Hv. apply (Hs u); [now left|]. unfold succs. now rewrite Hu. }
    destruct (IH t1) as [t' [Hf [Hk' Hg]]].
    { intros u' Hu' v Hv. rewrite Hk1. apply (Hs u'); auto. now right. }
    { intros u' Hu'. apply Hk. now right. }
    exists t'. simpl. rewrite Hu, Hf1. split; [exact Hf|]. split; [congruence|].
    intros x. rewrite Hg, Hg1. unfold succs at 2. rewrite Hu.
    destruct (Dict.get x t); simpl; f_equal. lia.
Qed.

Lemma count_occ_set (s : list node) x :
  NoDup s -> count_occ string_dec s x = if PySet.mem x s then 1%nat else 0%nat.
Proof.
  intros ND. destruct (PySet.mem x s) eqn:E.
  - apply PySetFacts.mem_true_iff in E.
    pose proof (proj1 (NoDup_count_occ string_dec s) ND x).
    pose proof (proj1 (count_occ_In string_dec s x) E). lia.
  - apply PySetFacts.mem_false_iff in E. now apply count_occ_not_In.
Qed.

Lemma hits_are_pending g x : forall l,
  wf g -> (forall e, In e l -> In e g) ->
  list_sum (map (fun u => count_occ string_dec (succs g u) x) (map fst l)) =
  length (filter (pending [] x) l).
Proof.
  intros l [ND Hs]. induction l as [|[u s] l IH]; intros Hl; simpl; auto.
  rewrite IH by (intros e He; apply Hl; now right).
  assert (Hu : Dict.get u g = Some s).
  { apply DictFacts.in_get; auto. apply Hl. now left. }
  unfold succs at 1. rewrite Hu. rewrite count_occ_set by eauto.
  unfold pending at 2. simpl. rewrite andb_true_r.
  destruct (PySet.mem x s); reflexivity.
Qed.

Lemma get_zero_table (ks : list node) x :
  In x ks -> Dict.get x (map (fun u => (u, 0)) ks) = Some 0.
Proof.
  induction ks as [|k ks IH]; simpl; [tauto|].
  intros H. destruct (String.eqb_spec x k); auto.
  apply IH. destruct H; congruence.
Qed.

Lemma in_degrees_correct g :
  wf g -> closed g ->
  exists t, in_degrees g = Ret t /\
            Dict.keys t = Dict.keys g /\
            forall v, In v (Dict.keys g) -> Dict.get v t = Some (indeg g [] v).
Proof.
  intros Hwf Hc. unfold in_degrees.
  assert (Hk0 : Dict.keys (map (fun u => (u, 0)) (Dict.keys g)) = Dict.keys g).
  { unfold Dict.keys. rewrite map_map. simpl. apply map_id. }
  destruct (count_rows_fold g (Dict.keys g) (map (fun u => (u, 0)) (Dict.keys g)))
    as [t [Hf [Hk Hg]]]; auto.
  { intros u Hu v Hv. rewrite Hk0. apply (Hc u v).
    unfold succs in Hv. destruct (Dict.get u g) as [s|] eqn:E; [|destruct Hv].
    now exists s. }
  exists t. split; [exact Hf|]. split; [congruence|].
  intros v Hv. rewrite Hg, (get_zero_table _ _ Hv). simpl. f_equal.
  unfold indeg, Dict.keys. now rewrite (hits_are_pending g v g Hwf).
Qed.

Lemma count_incoming_fold_ok s : forall t t',
  fold_left (fun acc v => count_incoming v acc) s (Ret t) = Ret t' ->
  forall v, In v s -> In v (Dict.keys t).
Proof.
  induction s as [|a s IH]; intros t t' H v Hv; [destruct Hv|].
  simpl in H. destruct (Dict.get a t) as [n|] eqn:E.
  - assert (Ha : In a (Dict.keys t)) by (eapply DictFacts.get_some_in_keys; eauto).
    destruct Hv as [<-|Hv]; [exact Ha|].
    rewrite <- (DictFacts.keys_set_present a (n + 1) t Ha). eapply IH; eauto.
  - rewrite fold_res_raise in H by reflexivity. discriminate.
Qed.

Lemma count_rows_fold_ok g ks : forall t t',
  fold_left (fun acc u => count_row g u acc) ks (Ret t) = Ret t' ->
  forall u s v, In u ks -> Dict.get u g = Some s -> In v s -> In v (Dict.keys t).
Proof.
  induction ks as [|a ks IH]; intros t t' H u s v Hu Hs Hv; [destruct Hu|].
  simpl in H. destruct (Dict.get a g) as [sa|] eqn:Ea.
  2:{ rewrite fold_res_raise in H by reflexivity. discriminate. }
  destruct (fold_left (fun acc v => count_incoming v acc) sa (Ret t)) as [t1|e] eqn:E1.
  2:{ rewrite fold_res_raise in H by reflexivity. discriminate. }
  assert (Hk1 : Dict.keys t1 = Dict.keys t).
  { assert (Hr : count_row g a (Ret t) = Ret t1) by (simpl; now rewrite Ea).
    now apply count_row_keys in Hr. }
  destruct Hu as [<-|Hu].
  - rewrite Ea in Hs. injection Hs as <-. eapply count_incoming_fold_ok; eauto.
  - rewrite <- Hk1. eapply IH; eauto.
Qed.

Lemma in_degrees_closed g t : in_degrees g = Ret t -> closed g.
Proof.
  intros H u v [s [Hs Hv]].
  pose proof (in_degrees_keys _ _ H) as Hk. unfold in_degrees in H.
  assert (Hin : In v (Dict.keys (map (fun u => (u, 0)) (Dict.keys g)))).
  { eapply count_rows_fold_ok; eauto. eapply DictFacts.get_some_in_keys; eauto. }
  unfold Dict.keys in Hin. rewrite map_map in Hin. simpl in Hin.
  now rewrite map_id in Hin.
Qed.

Lemma kahn_start g t cnt :
  wf g -> in_degrees g = Ret t -> kahn g [] [] (mkWalk t (seeds t) PySet.empty cnt).
Proof.
  intros Hwf Ht.
  destruct (in_degrees_correct g Hwf (in_degrees_closed _ _ Ht)) as [t' [Ht' [Hk Hdeg]]].
  rewrite Ht in Ht'. injection Ht' as <-.
  assert (NDt : NoDup (Dict.keys t)) by (rewrite Hk; apply Hwf).
  unfold kahn. simpl. split; [exact Hk|]. split; [exact Hdeg|]. split.
  - intros v Hv. rewrite <- Hk. apply seeds_in in Hv.
    change (In (fst (v, 0)) (map fst t)). now apply in_map.
  - intros v Hv. rewrite count_occ_set by (now apply seeds_nodup).
    specialize (Hdeg v Hv).
    destruct (Z.eqb_spec (indeg g [] v) 0) as [E|N].
    + rewrite E in Hdeg. apply DictFacts.get_in, seeds_in in Hdeg.
      apply PySetFacts.mem_true_iff in Hdeg. now rewrite Hdeg.
    + destruct (PySet.mem v (seeds t)) eqn:Em; [|reflexivity].
      apply PySetFacts.mem_true_iff, seeds_in in Em.
      apply (DictFacts.in_get _ _ _ NDt) in Em. congruence.
Qed.

(** ** The exact effect of a completion report *)

Lemma mem_cons x v vs : PySet.mem x (v :: vs) = String.eqb x v || PySet.mem x vs.
Proof. reflexivity. Qed.

Lemma mem_filter f x s : PySet.mem x (filter f s) = PySet.mem x s && f x.
Proof.
  induction s as [|a s IH]; [reflexivity|].
  simpl filter. rewrite mem_cons. destruct (f a) eqn:Ea.
  - rewrite mem_cons, IH. destruct (String.eqb_spec x a) as [->|N]; simpl; auto.
  - rewrite IH. destruct (String.eqb_spec x a) as [->|N]; simpl; auto.
    rewrite Ea. now rewrite !andb_false_r.
Qed.

Lemma release_loop_exact vs : forall d w,
  walk_attrs d = Some w -> NoDup vs ->
  (forall v, In v vs -> In v (Dict.keys (_run_in_degree w))) ->
  exists t',
    for_each vs release d =
    (Ret tt, set_walk (mkWalk t' (_queue w ++ filter (reaches_zero (_run_in_degree w)) vs)
                              (_done w) (_it_cnt w)) d) /\
    Dict.keys t' = Dict.keys (_run_in_degree w) /\
    forall x, Dict.get x t' =
              if PySet.mem x vs
              then option_map (fun n => n - 1) (Dict.get x (_run_in_degree w))
              else Dict.get x (_run_in_degree w).
Proof.
  induction vs as [|v vs IH]; intros d w Hw ND Hin.
  - exists (_run_in_degree w). simpl. rewrite app_nil_r. unfold ret.
    destruct d, w. simpl in *. subst. auto.
  - inversion ND as [|? ? Hv ND']; subst.
    destruct (DictFacts.in_keys_get_some v (_run_in_degree w)) as [n Hn];
      [apply Hin; now left|].
    assert (Hk : Dict.keys (Dict.set v (n - 1) (_run_in_degree w)) =
                 Dict.keys (_run_in_degree w)).
    { apply DictFacts.keys_set_present. apply Hin. now left. }
    simpl for_each. unfold bind. rewrite (release_result _ _ _ Hw), Hn.
    set (w1 := mkWalk (Dict.set v (n - 1) (_run_in_degree w))
                      (if n - 1 =? 0 then _queue w ++ [v] else _queue w)
                      (_done w) (_it_cnt w)).
    destruct (IH (set_walk w1 d) w1 eq_refl ND') as [t' [Hf [Hk' Hg]]].
    { simpl. intros u Hu. rewrite Hk. apply Hin. now right. }
    assert (Eq : _queue w1 ++ filter (reaches_zero (_run_in_degree w1)) vs =
                 _queue w ++ filter (reaches_zero (_run_in_degree w)) (v :: vs)).
    { assert (Ef : filter (reaches_zero (_run_in_degree w1)) vs =
                   filter (reaches_zero (_run_in_degree w)) vs).
      { apply filter_ext_in. intros u Hu. unfold reaches_zero, w1.
        cbn [_run_in_degree].
        rewrite DictFacts.get_set_other; [reflexivity|congruence]. }
      rewrite Ef. cbn [filter]. unfold reaches_zero at 2. rewrite Hn.
      unfold w1. cbn [_queue].
      destruct (n - 1 =? 0); [now rewrite <- app_assoc|reflexivity]. }
    exists t'. rewrite Hf, Eq. split; [reflexivity|].
    unfold w1 in Hk', Hg. cbn [_run_in_degree] in Hk', Hg.
    split; [congruence|].
    intros x. rewrite Hg, mem_cons.
    destruct (String.eqb_spec x v) as [->|N]; simpl.
    + apply PySetFacts.mem_false_iff in Hv. rewrite Hv.
      now rewrite DictFacts.get_set_same, Hn.
    + rewrite DictFacts.get_set_other by auto. reflexivity.
Qed.

Lemma node_done_exact n d w ss :
  walk_attrs d = Some w -> Dict.get n (_graph d) = Some ss -> NoDup ss ->
  (forall v, In v ss -> In v (Dict.keys (_run_in_degree w))) ->
  exists t',
    node_done n d =
    (Ret tt, set_walk (mkWalk t' (_queue w ++ filter (reaches_zero (_run_in_degree w)) ss)
                              (PySet.add n (_done w)) (_it_cnt w)) d) /\
    Dict.keys t' = Dict.keys (_run_in_degree w) /\
    forall x, Dict.get x t' =
              if PySet.mem x ss
              then option_map (fun n => n - 1) (Dict.get x (_run_in_degree w))
              else Dict.get x (_run_in_degree w).
Proof.
  intros Hw Hn ND Hin. rewrite (node_done_result _ _ _ Hw), Hn. cbv zeta.
  set (w1 := mkWalk (_run_in_degree w) (_queue w) (PySet.add n (_done w)) (_it_cnt w)).
  destruct (release_loop_exact ss (set_walk w1 d) w1 eq_refl ND Hin) as [t' [Hf H]].
  exists t'. rewrite Hf. split; [reflexivity|exact H].
Qed.

Lemma node_done_kahn g ys xs x d w :
  wf g -> closed g -> _graph d = g -> walk_attrs d = Some w ->
  kahn g ys xs w -> In x (Dict.keys g) -> ~ In x xs ->
  exists w',
    node_done x d = (Ret tt, set_walk w' d) /\
    kahn g ys (xs ++ [x]) w' /\
    _it_cnt w' = _it_cnt w /\
    _done w' = PySet.add x (_done w) /\
    _queue w' = _queue w ++ filter (reaches_zero (_run_in_degree w)) (succs g x).
Proof.
  intros [NDk Hs] Hc Hg Hw [K1 [K2 [K3 K4]]] Hx Hnew.
  destruct (DictFacts.in_keys_get_some _ _ Hx) as [ss Hss].
  assert (Hsucc : succs g x = ss) by (unfold succs; now rewrite Hss).
  assert (Hedge : forall v, edgeb g x v = PySet.mem v ss)
    by (intros v; unfold edgeb; now rewrite Hss).
  assert (Hclosed : forall v, In v ss -> In v (Dict.keys g)).
  { intros v Hv. apply (Hc x v). now exists ss. }
  destruct (node_done_exact x d w ss Hw) as [t' [Hf [Hk' Hg']]];
    [now rewrite Hg|eauto|intros v Hv; rewrite K1; auto|].
  eexists. split; [exact Hf|]. rewrite Hsucc. simpl.
  split; [|auto]. split; [|split; [|split]]; simpl.
  - congruence.
  - intros v Hv. rewrite Hg', (K2 v Hv), (indeg_snoc g xs x v NDk Hx Hnew), Hedge.
    destruct (PySet.mem v ss); simpl; f_equal; lia.
  - intros v Hv. rewrite app_assoc, in_app_iff in Hv. destruct Hv as [Hv|Hv]; auto.
    apply filter_In in Hv as [Hv _]. auto.
  - intros v Hv. rewrite app_assoc, count_occ_app, (K4 v Hv).
    rewrite count_occ_set by (apply NoDup_filter; eauto).
    rewrite mem_filter. unfold reaches_zero. rewrite (K2 v Hv).
    rewrite (indeg_snoc g xs x v NDk Hx Hnew), Hedge.
    pose proof (indeg_nonneg g (xs ++ [x]) v) as Hpos.
    rewrite (indeg_snoc g xs x v NDk Hx Hnew), Hedge in Hpos.
    destruct (PySet.mem v ss); simpl.
    + destruct (Z.eqb_spec (indeg g xs v) 0); [lia|].
      destruct (indeg g xs v - 1 =? 0); reflexivity.
    + rewrite Z.sub_0_r. destruct (indeg g xs v =? 0); reflexivity.
Qed.

(** ** Acyclic graphs have a source in every non-empty set of nodes *)

Lemma path_snoc g u v w : path g u v -> edge g v w -> path g u w.
Proof.
  induction 1 as [u v H|u v x H _ IH]; intros He.
  - eapply path_step; [exact H|now apply path_edge].
  - eapply path_step; [exact H|auto].
Qed.

Lemma path_trans g u v w : path g u v -> path g v w -> path g u w.
Proof.
  induction 1 as [u v H|u v x H _ IH]; intros Hp.
  - eapply path_step; eauto.
  - eapply path_step; [exact H|auto].
Qed.

Lemma path_after g y z w : y = z \/ path g y z -> edge g z w -> path g y w.
Proof.
  intros [->|H] He; [now apply path_edge|eapply path_snoc; eauto].
Qed.

Lemma path_before g u y z : edge g u y -> y = z \/ path g y z -> path g u z.
Proof.
  intros He [<-|H]; [now apply path_edge|eapply path_step; eauto].
Qed.

Lemma some_pred_dec g a S :
  (exists z, In z S /\ edge g z a) \/ (forall z, In z S -> ~ edge g z a).
Proof.
  destruct (existsb (fun z => edgeb g z a) S) eqn:E.
  - left. apply existsb_exists in E as [z [Hz He]]. exists z. split; auto.
    now apply edge_iff_edgeb.
  - right. intros z Hz He. apply edge_iff_edgeb in He.
    assert (Ht : existsb (fun z => edgeb g z a) S = true)
      by (apply existsb_exists; eauto).
    congruence.
Qed.

Lemma source_above g : acyclic g -> forall S x,
  In x S ->
  exists y, In y S /\ (forall u, edge g u y -> ~ In u S) /\ (y = x \/ path g y x).
Proof.
  intros Hac. induction S as [|a S IH]; intros x Hx; [destruct Hx|].
  assert (Hself : ~ edge g a a) by (intros He; apply (Hac a); now apply path_edge).
  (* a source of [S] that is not below [a] is a source of [a :: S] *)
  assert (Hkeep : forall y, In y S -> (forall u, edge g u y -> ~ In u S) ->
                            ~ edge g a y ->
                            In y (a :: S) /\ forall u, edge g u y -> ~ In u (a :: S)).
  { intros y Hy Hsrc Hna. split; [now right|].
    intros u He [<-|Hu]; [auto|exact (Hsrc u He Hu)]. }
  (* every member of [S] has a source of [a :: S] above it *)
  assert (Hlift : forall z, In z S ->
            exists y, In y (a :: S) /\ (forall u, edge g u y -> ~ In u (a :: S)) /\
                      (y = z \/ path g y z)).
  { intros z Hz. destruct (IH z Hz) as [y [Hy [Hsrc Hyz]]].
    destruct (edgeb g a y) eqn:Eay.
    2:{ exists y. destruct (Hkeep y Hy Hsrc) as [H1 H2]; auto.
        intros He. apply edge_iff_edgeb in He. congruence. }
    apply edge_iff_edgeb in Eay.
    destruct (some_pred_dec g a S) as [[z' [Hz' He']]|Hnone].
    - destruct (IH z' Hz') as [y' [Hy' [Hsrc' Hyz']]].
      assert (Hpa : path g y' a) by (eapply path_after; eauto).
      exists y'. destruct (Hkeep y' Hy' Hsrc') as [H1 H2].
      { intros He. apply (Hac a). eapply path_step; eauto. }
      split; [exact H1|]. split; [exact H2|]. right.
      eapply path_trans; [exact Hpa|]. eapply path_before; eauto.
    - exists a. split; [now left|]. split.
      + intros u He [<-|Hu]; [auto|exact (Hnone u Hu He)].
      + right. eapply path_before; eauto. }
  destruct Hx as [<-|Hx]; [|auto].
  destruct (some_pred_dec g a S) as [[z' [Hz' He']]|Hnone].
  - destruct (Hlift z' Hz') as [y [Hy [Hsrc Hyz]]]. exists y.
    split; [exact Hy|]. split; [exact Hsrc|]. right. eapply path_after; eauto.
  - exists a. split; [now left|]. split; [|now left].
    intros u He [<-|Hu]; [auto|exact (Hnone u Hu He)].
Qed.

Lemma acyclic_has_source g S :
  acyclic g -> S <> [] ->
  exists y, In y S /\ forall u, edge g u y -> ~ In u S.
Proof.
  intros Hac HS. destruct S as [|x S]; [congruence|].
  destruct (source_above g Hac (x :: S) x) as [y [H1 [H2 _]]]; [now left|eauto].
Qed.

(** A numbering that increases along every edge rules out cycles. *)
Lemma ranked_acyclic g (rank : node -> nat) :
  (forall u v, edge g u v -> (rank u < rank v)%nat) -> acyclic g.
Proof.
  intros Hr x Hp.
  assert (H : forall u v, path g u v -> (rank u < rank v)%nat).
  { induction 1 as [u v H|u v w H _ IH]; [auto|]. specialize (Hr _ _ H). lia. }
  specialize (H _ _ Hp). lia.
Qed.

(** ** Positions in the result *)

Lemma index_app_left x l l' i : index x l = Some i -> index x (l ++ l') = Some i.
Proof.
  revert i. induction l as [|y l IH]; intros i; simpl; [discriminate|].
  destruct (String.eqb x y); auto.
  destruct (index x l) as [j|]; simpl; [|discriminate].
  intros [= <-]. now rewrite (IH j).
Qed.

Lemma index_snoc_new x l : ~ In x l -> index x (l ++ [x]) = Some (length l).
Proof.
  induction l as [|y l IH]; simpl; intros H.
  - now rewrite String.eqb_refl.
  - destruct (String.eqb_spec x y) as [->|N]; [tauto|].
    rewrite IH by tauto. reflexivity.
Qed.

Lemma index_bound x l i : index x l = Some i -> (i < length l)%nat.
Proof.
  revert i. induction l as [|y l IH]; intros i; simpl; [discriminate|].
  destruct (String.eqb x y).
  - intros [= <-]. lia.
  - destruct (index x l) as [j|]; simpl; [|discriminate].
    intros [= <-]. specialize (IH j eq_refl). lia.
Qed.

Lemma index_of_member x l : In x l -> exists i, index x l = Some i.
Proof.
  induction l as [|y l IH]; simpl; [tauto|].
  intros H. destruct (String.eqb_spec x y); [eauto|].
  destruct IH as [i Hi]; [destruct H; congruence|]. rewrite Hi. simpl. eauto.
Qed.

Lemma index_member x l i : index x l = Some i -> In x l.
Proof.
  revert i. induction l as [|y l IH]; intros i; simpl; [discriminate|].
  destruct (String.eqb_spec x y) as [->|N]; [auto|].
  destruct (index x l) as [j|]; simpl; [|discriminate]. eauto.
Qed.

Lemma before_app_left u v l l' : before u v l -> before u v (l ++ l').
Proof.
  intros [i [j [Hi [Hj Hlt]]]]. exists i, j.
  repeat split; auto using index_app_left.
Qed.

Lemma before_snoc u v l : In u l -> ~ In v l -> before u v (l ++ [v]).
Proof.
  intros Hu Hv. destruct (index_of_member u l Hu) as [i Hi].
  exists i, (length l). split; [now apply index_app_left|].
  split; [now apply index_snoc_new|]. eapply index_bound; eauto.
Qed.

(** ** Kahn's algorithm as [topological_sort] runs it *)

Lemma kahn_nodup g ys xs w : kahn g ys xs w -> NoDup (ys ++ _queue w).
Proof.
  intros [_ [_ [K3 K4]]]. apply NoDup_count_occ with (decA := string_dec).
  intros x. destruct (in_dec string_dec x (ys ++ _queue w)) as [Hin|Hn].
  - rewrite (K4 x (K3 x Hin)). destruct (indeg g xs x =? 0); lia.
  - rewrite (proj1 (count_occ_not_In string_dec _ x) Hn). lia.
Qed.

Lemma kahn_enqueued_zero g ys xs w v :
  kahn g ys xs w -> In v (ys ++ _queue w) -> indeg g xs v = 0.
Proof.
  intros [_ [_ [K3 K4]]] Hin. specialize (K4 v (K3 v Hin)).
  apply (count_occ_In string_dec) in Hin.
  destruct (Z.eqb_spec (indeg g xs v) 0); [auto|lia].
Qed.

Lemma kahn_progress g acc w :
  wf g -> acyclic g -> kahn g acc acc w ->
  (length acc < length g)%nat -> _queue w <> [].
Proof.
  intros [NDk _] Hac Hk Hlt Hq.
  pose proof (kahn_nodup _ _ _ _ Hk) as ND. rewrite Hq, app_nil_r in ND.
  destruct Hk as [_ [_ [K3 K4]]]. rewrite Hq, app_nil_r in K3, K4.
  set (R := filter (fun k => negb (PySet.mem k acc)) (Dict.keys g)).
  assert (HR : R <> []).
  { intros E. assert (Hincl : incl (Dict.keys g) acc).
    { intros k Hkey. destruct (PySet.mem k acc) eqn:Em;
        [now apply PySetFacts.mem_true_iff|].
      assert (Hin : In k R) by (apply filter_In; split; [auto|now rewrite Em]).
      rewrite E in Hin. destruct Hin. }
    apply (NoDup_incl_length NDk) in Hincl.
    unfold Dict.keys in Hincl. rewrite length_map in Hincl. lia. }
  destruct (acyclic_has_source g R Hac HR) as [y [Hy Hsrc]].
  apply filter_In in Hy as [Hy Hny]. apply negb_true_iff in Hny.
  assert (Hz : indeg g acc y = 0).
  { apply preds_reported_indeg_zero; auto. intros u He.
    destruct (PySet.mem u acc) eqn:Em; [now apply PySetFacts.mem_true_iff|].
    exfalso. apply (Hsrc u He). apply filter_In. split; [|now rewrite Em].
    eapply edge_source_is_node; eauto. }
  specialize (K4 y Hy). rewrite Hz in K4. simpl in K4.
  apply PySetFacts.mem_false_iff in Hny.
  apply (count_occ_not_In string_dec) in Hny. lia.
Qed.

Lemma consume_kahn g :
  wf g -> closed g -> acyclic g ->
  forall fuel acc d w,
    0 <= _wait_timeout d < FLOAT_LIMIT ->
    _graph d = g -> walk_attrs d = Some w -> kahn g acc acc w ->
    _it_cnt w = Z.of_nat fuel -> (length acc + fuel = length g)%nat ->
    (forall u v, edge g u v -> In v acc -> before u v acc) ->
    exists l d',
      consume fuel acc d = Some (Ret l, d') /\
      NoDup l /\ length l = length g /\
      (forall v, In v l -> In v (Dict.keys g)) /\
      (forall u v, edge g u v -> In v l -> before u v l).
Proof.
  intros Hwf Hc Hac. induction fuel as [|fuel IH];
    intros acc d w Ht Hg Hw Hk Hcnt Hlen Hord.
  - exists acc, d. simpl. rewrite (next_result_stop _ _ Hw) by (rewrite Hcnt; simpl; lia).
    split; [reflexivity|].
    pose proof (kahn_nodup _ _ _ _ Hk) as ND. apply NoDup_app_remove_r in ND.
    destruct Hk as [_ [_ [K3 _]]].
    repeat split; auto; [lia|]. intros v Hv. apply K3, in_app_iff. now left.
  - destruct (_queue w) as [|n rest] eqn:Eq.
    { exfalso. apply (kahn_progress g acc w Hwf Hac Hk); [lia|exact Eq]. }
    pose proof (kahn_nodup _ _ _ _ Hk) as ND. rewrite Eq in ND.
    assert (Hn_new : ~ In n acc).
    { apply NoDup_remove_2 in ND. intros H. apply ND, in_app_iff. now left. }
    assert (Hn_zero : indeg g acc n = 0).
    { apply (kahn_enqueued_zero g acc acc w); auto.
      rewrite Eq. apply in_app_iff. right. now left. }
    assert (Hn_key : In n (Dict.keys g)).
    { destruct Hk as [_ [_ [K3 _]]]. apply K3. rewrite Eq.
      apply in_app_iff. right. now left. }
    set (w1 := mkWalk (_run_in_degree w) rest (_done w) (_it_cnt w - 1)).
    assert (Hk1 : kahn g (acc ++ [n]) acc w1).
    { destruct Hk as [K1 [K2 [K3 K4]]]. unfold kahn, w1. simpl.
      rewrite <- app_assoc. simpl. rewrite Eq in K3, K4. auto. }
    destruct (node_done_kahn g (acc ++ [n]) acc n (set_walk w1 d) w1
                Hwf Hc Hg eq_refl Hk1 Hn_key Hn_new)
      as [w2 [Hdone [Hk2 [Hcnt2 _]]]].
    destruct (IH (acc ++ [n]) (set_walk w2 (set_walk w1 d)) w2) as [l [d' H]];
      auto.
    + rewrite Hcnt2. unfold w1. simpl. lia.
    + rewrite length_app. simpl. lia.
    + intros u v He Hv. apply in_app_iff in Hv. destruct Hv as [Hv|[<-|[]]].
      * apply before_app_left. eauto.
      * apply before_snoc; auto. eapply indeg_zero_preds; eauto.
    + exists l, d'. simpl consume.
      assert (Hpos : 0 < _it_cnt w) by lia.
      rewrite (next_result_item _ _ _ _ Hw Ht Hpos Eq).
      fold w1. rewrite Hdone. exact H.
Qed.

(** Sorting a well-formed, closed, acyclic graph. *)
Lemma topological_sort_kahn d :
  0 <= _wait_timeout d < FLOAT_LIMIT ->
  wf (_graph d) -> closed (_graph d) -> acyclic (_graph d) ->
  exists l d',
    topological_sort d = Some (Ret l, d') /\
    length l = length (_graph d) /\
    NoDup l /\
    (forall v, In v l <-> In v (Dict.keys (_graph d))) /\
    (forall u v, edge (_graph d) u v -> before u v l).
Proof.
  intros Htime Hwf Hc Hac.
  destruct (in_degrees_correct _ Hwf Hc) as [t [Ht [Hk Hdeg]]].
  unfold topological_sort, __iter__. rewrite start_traverse_result, Ht.
  cbn [_graph set_walk].
  set (w0 := mkWalk t (seeds t) PySet.empty (Dict.len (_graph d))).
  assert (Hk0 : kahn (_graph d) [] [] w0) by (now apply kahn_start).
  destruct (consume_kahn (_graph d) Hwf Hc Hac (length (_graph d)) []
              (mkDAG (_graph d) (_wait_timeout d) (_lock d) (Some w0)) w0)
    as [l [d' [Hrun [ND [Hlen [Hin Hord]]]]]]; auto.
  { intros u v _ []. }
  exists l, d'. split; [exact Hrun|]. split; [exact Hlen|]. split; [exact ND|].
  assert (Hall : forall v, In v (Dict.keys (_graph d)) -> In v l).
  { apply NoDup_length_incl; auto.
    unfold Dict.keys. rewrite length_map. lia. }
  split; [split; auto|].
  intros u v He. apply Hord; auto. apply Hall. eapply Hc; eauto.
Qed.

(** ** Concrete graphs *)

Lemma edge_in_row g u v : edge g u v -> exists s, In (u, s) g /\ In v s.
Proof.
  intros [s [Hs Hv]]. exists s. split; [now apply DictFacts.get_in|exact Hv].
Qed.

Lemma closedb_sound g : closedb g = true -> closed g.
Proof.
  unfold closedb. rewrite forallb_forall. intros H u v He.
  destruct (edge_in_row _ _ _ He) as [s [Hrow Hv]].
  specialize (H _ Hrow). simpl in H. rewrite forallb_forall in H.
  now apply PySetFacts.mem_true_iff, H.
Qed.

Lemma rankedb_sound order g : rankedb order g = true -> acyclic g.
Proof.
  unfold rankedb. rewrite forallb_forall. intros H.
  apply (ranked_acyclic g (rank_in order)). intros u v He.
  destruct (edge_in_row _ _ _ He) as [s [Hrow Hv]].
  specialize (H _ Hrow). simpl in H. rewrite forallb_forall in H.
  now apply Nat.ltb_lt, H.
Qed.

(** ** Graphs that differ in the iteration order of their sets *)

Lemma same_graph_keys g1 g2 : same_graph g1 g2 -> Dict.keys g1 = Dict.keys g2.
Proof.
  induction 1 as [|[u1 s1] [u2 s2] g1 g2 [E _] _ IH]; simpl; [reflexivity|].
  simpl in E. now rewrite E, IH.
Qed.

Lemma same_graph_get g1 g2 u s1 :
  same_graph g1 g2 -> Dict.get u g1 = Some s1 ->
  exists s2, Dict.get u g2 = Some s2 /\ Permutation s1 s2.
Proof.
  induction 1 as [|[u1 r1] [u2 r2] g1 g2 [E P] _ IH]; simpl; [discriminate|].
  simpl in E, P. subst u2. destruct (String.eqb u u1); [|exact IH].
  intros [= <-]. eauto.
Qed.

Lemma same_graph_sym g1 g2 : same_graph g1 g2 -> same_graph g2 g1.
Proof.
  induction 1 as [|e1 e2 g1 g2 [E P] _ IH]; constructor; auto.
  split; [auto|now apply Permutation_sym].
Qed.

Lemma same_graph_edge g1 g2 u v : same_graph g1 g2 -> edge g1 u v -> edge g2 u v.
Proof.
  intros Hs [s1 [H1 Hv]]. destruct (same_graph_get _ _ _ _ Hs H1) as [s2 [H2 P]].
  exists s2. split; [exact H2|]. eapply Permutation_in; eauto.
Qed.

Lemma same_graph_path g1 g2 u v : same_graph g1 g2 -> path g1 u v -> path g2 u v.
Proof.
  intros Hs. induction 1 as [u v H|u v w H _ IH].
  - apply path_edge. eapply same_graph_edge; eauto.
  - eapply path_step; [eapply same_graph_edge; eauto|exact IH].
Qed.

Lemma same_graph_wf g1 g2 : same_graph g1 g2 -> wf g2 -> wf g1.
Proof.
  intros Hs [ND Hn]. split.
  - now rewrite (same_graph_keys _ _ Hs).
  - intros u s1 H1. destruct (same_graph_get _ _ _ _ Hs H1) as [s2 [H2 P]].
    apply (Permutation_NoDup (Permutation_sym P)). eauto.
Qed.

Lemma same_graph_closed g1 g2 : same_graph g1 g2 -> closed g2 -> closed g1.
Proof.
  intros Hs Hc u v He. rewrite (same_graph_keys _ _ Hs).
  eapply Hc, same_graph_edge; eauto.
Qed.

Lemma same_graph_acyclic g1 g2 : same_graph g1 g2 -> acyclic g2 -> acyclic g1.
Proof.
  intros Hs Hac x Hp. apply (Hac x). eapply same_graph_path; eauto.
Qed.

Lemma before_trans u v w l : before u v l -> before v w l -> before u w l.
Proof.
  intros [i [j [Hi [Hj Hij]]]] [j' [k [Hj' [Hk Hjk]]]].
  exists i, k. repeat split; auto. rewrite Hj in Hj'. injection Hj' as <-. lia.
Qed.

Lemma before_not_last u v l x : NoDup (l ++ [x]) -> before u v (l ++ [x]) -> u <> x.
Proof.
  intros ND [i [j [Hi [Hj Hij]]]] ->.
  rewrite index_snoc_new in Hi.
  - injection Hi as <-. apply index_bound in Hj. rewrite length_app in Hj.
    simpl in Hj. lia.
  - apply NoDup_remove_2 in ND. now rewrite app_nil_r in ND.
Qed.

(** ** Claims about [topological_sort] *)

(** C1 (as the code has it): for every acyclic graph built through
    [__init__], [add_node], [add_edge] and [from_dict] in which every
    successor is itself a node, [topological_sort] returns a list of exactly
    K = [len(self._graph)] identifiers that holds every node exactly once
    and in which, for every edge (u, v), [u] has a smaller index than [v]. *)
Theorem topological_sort_orders_closed_graphs : forall d,
  built d -> closed (_graph d) -> acyclic (_graph d) ->
  exists l d',
    topological_sort d = Some (Ret l, d') /\
    length l = length (_graph d) /\
    (forall v, In v (Dict.keys (_graph d)) -> count_occ string_dec l v = 1%nat) /\
    (forall v, In v l -> In v (Dict.keys (_graph d))) /\
    (forall u v, edge (_graph d) u v -> before u v l).
Proof.
  intros d Hb Hc Hac.
  assert (Ht : 0 <= _wait_timeout d < FLOAT_LIMIT).
  { rewrite (built_timeout d Hb). exact (waitable_is_accepted _ default_timeout_waitable). }
  destruct (topological_sort_kahn d Ht (built_wf d Hb) Hc Hac)
    as [l [d' [Hrun [Hlen [ND [Hin Hord]]]]]].
  exists l, d'. split; [exact Hrun|]. split; [exact Hlen|].
  split; [|split; [apply Hin|exact Hord]].
  intros v Hv. apply Hin in Hv.
  pose proof (proj1 (NoDup_count_occ string_dec l) ND v).
  pose proof (proj1 (count_occ_In string_dec l v) Hv). lia.
Qed.

Lemma topological_sort_orders_closed_graphs_witness :
  let d := snd (__init__ (Some fan_in)) in
  built d /\ closed (_graph d) /\ acyclic (_graph d) /\
  exists l d', topological_sort d = Some (Ret l, d') /\ before "p1" "s" l.
Proof.
  intros d.
  assert (Hb : built d) by (apply (built_init (Some fan_in) (Ret tt)); reflexivity).
  assert (Hc : closed (_graph d)) by (apply closedb_sound; reflexivity).
  assert (Hac : acyclic (_graph d))
    by (apply (rankedb_sound ["p1"; "p2"; "s"]); reflexivity).
  split; [exact Hb|]. split; [exact Hc|]. split; [exact Hac|].
  destruct (topological_sort_orders_closed_graphs d Hb Hc Hac)
    as [l [d' [H1 [_ [_ [_ H2]]]]]].
  exists l, d'. split; [exact H1|]. apply H2.
  exists ["s"]. split; [reflexivity|simpl; auto].
Defined.

(** C1, as stated, fails on the graph built by [add_node('a')] and
    [add_edge('a', 'b')]: it is acyclic and has K = 1 node, and
    [topological_sort] raises [KeyError('b')] instead of returning. *)
Lemma topological_sort_raises_on_dangling_edge :
  let d := snd (add_edge "a" "b" (snd (add_node "a" (snd (__init__ None))))) in
  built d /\ acyclic (_graph d) /\ length (_graph d) = 1%nat /\
  edge (_graph d) "a" "b" /\
  topological_sort d = Some (Raise (KeyError "b"), d).
Proof.
  intros d. split; [|split; [|split; [|split]]].
  - apply (built_add_edge "a" "b" (snd (add_node "a" (snd (__init__ None)))) (Ret tt));
      [|reflexivity].
    apply (built_add_node "a" (snd (__init__ None)) (Ret tt)); [|reflexivity].
    apply (built_init None (Ret tt)). reflexivity.
  - apply (rankedb_sound ["a"; "b"]). reflexivity.
  - reflexivity.
  - exists ["b"]. split; [reflexivity|simpl; auto].
  - reflexivity.
Qed.

(** C6 (as the code has it): on the graph loaded from
    [{a:[b,d,f], b:[c,d], c:[d], d:[e], e:[], f:[e]}], whatever the
    iteration order of its successor sets (and the wait timeout being one
    that [queue.get] accepts: not negative and not too large for a float),
    [topological_sort] returns all 6 identifiers, with a before
    b, d and f; b before c and d; c before d; d before e; f before e; and e
    last. *)
Theorem scenario_sorted : forall d,
  same_graph (_graph d) scenario_graph -> 0 <= _wait_timeout d < FLOAT_LIMIT ->
  exists l d',
    topological_sort d = Some (Ret l, d') /\
    length l = 6%nat /\
    (forall v, In v l <-> In v ["a"; "b"; "c"; "d"; "e"; "f"]) /\
    NoDup l /\
    (before "a" "b" l /\ before "a" "d" l /\ before "a" "f" l) /\
    (before "b" "c" l /\ before "b" "d" l) /\
    before "c" "d" l /\ before "d" "e" l /\ before "f" "e" l /\
    exists front, l = front ++ ["e"].
Proof.
  intros d Hs Htime.
  assert (Hwf : wf (_graph d)).
  { apply (same_graph_wf _ _ Hs), built_wf.
    apply (built_init (Some scenario) (Ret tt)). reflexivity. }
  assert (Hc : closed (_graph d))
    by (apply (same_graph_closed _ _ Hs), closedb_sound; reflexivity).
  assert (Hac : acyclic (_graph d)).
  { apply (same_graph_acyclic _ _ Hs).
    apply (rankedb_sound ["a"; "b"; "f"; "c"; "d"; "e"]). reflexivity. }
  destruct (topological_sort_kahn d Htime Hwf Hc Hac)
    as [l [d' [Hrun [Hlen [ND [Hin Hord]]]]]].
  assert (He : forall u v, edge scenario_graph u v -> before u v l).
  { intros u v H. apply Hord. apply (same_graph_edge _ _ _ _ (same_graph_sym _ _ Hs) H). }
  assert (Hrow : forall u s v, Dict.get u scenario_graph = Some s -> In v s ->
                               before u v l).
  { intros u s v H1 H2. apply He. now exists s. }
  assert (Hab := Hrow "a" _ "b" eq_refl ltac:(simpl; auto)).
  assert (Had := Hrow "a" _ "d" eq_refl ltac:(simpl; auto)).
  assert (Haf := Hrow "a" _ "f" eq_refl ltac:(simpl; auto)).
  assert (Hbc := Hrow "b" _ "c" eq_refl ltac:(simpl; auto)).
  assert (Hbd := Hrow "b" _ "d" eq_refl ltac:(simpl; auto)).
  assert (Hcd := Hrow "c" _ "d" eq_refl ltac:(simpl; auto)).
  assert (Hde := Hrow "d" _ "e" eq_refl ltac:(simpl; auto)).
  assert (Hfe := Hrow "f" _ "e" eq_refl ltac:(simpl; auto)).
  assert (Hlen6 : length l = 6%nat).
  { rewrite Hlen. transitivity (length scenario_graph);
      [exact (Forall2_length Hs)|reflexivity]. }
  assert (Hnodes : forall v, In v l <-> In v ["a"; "b"; "c"; "d"; "e"; "f"]).
  { intros v. rewrite Hin, (same_graph_keys _ _ Hs). reflexivity. }
  exists l, d'. split; [exact Hrun|]. split; [exact Hlen6|].
  split; [exact Hnodes|]. split; [exact ND|].
  repeat (split; [now auto|]).
  destruct (exists_last (l := l)) as [front [x Hx]];
    [intros E; rewrite E in Hlen6; discriminate|].
  exists front. rewrite Hx. f_equal. f_equal.
  rewrite Hx in ND.
  assert (Hlast : In x ["a"; "b"; "c"; "d"; "e"; "f"]).
  { apply Hnodes. rewrite Hx. apply in_app_iff. right. now left. }
  rewrite Hx in Hab, Hbc, Hcd, Hde, Hfe.
  simpl in Hlast. destruct Hlast as [<-|[<-|[<-|[<-|[<-|[<-|[]]]]]]];
    try reflexivity; exfalso.
  - exact (before_not_last _ _ _ _ ND Hab eq_refl).
  - exact (before_not_last _ _ _ _ ND Hbc eq_refl).
  - exact (before_not_last _ _ _ _ ND Hcd eq_refl).
  - exact (before_not_last _ _ _ _ ND Hde eq_refl).
  - exact (before_not_last _ _ _ _ ND Hfe eq_refl).
Qed.

Lemma scenario_sorted_witness :
  let d := snd (__init__ (Some scenario)) in
  same_graph (_graph d) scenario_graph /\ 0 <= _wait_timeout d < FLOAT_LIMIT /\
  exists l d', topological_sort d = Some (Ret l, d') /\ length l = 6%nat.
Proof.
  intros d.
  assert (Hs : same_graph (_graph d) scenario_graph).
  { unfold same_graph, scenario_graph, d. simpl.
    repeat (constructor; [split; [reflexivity|apply Permutation_refl]|]).
    constructor. }
  assert (Ht : 0 <= _wait_timeout d < FLOAT_LIMIT)
    by exact (waitable_is_accepted _ default_timeout_waitable).
  split; [exact Hs|]. split; [exact Ht|].
  destruct (scenario_sorted d Hs Ht) as [l [d' [H1 [H2 _]]]].
  exists l, d'. split; [exact H1|exact H2].
Defined.

(** C6, as stated, fails on the count: the quoted mapping has 6 keys, and
    the list returned for it has 6 identifiers, not 7. *)
Lemma scenario_has_six_nodes :
  option_map fst (topological_sort (snd (__init__ (Some scenario)))) =
    Some (Ret ["a"; "b"; "f"; "c"; "d"; "e"]) /\
  ~ (exists l d',
       topological_sort (snd (__init__ (Some scenario))) = Some (Ret l, d') /\
       length l = 7%nat).
Proof.
  split; [reflexivity|].
  intros [l [d' [H Hlen]]].
  apply (f_equal (option_map fst)) in H. vm_compute in H.
  injection H as <-. discriminate Hlen.
Qed.

(** ** Completion reports over the lifetime of a walk *)




(** ** Two completion reports at once *)

Lemma run_thread_exit k : forall d, run_thread k AtExit d = (Ret AtExit, d).
Proof.
  induction k as [|k IH]; intros d; [reflexivity|].
  simpl. unfold bind, ret. apply IH.
Qed.

Lemma run_thread_loop vs : forall extra d,
  run_thread (2 * length vs + extra) (loop_head vs) d =
  match for_each vs release d with
  | (Ret _, d') => (Ret AtExit, d')
  | (Raise e, d') => (Raise e, d')
  end.
Proof.
  induction vs as [|v vs IH]; intros extra d.
  - simpl. apply run_thread_exit.
  - replace (2 * length (v :: vs) + extra)%nat
      with (S (S (2 * length vs + extra))) by (simpl; lia).
    cbn [run_thread loop_head thread_step for_each].
    unfold release, bind, ret.
    destruct (in_degree_decr v d) as [[[]|e] d1]; [|reflexivity].
    cbn [thread_step]. unfold bind, ret.
    destruct (in_degree_getitem v d1) as [[deg|e] d2]; [|reflexivity].
    destruct (deg =? 0).
    + destruct (queue_put v d2) as [[[]|e] d3]; [|reflexivity]. apply IH.
    + apply IH.
Qed.

Lemma run_thread_node_done n d :
  run_thread (S (2 * length (succs (_graph d) n))) (AtEntry n) d =
  match node_done n d with
  | (Ret _, d') => (Ret AtExit, d')
  | (Raise e, d') => (Raise e, d')
  end.
Proof.
  cbn [run_thread thread_step]. unfold node_done, succs, bind, get_walk.
  destruct (walk_attrs d) as [w|]; [|reflexivity].
  unfold put_walk, graph_getitem, bind, get_graph, ret, raise. cbn [_graph set_walk].
  destruct (Dict.get n (_graph d)) as [ss|]; [|reflexivity].
  rewrite <- (Nat.add_0_r (2 * length ss)). apply run_thread_loop.
Qed.

(** C9 (what the code does): [node_done] takes no lock, and the statements
    of two calls can interleave.  On the fan-in graph [p1 -> s <- p2] each
    call run alone, in either order, enqueues [s] once; when both calls
    decrement before either of them checks, both find the count at zero and
    [s] is enqueued twice. *)
Theorem node_done_interleaved_enqueues_twice :
  let d0 := snd (__iter__ (snd (__init__ (Some fan_in)))) in
  let sched := [true; false; true; false; true; false] in
  let racy := interleave sched (AtEntry "p1") (AtEntry "p2") d0 in
  count_occ string_dec
    (queue_of (snd (node_done "p2" (snd (node_done "p1" d0))))) "s" = 1%nat /\
  count_occ string_dec
    (queue_of (snd (node_done "p1" (snd (node_done "p2" d0))))) "s" = 1%nat /\
  fst racy = Ret (AtExit, AtExit) /\
  queue_of (snd racy) = ["p1"; "p2"; "s"; "s"] /\
  count_occ string_dec (queue_of (snd racy)) "s" = 2%nat /\
  (forall n d,
     run_thread (S (2 * length (succs (_graph d) n))) (AtEntry n) d =
     match node_done n d with
     | (Ret _, d') => (Ret AtExit, d')
     | (Raise e, d') => (Raise e, d')
     end) /\
  (forall p d, _lock (snd (thread_step p d)) = _lock d).
Proof.
  repeat (split; [reflexivity|]). split.
  - apply run_thread_node_done.
  - intros p d.
    apply (stable_thread_step _ keeps_graph_refl keeps_graph_trans put_walk_keeps_graph).
Qed.

(** C3 (what the code does): on [p1 -> s <- p2], [s -> t], a graph of 4
    nodes, the walk yields [p1] and [p2]; their completions are reported by
    two threads whose [node_done] calls interleave as in C9, and [s] is put
    on the queue twice.  The next two pulls both yield [s]; that uses up the
    four expected yields, so after [s] has reported and [t] is ready the
    fifth pull raises [StopIteration]: [s] was yielded twice and [t] never.
    With the same two reports made one after the other the pulls yield
    [p1], [p2], [s], [t], each node once. *)
Theorem walk_yields_successor_twice_after_interleaved_reports :
  let d0 := snd (__iter__ (snd (__init__ (Some fan_in_tail)))) in
  let pull1 := __next__ d0 in
  let pull2 := __next__ (snd pull1) in
  let sched := [true; false; true; false; true; false] in
  let racy := interleave sched (AtEntry "p1") (AtEntry "p2") (snd pull2) in
  let pull3 := __next__ (snd racy) in
  let pull4 := __next__ (snd pull3) in
  let report := node_done "s" (snd pull4) in
  let pull5 := __next__ (snd report) in
  let in_turn := node_done "p2" (snd (node_done "p1" (snd pull2))) in
  let turn3 := __next__ (snd in_turn) in
  let turn4 := __next__ (snd (node_done "s" (snd turn3))) in
  length (_graph d0) = 4%nat /\
  fst pull1 = Ret "p1" /\ fst pull2 = Ret "p2" /\
  fst racy = Ret (AtExit, AtExit) /\
  queue_of (snd racy) = ["s"; "s"] /\
  fst pull3 = Ret "s" /\ fst pull4 = Ret "s" /\
  fst report = Ret tt /\
  In "t" (queue_of (snd report)) /\
  fst pull5 = Raise StopIteration /\
  queue_of (snd in_turn) = ["s"] /\
  fst turn3 = Ret "s" /\ fst turn4 = Ret "t" /\
  fst (__next__ (snd turn4)) = Raise StopIteration.
Proof.
  vm_compute. repeat (split; [reflexivity|]). split; [now left|].
  repeat (split; [reflexivity|]). reflexivity.
Qed.


(** * Further properties of the walker *)

(** ** [_get_in_degree] *)

Lemma pending_is_edgeb g v : forall l,
  NoDup (Dict.keys g) -> (forall e, In e l -> In e g) ->
  length (filter (pending [] v) l) =
  length (filter (fun u => edgeb g u v) (map fst l)).
Proof.
  intros l ND. induction l as [|[u s] l IH]; intros Hl; [reflexivity|].
  cbn [map filter fst].
  assert (Hu : Dict.get u g = Some s).
  { apply DictFacts.in_get; auto. apply Hl. now left. }
  unfold edgeb at 1. rewrite Hu. unfold pending at 1. cbn [fst snd].
  change (PySet.mem u []) with false. rewrite andb_true_r.
  destruct (PySet.mem v s); simpl; rewrite IH; auto;
    intros e He; apply Hl; now right.
Qed.

Lemma indeg_start_prerequisites g v :
  NoDup (Dict.keys g) -> indeg g [] v = prerequisites g v.
Proof.
  intros ND. unfold indeg, prerequisites, Dict.keys.
  now rewrite (pending_is_edgeb g v g ND).
Qed.

Lemma count_incoming_fold_raise s : forall t e,
  fold_left (fun acc v => count_incoming v acc) s (Ret t) = Raise e ->
  exists v, e = KeyError v /\ In v s /\ ~ In v (Dict.keys t).
Proof.
  induction s as [|a s IH]; intros t e H; [discriminate|].
  simpl in H. destruct (Dict.get a t) as [n|] eqn:E.
  - destruct (IH _ _ H) as [v [He [Hv Hn]]]. exists v.
    split; [exact He|]. split; [now right|].
    rewrite DictFacts.keys_set_present in Hn; auto.
    eapply DictFacts.get_some_in_keys; eauto.
  - rewrite fold_res_raise in H by reflexivity. injection H as <-.
    exists a. split; [reflexivity|]. split; [now left|].
    now apply DictFacts.get_none_iff.
Qed.

Lemma count_rows_fold_raise g ks : forall t e,
  (forall u, In u ks -> In u (Dict.keys g)) ->
  fold_left (fun acc u => count_row g u acc) ks (Ret t) = Raise e ->
  exists u v, e = KeyError v /\ edge g u v /\ ~ In v (Dict.keys t).
Proof.
  induction ks as [|a ks IH]; intros t e Hk H; [discriminate|].
  simpl in H.
  destruct (DictFacts.in_keys_get_some a g) as [sa Ea]; [apply Hk; now left|].
  rewrite Ea in H.
  destruct (fold_left (fun acc v => count_incoming v acc) sa (Ret t)) as [t1|e1] eqn:E1.
  - assert (Hk1 : Dict.keys t1 = Dict.keys t).
    { assert (Hr : count_row g a (Ret t) = Ret t1) by (simpl; now rewrite Ea).
      now apply count_row_keys in Hr. }
    destruct (IH t1 e) as [u [v [He [Hedge Hn]]]]; auto.
    { intros u Hu. apply Hk. now right. }
    exists u, v. rewrite <- Hk1. auto.
  - rewrite fold_res_raise in H by reflexivity. injection H as <-.
    destruct (count_incoming_fold_raise _ _ _ E1) as [v [He [Hv Hn]]].
    exists a, v. split; [exact He|]. split; [now exists sa|exact Hn].
Qed.

Lemma in_degrees_raise g e :
  in_degrees g = Raise e ->
  exists u v, e = KeyError v /\ edge g u v /\ ~ In v (Dict.keys g).
Proof.
  unfold in_degrees. intros H.
  destruct (count_rows_fold_raise g _ _ _ (fun u Hu => Hu) H) as [u [v [He [Hedge Hn]]]].
  exists u, v. split; [exact He|]. split; [exact Hedge|].
  unfold Dict.keys in Hn. rewrite map_map in Hn. simpl in Hn.
  now rewrite map_id in Hn.
Qed.

(** X1: [_get_in_degree] never changes the object.  It returns exactly when
    every successor in the graph is itself a node; the table it returns has
    the nodes as keys, in the order of the graph, and maps each node to the
    number of nodes that list it as a successor.  Otherwise it raises
    [KeyError(v)] for a successor [v] of some node that is not a node. *)
Theorem get_in_degree_counts_prerequisites : forall d,
  wf (_graph d) ->
  snd (_get_in_degree d) = d /\
  (closed (_graph d) <-> exists t, fst (_get_in_degree d) = Ret t) /\
  (forall t, fst (_get_in_degree d) = Ret t ->
     Dict.keys t = Dict.keys (_graph d) /\
     forall v, In v (Dict.keys (_graph d)) ->
               Dict.get v t = Some (prerequisites (_graph d) v)) /\
  (forall e, fst (_get_in_degree d) = Raise e ->
     exists u v, e = KeyError v /\ edge (_graph d) u v /\
                 ~ In v (Dict.keys (_graph d))).
Proof.
  intros d Hwf. unfold _get_in_degree, bind, get_graph.
  split; [destruct (in_degrees (_graph d)); reflexivity|].
  split; [|split].
  - split.
    + intros Hc. destruct (in_degrees_correct _ Hwf Hc) as [t [Ht _]].
      exists t. now rewrite Ht.
    + intros [t Ht]. destruct (in_degrees (_graph d)) as [t'|e] eqn:E;
        [|discriminate]. eapply in_degrees_closed; eauto.
  - intros t Ht. destruct (in_degrees (_graph d)) as [t'|e] eqn:E; [|discriminate].
    injection Ht as ->.
    destruct (in_degrees_correct _ Hwf (in_degrees_closed _ _ E)) as [t' [Ht' [Hk Hdeg]]].
    rewrite E in Ht'. injection Ht' as <-. split; [exact Hk|].
    intros v Hv. rewrite (Hdeg v Hv). f_equal.
    apply indeg_start_prerequisites, Hwf.
  - intros e He. destruct (in_degrees (_graph d)) as [t'|e'] eqn:E; [discriminate|].
    injection He as ->. now apply in_degrees_raise.
Qed.

Lemma get_in_degree_counts_prerequisites_witness :
  let d := snd (__init__ (Some fan_in)) in
  wf (_graph d) /\
  exists t, fst (_get_in_degree d) = Ret t /\ Dict.get "s" t = Some 2.
Proof.
  intros d.
  assert (Hwf : wf (_graph d))
    by (apply built_wf; apply (built_init (Some fan_in) (Ret tt)); reflexivity).
  split; [exact Hwf|].
  destruct (get_in_degree_counts_prerequisites d Hwf) as [_ [H1 [H2 _]]].
  destruct (proj1 H1) as [t Ht]; [apply closedb_sound; reflexivity|].
  exists t. split; [exact Ht|].
  destruct (H2 t Ht) as [_ H]. apply (H "s"). simpl. auto.
Defined.

(** ** Restarting a walk *)

(** X2: [__iter__] called again at any point of a walk (after any pulls
    and completion reports, whatever they raised) puts the object back
    into the state the first [__iter__] produced: the in-degree table, the
    ready queue, the completed set and the yield counter are all rebuilt
    from the graph. *)
Theorem iter_restarts_walk : forall d d0 ys xs k d',
  __iter__ d = (Ret tt, d0) -> lifetime d0 ys xs k d' ->
  __iter__ d' = (Ret tt, d0).
Proof.
  intros d d0 ys xs k d' Hi Hl.
  destruct (lifetime_keeps_graph _ _ _ _ _ Hl) as [Hg [Ht Hlk]].
  destruct (iter_result _ _ Hi) as [t [Hdeg E0]].
  unfold __iter__. rewrite start_traverse_result.
  rewrite Hg, E0. cbn [_graph set_walk]. rewrite Hdeg.
  unfold set_walk. rewrite Hg, Ht, Hlk, E0. reflexivity.
Qed.

Lemma iter_restarts_walk_witness :
  let d := snd (__init__ (Some fan_in)) in
  let d0 := snd (__iter__ d) in
  let d1 := snd (node_done "p1" (snd (__next__ d0))) in
  lifetime d0 ["p1"] ["p1"] 0 d1 /\ __iter__ d1 = (Ret tt, d0).
Proof.
  intros d d0 d1.
  assert (Hl : lifetime d0 ["p1"] ["p1"] 0 d1).
  { apply (life_done d0 ["p1"] [] 0%nat (snd (__next__ d0)) "p1" (Ret tt));
      [|reflexivity].
    apply (life_yield d0 [] [] 0%nat d0 "p1"); [apply life_start|reflexivity]. }
  split; [exact Hl|].
  exact (iter_restarts_walk d d0 _ _ _ d1 eq_refl Hl).
Defined.

(** ** [topological_sort] on any closed graph *)

Lemma add_new_is_snoc n (s : PySet.t) : ~ In n s -> PySet.add n s = s ++ [n].
Proof.
  intros H. unfold PySet.add. apply PySetFacts.mem_false_iff in H. now rewrite H.
Qed.

Lemma ordered_path g l :
  (forall u v, edge g u v -> In v l -> before u v l) ->
  forall u v, path g u v -> In v l -> before u v l.
Proof.
  intros Hord u v Hp. induction Hp as [u v H|u w v H _ IH]; intros Hv; [auto|].
  specialize (IH Hv). destruct IH as [i [j [Hi [Hj Hij]]]].
  apply before_trans with w; [|exists i, j; auto].
  apply Hord; auto. eapply index_member; eauto.
Qed.

Lemma before_irrefl x l : ~ before x x l.
Proof.
  intros [i [j [Hi [Hj Hij]]]]. rewrite Hi in Hj. injection Hj as <-. lia.
Qed.

Lemma kahn_full_queue_empty g acc w :
  wf g -> kahn g acc acc w -> length acc = length g -> _queue w = [].
Proof.
  intros [NDk _] Hk Hlen.
  pose proof (kahn_nodup _ _ _ _ Hk) as ND.
  destruct Hk as [_ [_ [K3 _]]].
  destruct (_queue w) as [|q rest] eqn:Eq; [reflexivity|exfalso].
  assert (Hall : incl (Dict.keys g) acc).
  { apply NoDup_length_incl.
    - now apply NoDup_app_remove_r in ND.
    - unfold Dict.keys. rewrite length_map. lia.
    - intros v Hv. apply K3, in_app_iff. now left. }
  apply NoDup_remove_2 in ND. apply ND, in_app_iff. left.
  apply Hall, K3, in_app_iff. right. now left.
Qed.

Lemma consume_any g :
  wf g -> closed g ->
  forall fuel acc d w,
    0 <= _wait_timeout d < FLOAT_LIMIT ->
    _graph d = g -> walk_attrs d = Some w -> kahn g acc acc w ->
    _done w = acc ->
    _it_cnt w = Z.of_nat fuel -> (length acc + fuel = length g)%nat ->
    (forall u v, edge g u v -> In v acc -> before u v acc) ->
    exists r d',
      consume fuel acc d = Some (r, d') /\
      (r = Raise (if TIMEOUT_MAX <? _wait_timeout d then OverflowError
                  else SDKException timeout_message) \/
       exists l,
         r = Ret l /\ NoDup l /\ length l = length g /\
         (forall v, In v l -> In v (Dict.keys g)) /\
         (forall u v, edge g u v -> In v l -> before u v l) /\
         (exists w', walk_attrs d' = Some w' /\ _done w' = l) /\
         exists rest, l = acc ++ _queue w ++ rest).
Proof.
  intros Hwf Hc. induction fuel as [|fuel IH];
    intros acc d w Ht Hg Hw Hk Hdone Hcnt Hlen Hord.
  - exists (Ret acc), d. simpl.
    rewrite (next_result_stop _ _ Hw) by (rewrite Hcnt; simpl; lia).
    split; [reflexivity|]. right. exists acc.
    pose proof (kahn_nodup _ _ _ _ Hk) as ND. apply NoDup_app_remove_r in ND.
    assert (Hq : _queue w = [])
      by (apply (kahn_full_queue_empty g acc w Hwf Hk); lia).
    destruct Hk as [_ [_ [K3 _]]].
    split; [reflexivity|]. split; [exact ND|]. split; [lia|].
    split; [intros v Hv; apply K3, in_app_iff; now left|].
    split; [exact Hord|]. split; [eauto|].
    exists []. now rewrite Hq, !app_nil_r.
  - destruct (_queue w) as [|n rest] eqn:Eq.
    { assert (Hpos : 0 < _it_cnt w) by lia.
      exists (Raise (if TIMEOUT_MAX <? _wait_timeout d then OverflowError
                     else SDKException timeout_message)),
             (set_walk (mkWalk (_run_in_degree w) [] (_done w) (_it_cnt w - 1)) d).
      simpl consume. rewrite (next_result_empty _ _ Hw Ht Hpos Eq).
      split; [|now left]. destruct (TIMEOUT_MAX <? _wait_timeout d); reflexivity. }
    pose proof (kahn_nodup _ _ _ _ Hk) as ND. rewrite Eq in ND.
    assert (Hn_new : ~ In n acc).
    { apply NoDup_remove_2 in ND. intros H. apply ND, in_app_iff. now left. }
    assert (Hn_zero : indeg g acc n = 0).
    { apply (kahn_enqueued_zero g acc acc w); auto.
      rewrite Eq. apply in_app_iff. right. now left. }
    assert (Hn_key : In n (Dict.keys g)).
    { destruct Hk as [_ [_ [K3 _]]]. apply K3. rewrite Eq.
      apply in_app_iff. right. now left. }
    set (w1 := mkWalk (_run_in_degree w) rest (_done w) (_it_cnt w - 1)).
    assert (Hk1 : kahn g (acc ++ [n]) acc w1).
    { destruct Hk as [K1 [K2 [K3 K4]]]. unfold kahn, w1. simpl.
      rewrite <- app_assoc. simpl. rewrite Eq in K3, K4. auto. }
    destruct (node_done_kahn g (acc ++ [n]) acc n (set_walk w1 d) w1
                Hwf Hc Hg eq_refl Hk1 Hn_key Hn_new)
      as [w2 [Hdo [Hk2 [Hcnt2 [Hdone2 Hq2]]]]].
    destruct (IH (acc ++ [n]) (set_walk w2 (set_walk w1 d)) w2)
      as [r [d' [Hrun Hres]]]; auto.
    + rewrite Hdone2. unfold w1. cbn [_done]. rewrite Hdone.
      now apply add_new_is_snoc.
    + rewrite Hcnt2. unfold w1. simpl. lia.
    + rewrite length_app. simpl. lia.
    + intros u v He Hv. apply in_app_iff in Hv. destruct Hv as [Hv|[<-|[]]].
      * apply before_app_left. eauto.
      * apply before_snoc; auto. eapply indeg_zero_preds; eauto.
    + exists r, d'. split.
      * simpl consume.
        assert (Hpos : 0 < _it_cnt w) by lia.
        rewrite (next_result_item _ _ _ _ Hw Ht Hpos Eq).
        fold w1. rewrite Hdo. exact Hrun.
      * destruct Hres as [E|[l [E [H1 [H2 [H3 [H4 [H5 [tail H6]]]]]]]]]; [now left|].
        right. exists l. repeat (split; [assumption|]).
        rewrite Hq2 in H6. unfold w1 in H6. cbn [_queue _run_in_degree] in H6.
        eexists. rewrite H6. rewrite <- !app_assoc. simpl. reflexivity.
Qed.

Lemma sort_any d :
  0 <= _wait_timeout d < FLOAT_LIMIT -> wf (_graph d) -> closed (_graph d) ->
  exists r d',
    topological_sort d = Some (r, d') /\
    (r = Raise (if TIMEOUT_MAX <? _wait_timeout d then OverflowError
                else SDKException timeout_message) \/
     exists l,
       r = Ret l /\ NoDup l /\ length l = length (_graph d) /\
       (forall v, In v l <-> In v (Dict.keys (_graph d))) /\
       (forall u v, edge (_graph d) u v -> In v l -> before u v l) /\
       (exists w', walk_attrs d' = Some w' /\ _done w' = l) /\
       exists t rest, in_degrees (_graph d) = Ret t /\ l = seeds t ++ rest).
Proof.
  intros Htime Hwf Hc.
  destruct (in_degrees_correct _ Hwf Hc) as [t [Ht [Hk Hdeg]]].
  unfold topological_sort, __iter__. rewrite start_traverse_result, Ht.
  cbn [_graph set_walk].
  set (w0 := mkWalk t (seeds t) PySet.empty (Dict.len (_graph d))).
  assert (Hk0 : kahn (_graph d) [] [] w0) by (now apply kahn_start).
  destruct (consume_any (_graph d) Hwf Hc (length (_graph d)) []
              (mkDAG (_graph d) (_wait_timeout d) (_lock d) (Some w0)) w0)
    as [r [d' [Hrun Hres]]]; auto.
  { intros u v _ []. }
  exists r, d'. split; [exact Hrun|].
  destruct Hres as [E|[l [E [ND [Hlen [Hin [Hord [Hdone [rest Hl]]]]]]]]]; [now left|].
  right. exists l. split; [exact E|]. split; [exact ND|]. split; [exact Hlen|].
  split; [|split; [exact Hord|split; [exact Hdone|]]].
  - intros v. split; [apply Hin|]. revert v. apply NoDup_length_incl; auto.
    unfold Dict.keys. rewrite length_map. lia.
  - exists t, rest. split; [reflexivity|exact Hl].
Qed.

(** X3: on a graph in which every successor is a node, and with a wait
    timeout that [queue.get] accepts (not negative, not too large for a
    float), [topological_sort] returns a list exactly when the graph has no
    cycle.  On a graph with a cycle it raises instead: the timeout
    [SDKException] when the timeout is at most [threading.TIMEOUT_MAX] and
    [OverflowError] when it is larger.  So a cycle is never silently
    sorted. *)
Theorem topological_sort_returns_iff_acyclic : forall d,
  0 <= _wait_timeout d < FLOAT_LIMIT -> wf (_graph d) -> closed (_graph d) ->
  (acyclic (_graph d) <-> exists l d', topological_sort d = Some (Ret l, d')) /\
  ((exists x, path (_graph d) x x) ->
   (_wait_timeout d <= TIMEOUT_MAX ->
    exists d', topological_sort d = Some (Raise (SDKException timeout_message), d')) /\
   (TIMEOUT_MAX < _wait_timeout d ->
    exists d', topological_sort d = Some (Raise OverflowError, d'))).
Proof.
  intros d Htime Hwf Hc.
  assert (Hcyc : (exists x, path (_graph d) x x) ->
                 exists d', topological_sort d =
                            Some (Raise (if TIMEOUT_MAX <? _wait_timeout d
                                         then OverflowError
                                         else SDKException timeout_message), d')).
  { intros [x Hp]. destruct (sort_any d Htime Hwf Hc) as [r [d' [Hrun Hres]]].
    destruct Hres as [->|[l [_ [_ [_ [Hin [Hord _]]]]]]]; [eauto|exfalso].
    assert (Hx : In x l).
    { apply Hin. inversion Hp; subst; eapply edge_source_is_node; eauto. }
    exact (before_irrefl x l (ordered_path _ l Hord x x Hp Hx)). }
  split; [split|].
  - intros Hac. destruct (topological_sort_kahn d Htime Hwf Hc Hac) as [l [d' [H _]]].
    eauto.
  - intros [l [d' Hrun]] x Hp. destruct Hcyc as [d2 H]; [eauto|].
    rewrite Hrun in H. destruct (TIMEOUT_MAX <? _wait_timeout d); discriminate.
  - intros Hx. destruct (Hcyc Hx) as [d' H].
    destruct (Z.ltb_spec TIMEOUT_MAX (_wait_timeout d)); split; intros; try lia; eauto.
Qed.

Lemma topological_sort_returns_iff_acyclic_witness :
  let d := snd (__init__ (Some two_cycle)) in
  0 <= _wait_timeout d < FLOAT_LIMIT /\ wf (_graph d) /\ closed (_graph d) /\
  exists d', topological_sort d = Some (Raise (SDKException timeout_message), d').
Proof.
  intros d.
  assert (Ht : 0 <= _wait_timeout d < FLOAT_LIMIT)
    by exact (waitable_is_accepted _ default_timeout_waitable).
  assert (Hwf : wf (_graph d))
    by (apply built_wf; apply (built_init (Some two_cycle) (Ret tt)); reflexivity).
  assert (Hc : closed (_graph d)) by (apply closedb_sound; reflexivity).
  split; [exact Ht|]. split; [exact Hwf|]. split; [exact Hc|].
  apply (proj2 (topological_sort_returns_iff_acyclic d Ht Hwf Hc)).
  - exists "a". apply path_step with "b";
      [exists ["b"]; split; [reflexivity|simpl; auto]|].
    apply path_edge. exists ["a"]. split; [reflexivity|simpl; auto].
  - exact (proj2 default_timeout_waitable).
Defined.

Lemma table_is_map (t : Dict.t Z) (f : node -> Z) :
  NoDup (Dict.keys t) ->
  (forall k, In k (Dict.keys t) -> Dict.get k t = Some (f k)) ->
  t = map (fun k => (k, f k)) (Dict.keys t).
Proof.
  induction t as [|[k n] t IH]; intros ND H; [reflexivity|].
  simpl in ND. inversion ND as [|? ? Hk ND']; subst. simpl. f_equal.
  - specialize (H k (or_introl eq_refl)). simpl in H.
    rewrite String.eqb_refl in H. now injection H as ->.
  - apply IH; auto. intros k' Hk'. specialize (H k' (or_intror Hk')).
    simpl in H. destruct (String.eqb_spec k' k) as [E|N]; [subst; contradiction|exact H].
Qed.

Lemma seeds_map (f : node -> Z) ks :
  seeds (map (fun k => (k, f k)) ks) = filter (fun k => f k =? 0) ks.
Proof.
  unfold seeds. induction ks as [|k ks IH]; [reflexivity|].
  simpl. destruct (f k =? 0); simpl; now rewrite IH.
Qed.

Lemma no_match_iff {A} (p : A -> bool) l :
  (Z.of_nat (length (filter p l)) =? 0) = negb (existsb p l).
Proof.
  induction l as [|a l IH]; [reflexivity|].
  simpl. destruct (p a); simpl; [reflexivity|exact IH].
Qed.

Lemma seeds_are_sources g t :
  wf g -> in_degrees g = Ret t -> seeds t = sources g.
Proof.
  intros Hwf Ht.
  destruct (in_degrees_correct g Hwf (in_degrees_closed _ _ Ht)) as [t' [Ht' [Hk Hdeg]]].
  rewrite Ht in Ht'. injection Ht' as <-.
  rewrite (table_is_map t (prerequisites g)).
  - rewrite seeds_map, Hk. unfold sources. apply filter_ext.
    intros v. unfold prerequisites. apply no_match_iff.
  - rewrite Hk. apply Hwf.
  - intros k Hin. rewrite Hk in Hin. rewrite (Hdeg k Hin). f_equal.
    apply indeg_start_prerequisites, Hwf.
Qed.

Lemma nodup_app_disjoint {A} (l1 l2 : list A) x :
  NoDup (l1 ++ l2) -> In x l1 -> In x l2 -> False.
Proof.
  induction l1 as [|a l1 IH]; simpl; intros ND H1 H2; [contradiction|].
  inversion ND as [|? ? Ha ND']; subst. destruct H1 as [->|H1]; [|eauto].
  apply Ha, in_app_iff. now right.
Qed.

Lemma is_complete_result d w :
  walk_attrs d = Some w ->
  is_complete d =
  (Ret (Z.of_nat (length (_done w)) =? Z.of_nat (length (Dict.keys (_graph d)))), d).
Proof.
  intros H. unfold is_complete, bind, get_walk. now rewrite H.
Qed.

(** X4: the list [topological_sort] returns for an acyclic graph (with a
    wait timeout that [queue.get] accepts: not negative, not too large for
    a float) starts with the nodes that have no prerequisite, in the order
    in which they were added to the graph; every node with a prerequisite
    comes after them. *)
Theorem topological_sort_sources_first : forall d,
  0 <= _wait_timeout d < FLOAT_LIMIT -> wf (_graph d) -> closed (_graph d) ->
  acyclic (_graph d) ->
  exists l d' rest,
    topological_sort d = Some (Ret l, d') /\
    l = sources (_graph d) ++ rest /\
    forall v, In v rest -> exists u, edge (_graph d) u v.
Proof.
  intros d Htime Hwf Hc Hac.
  destruct (topological_sort_kahn d Htime Hwf Hc Hac) as [l [d' [Hrun _]]].
  destruct (sort_any d Htime Hwf Hc) as [r [d2 [Hrun2 Hres]]].
  rewrite Hrun in Hrun2. injection Hrun2 as <- <-.
  destruct Hres as [E|[l' [E [ND [_ [Hin [_ [_ [t [rest [Ht Hl]]]]]]]]]]]; [discriminate|].
  injection E as <-. rewrite (seeds_are_sources _ _ Hwf Ht) in Hl.
  exists l, d', rest. split; [exact Hrun|]. split; [exact Hl|].
  intros v Hv.
  assert (Hkey : In v (Dict.keys (_graph d))).
  { apply Hin. rewrite Hl. apply in_app_iff. now right. }
  assert (Hns : ~ In v (sources (_graph d))).
  { rewrite Hl in ND. intros Hs. exact (nodup_app_disjoint _ _ v ND Hs Hv). }
  destruct (existsb (fun u => edgeb (_graph d) u v) (Dict.keys (_graph d))) eqn:E.
  - apply existsb_exists in E as [u [_ He]]. exists u. now apply edge_iff_edgeb.
  - exfalso. apply Hns. apply filter_In. split; [exact Hkey|now rewrite E].
Qed.

Lemma topological_sort_sources_first_witness :
  let d := snd (__init__ (Some fan_in)) in
  0 <= _wait_timeout d < FLOAT_LIMIT /\ wf (_graph d) /\ closed (_graph d) /\
  acyclic (_graph d) /\
  exists l d' rest,
    topological_sort d = Some (Ret l, d') /\ l = ["p1"; "p2"] ++ rest.
Proof.
  intros d.
  assert (Ht : 0 <= _wait_timeout d < FLOAT_LIMIT)
    by exact (waitable_is_accepted _ default_timeout_waitable).
  assert (Hwf : wf (_graph d))
    by (apply built_wf; apply (built_init (Some fan_in) (Ret tt)); reflexivity).
  assert (Hc : closed (_graph d)) by (apply closedb_sound; reflexivity).
  assert (Hac : acyclic (_graph d))
    by (apply (rankedb_sound ["p1"; "p2"; "s"]); reflexivity).
  split; [exact Ht|]. split; [exact Hwf|]. split; [exact Hc|]. split; [exact Hac|].
  destruct (topological_sort_sources_first d Ht Hwf Hc Hac)
    as [l [d' [rest [H1 [H2 _]]]]].
  exists l, d', rest. split; [exact H1|exact H2].
Defined.

(** X5: after [topological_sort] has returned a list, the completed set
    holds exactly the returned nodes (the same members, and as many of
    them as the list is long), and [is_complete] returns [True]. *)
Theorem topological_sort_completes_walk : forall d l d',
  0 <= _wait_timeout d < FLOAT_LIMIT -> wf (_graph d) -> closed (_graph d) ->
  topological_sort d = Some (Ret l, d') ->
  (forall v, PySet.mem v (done_of d') = true <-> In v l) /\
  length (done_of d') = length l /\
  is_complete d' = (Ret true, d').
Proof.
  intros d l d' Htime Hwf Hc Hrun.
  destruct (sort_any d Htime Hwf Hc) as [r [d2 [Hrun2 Hres]]].
  rewrite Hrun in Hrun2. injection Hrun2 as <- <-.
  destruct Hres as [E|[l' [E [_ [Hlen [_ [_ [[w' [Hw' Hdone]] _]]]]]]]].
  { destruct (TIMEOUT_MAX <? _wait_timeout d); discriminate. }
  injection E as <-.
  pose proof (stable_topological_sort _ keeps_graph_refl keeps_graph_trans
                put_walk_keeps_graph _ _ _ Hrun) as [Hg _].
  assert (Hd : done_of d' = l) by (unfold done_of; now rewrite Hw').
  split; [intros v; rewrite Hd; apply PySetFacts.mem_true_iff|].
  split; [now rewrite Hd|].
  rewrite (is_complete_result _ _ Hw'), Hdone, Hlen, Hg.
  unfold Dict.keys. rewrite length_map. now rewrite Z.eqb_refl.
Qed.

Lemma topological_sort_completes_walk_witness :
  let d := snd (__init__ (Some fan_in)) in
  exists l d', topological_sort d = Some (Ret l, d') /\
               is_complete d' = (Ret true, d').
Proof.
  intros d.
  destruct (topological_sort_total d) as [r [d' H]].
  assert (Hr : r = Ret ["p1"; "p2"; "s"]).
  { apply (f_equal (option_map fst)) in H. vm_compute in H. now injection H as <-. }
  subst r. exists ["p1"; "p2"; "s"], d'. split; [exact H|].
  apply (topological_sort_completes_walk d ["p1"; "p2"; "s"] d');
    [exact (waitable_is_accepted _ default_timeout_waitable)|
     |apply closedb_sound; reflexivity|exact H].
  apply built_wf. apply (built_init (Some fan_in) (Ret tt)). reflexivity.
Defined.

(** ** The completed set and [is_complete] *)

Lemma release_loop_done vs : forall d w,
  walk_attrs d = Some w ->
  exists w', walk_attrs (snd (for_each vs release d)) = Some w' /\
             _done w' = _done w.
Proof.
  induction vs as [|v vs IH]; intros d w Hw; simpl; [eauto|].
  unfold bind. rewrite (release_result _ _ _ Hw).
  destruct (Dict.get v (_run_in_degree w)) as [n|]; [|simpl; eauto].
  match goal with |- context [for_each vs release (set_walk ?w1 d)] =>
    destruct (IH (set_walk w1 d) w1 eq_refl) as [w' [Hw' Hd]] end.
  exists w'. split; [exact Hw'|exact Hd].
Qed.

Lemma node_done_marks n d w :
  walk_attrs d = Some w ->
  exists w', walk_attrs (snd (node_done n d)) = Some w' /\
             _done w' = PySet.add n (_done w).
Proof.
  intros Hw. rewrite (node_done_result _ _ _ Hw). cbv zeta.
  destruct (Dict.get n (_graph d)) as [ss|]; [|simpl; eauto].
  match goal with |- context [for_each ss release (set_walk ?w1 d)] =>
    destruct (release_loop_done ss (set_walk w1 d) w1 eq_refl) as [w' [Hw' Hd]] end.
  exists w'. split; [exact Hw'|exact Hd].
Qed.

Lemma lifetime_done d d0 ys xs k d' :
  __iter__ d = (Ret tt, d0) -> lifetime d0 ys xs k d' ->
  exists w, walk_attrs d' = Some w /\ NoDup (_done w) /\
            forall v, In v (_done w) <-> In v xs.
Proof.
  intros Hi Hl. destruct (iter_result _ _ Hi) as [t [Ht ->]].
  induction Hl as [|ys xs k d1 n d2 _ IH H|ys xs k d1 e d2 _ IH H Hne
                   |ys xs k d1 d2 _ IH H|ys xs k d1 n r d2 _ IH H].
  - eexists. split; [reflexivity|]. simpl. split; [constructor|tauto].
  - destruct IH as [w [Hw Hd]].
    destruct (next_cases _ _ _ _ Hw H)
      as [[E _]|[Hpos [[m [rest [E [Eq [_ ->]]]]]|[e [E _]]]]]; try discriminate.
    eexists. split; [reflexivity|exact Hd].
  - destruct IH as [w [Hw Hd]].
    destruct (next_cases _ _ _ _ Hw H)
      as [[E _]|[Hpos [[m [rest [E _]]]|[e' [E [_ [-> _]]]]]]]; try discriminate.
    + injection E as ->. contradiction.
    + eexists. split; [reflexivity|exact Hd].
  - destruct IH as [w [Hw Hd]].
    destruct (next_cases _ _ _ _ Hw H)
      as [[_ [-> _]]|[Hpos [[m [rest [E _]]]|[e' [E [Hne _]]]]]]; try discriminate.
    + eauto.
    + injection E as <-. contradiction.
  - destruct IH as [w [Hw [ND Hd]]].
    apply (f_equal snd) in H. cbn [snd] in H. subst d2.
    destruct (node_done_marks n d1 w Hw) as [w' [Hw' E]].
    exists w'. split; [exact Hw'|]. rewrite E.
    split; [now apply PySetFacts.nodup_add|].
    intros v. rewrite PySetFacts.in_add, in_app_iff, Hd. simpl. intuition.
Qed.

(** X6: at any point of a walk in which only nodes of the graph have been
    reported, [is_complete] returns normally, and returns [True] exactly
    when every node of the graph has been reported (reporting a node twice
    does not count twice). *)
Theorem is_complete_iff_all_reported : forall d d0 ys xs k d',
  wf (_graph d) -> __iter__ d = (Ret tt, d0) -> lifetime d0 ys xs k d' ->
  incl xs (Dict.keys (_graph d)) ->
  exists b,
    is_complete d' = (Ret b, d') /\
    (b = true <-> forall v, In v (Dict.keys (_graph d)) -> In v xs).
Proof.
  intros d d0 ys xs k d' [NDk _] Hi Hl Hincl.
  destruct (lifetime_done _ _ _ _ _ _ Hi Hl) as [w [Hw [ND Hd]]].
  destruct (lifetime_keeps_graph _ _ _ _ _ Hl) as [Hg _].
  destruct (iter_result _ _ Hi) as [t [_ E0]].
  assert (Hg' : _graph d' = _graph d) by (rewrite Hg, E0; reflexivity).
  eexists. split; [apply (is_complete_result _ _ Hw)|].
  rewrite Hg', Z.eqb_eq, Nat2Z.inj_iff.
  assert (Hsub : incl (_done w) (Dict.keys (_graph d))).
  { intros v Hv. apply Hincl, Hd, Hv. }
  split.
  - intros Hlen v Hv. apply Hd. revert v Hv.
    apply NoDup_length_incl; auto. lia.
  - intros Hall. apply Nat.le_antisymm.
    + now apply NoDup_incl_length.
    + apply NoDup_incl_length; auto. intros v Hv. apply Hd, Hall, Hv.
Qed.

Lemma is_complete_iff_all_reported_witness :
  let d := snd (__init__ (Some [("a", [])])) in
  let d0 := snd (__iter__ d) in
  let d1 := snd (node_done "a" d0) in
  wf (_graph d) /\ lifetime d0 [] ["a"] 0 d1 /\
  incl ["a"] (Dict.keys (_graph d)) /\
  is_complete d1 = (Ret true, d1).
Proof.
  intros d d0 d1.
  assert (Hwf : wf (_graph d))
    by (apply built_wf; apply (built_init (Some [("a", [])]) (Ret tt)); reflexivity).
  assert (Hl : lifetime d0 [] ["a"] 0 d1).
  { apply (life_done d0 [] [] 0%nat d0 "a" (Ret tt)); [apply life_start|reflexivity]. }
  assert (Hin : incl ["a"] (Dict.keys (_graph d))) by (intros v Hv; exact Hv).
  split; [exact Hwf|]. split; [exact Hl|]. split; [exact Hin|].
  destruct (is_complete_iff_all_reported d d0 [] ["a"] 0%nat d1 Hwf eq_refl Hl Hin)
    as [b [Hb Hiff]].
  rewrite Hb. f_equal. f_equal. apply Hiff. intros v Hv. exact Hv.
Defined.

(** X7: [node_done] of an identifier that is not a node of the graph
    raises [KeyError] for it, but only after it has put the identifier into
    the completed set; the in-degree table, the ready queue and the yield
    counter are untouched. *)
Theorem node_done_unknown_node : forall d w n,
  walk_attrs d = Some w -> ~ In n (Dict.keys (_graph d)) ->
  exists d',
    node_done n d = (Raise (KeyError n), d') /\
    _graph d' = _graph d /\
    (forall v, In v (done_of d') <-> v = n \/ In v (done_of d)) /\
    in_degree_of d' = in_degree_of d /\ queue_of d' = queue_of d /\
    exists w', walk_attrs d' = Some w' /\ _it_cnt w' = _it_cnt w.
Proof.
  intros d w n Hw Hn. apply DictFacts.get_none_iff in Hn.
  rewrite (node_done_result _ _ _ Hw), Hn. cbv zeta.
  eexists. split; [reflexivity|].
  unfold done_of, in_degree_of, queue_of. rewrite Hw. simpl.
  split; [reflexivity|]. split; [intros v; apply PySetFacts.in_add|].
  repeat split. eauto.
Qed.

Lemma node_done_unknown_node_witness :
  let d0 := snd (__iter__ (snd (__init__ (Some fan_in)))) in
  exists w, walk_attrs d0 = Some w /\
            ~ In "x" (Dict.keys (_graph d0)) /\
            exists d', node_done "x" d0 = (Raise (KeyError "x"), d') /\
                       In "x" (done_of d').
Proof.
  intros d0. eexists. split; [reflexivity|].
  assert (Hn : ~ In "x" (Dict.keys (_graph d0))) by (simpl; intuition discriminate).
  split; [exact Hn|].
  destruct (node_done_unknown_node d0 _ "x" eq_refl Hn) as [d' [H1 [_ [H2 _]]]].
  exists d'. split; [exact H1|]. apply H2. now left.
Defined.

(** ** Reporting the same node twice *)

Lemma reaches_zero_is_count_one t v : reaches_zero t v = has_count t 1 v.
Proof.
  unfold reaches_zero, has_count. destruct (Dict.get v t) as [n|]; [|reflexivity].
  destruct (Z.eqb_spec (n - 1) 0), (Z.eqb_spec n 1); auto; lia.
Qed.

(** X8: [node_done] does not remember what was reported: a second report
    of the same node takes one more from the in-degree of each of its
    successors, so a successor whose count was two is put on the ready
    queue by the second report, whether or not its other prerequisite has
    reported. *)
Theorem node_done_twice_counts_twice : forall d w x ss,
  walk_attrs d = Some w -> Dict.get x (_graph d) = Some ss -> NoDup ss ->
  (forall v, In v ss -> In v (Dict.keys (_run_in_degree w))) ->
  exists d1 d2,
    node_done x d = (Ret tt, d1) /\ node_done x d1 = (Ret tt, d2) /\
    (forall v n, In v ss -> Dict.get v (in_degree_of d) = Some n ->
                 Dict.get v (in_degree_of d2) = Some (n - 2)) /\
    (forall v, ~ In v ss ->
               Dict.get v (in_degree_of d2) = Dict.get v (in_degree_of d)) /\
    queue_of d2 =
      queue_of d ++ filter (has_count (in_degree_of d) 1) ss
                 ++ filter (has_count (in_degree_of d) 2) ss.
Proof.
  intros d w x ss Hw Hx ND Hin.
  destruct (node_done_exact x d w ss Hw Hx ND Hin) as [t1 [Hd1 [Hk1 Hg1]]].
  set (w1 := mkWalk t1 (_queue w ++ filter (reaches_zero (_run_in_degree w)) ss)
                    (PySet.add x (_done w)) (_it_cnt w)) in Hd1.
  destruct (node_done_exact x (set_walk w1 d) w1 ss eq_refl Hx ND) as [t2 [Hd2 [Hk2 Hg2]]].
  { intros v Hv. unfold w1. cbn [_run_in_degree]. rewrite Hk1. auto. }
  eexists. eexists. split; [exact Hd1|]. split; [exact Hd2|].
  unfold in_degree_of, queue_of. rewrite Hw. simpl.
  unfold w1 in Hg2. cbn [_run_in_degree] in Hg2.
  split; [|split].
  - intros v n Hv Hn. rewrite Hg2, Hg1. apply PySetFacts.mem_true_iff in Hv.
    rewrite Hv, Hn. simpl. f_equal. lia.
  - intros v Hv. rewrite Hg2, Hg1. apply PySetFacts.mem_false_iff in Hv.
    now rewrite Hv.
  - rewrite <- app_assoc. f_equal. f_equal.
    + apply filter_ext. intros v. apply reaches_zero_is_count_one.
    + apply filter_ext_in. intros v Hv. unfold reaches_zero, has_count.
      rewrite Hg1. apply PySetFacts.mem_true_iff in Hv. rewrite Hv.
      destruct (Dict.get v (_run_in_degree w)) as [n|]; [|reflexivity]. simpl.
      destruct (Z.eqb_spec (n - 1 - 1) 0), (Z.eqb_spec n 2); auto; lia.
Qed.

Lemma node_done_twice_counts_twice_witness :
  let d0 := snd (__iter__ (snd (__init__ (Some fan_in)))) in
  exists d1 d2,
    node_done "p1" d0 = (Ret tt, d1) /\ node_done "p1" d1 = (Ret tt, d2) /\
    queue_of d2 = ["p1"; "p2"; "s"].
Proof.
  intros d0.
  destruct (node_done_twice_counts_twice d0 _ "p1" ["s"] eq_refl eq_refl)
    as [d1 [d2 [H1 [H2 [_ [_ H3]]]]]].
  - repeat constructor. simpl. tauto.
  - intros v [<-|[]]. simpl. auto.
  - exists d1, d2. split; [exact H1|]. split; [exact H2|]. rewrite H3. reflexivity.
Defined.

(** ** The graph built by [project_cleanup] *)

Lemma closed_setdefault n g : closed g -> closed (Dict.setdefault n PySet.empty g).
Proof.
  intros Hc. unfold Dict.setdefault.
  destruct (Dict.get n g) eqn:E; [exact Hc|].
  rewrite DictFacts.set_absent by auto. intros u v [s [Hs Hv]].
  unfold Dict.keys. rewrite map_app, in_app_iff. left.
  destruct (Dict.get u g) as [s'|] eqn:Eu.
  - rewrite (DictFacts.get_app_left _ _ _ _ Eu) in Hs. injection Hs as <-.
    apply (Hc u v). now exists s'.
  - rewrite DictFacts.get_app_right in Hs by auto. simpl in Hs.
    destruct (String.eqb u n); [|discriminate]. injection Hs as <-. destruct Hv.
Qed.

Lemma keys_setdefault n (g : graph) k :
  In k (Dict.keys g) -> In k (Dict.keys (Dict.setdefault n PySet.empty g)).
Proof.
  intros H. unfold Dict.setdefault. destruct (Dict.get n g) eqn:E; [exact H|].
  rewrite DictFacts.set_absent by auto. unfold Dict.keys.
  rewrite map_app, in_app_iff. now left.
Qed.

Lemma in_keys_setdefault n (g : graph) :
  In n (Dict.keys (Dict.setdefault n PySet.empty g)).
Proof.
  unfold Dict.setdefault. destruct (Dict.get n g) eqn:E.
  - eapply DictFacts.get_some_in_keys; eauto.
  - rewrite DictFacts.set_absent by auto. unfold Dict.keys.
    rewrite map_app, in_app_iff. right. now left.
Qed.

Lemma closed_set_add u v s g :
  closed g -> Dict.get u g = Some s -> In v (Dict.keys g) ->
  closed (Dict.set u (PySet.add v s) g).
Proof.
  intros Hc Hu Hv x y [s' [Hs' Hy]].
  rewrite DictFacts.keys_set_present by (eapply DictFacts.get_some_in_keys; eauto).
  destruct (String.eqb_spec x u) as [->|N].
  - rewrite DictFacts.get_set_same in Hs'. injection Hs' as <-.
    apply PySetFacts.in_add in Hy as [->|Hy]; [exact Hv|].
    apply (Hc u y). now exists s.
  - rewrite DictFacts.get_set_other in Hs' by auto. apply (Hc x y). now exists s'.
Qed.

Lemma keeps_closed_with_refl k d : keeps_closed_with k d d.
Proof. now intros H. Qed.

Lemma keeps_closed_with_trans k d1 d2 d3 :
  keeps_closed_with k d1 d2 -> keeps_closed_with k d2 d3 -> keeps_closed_with k d1 d3.
Proof. unfold keeps_closed_with. auto. Qed.

Lemma add_node_keeps_closed_with k n : stable (keeps_closed_with k) (add_node n).
Proof.
  intros d [Hwf [Hc Hk]]. simpl. split; [now apply wf_setdefault|].
  split; [now apply closed_setdefault|now apply keys_setdefault].
Qed.

Lemma add_edge_keeps_closed_with k u v d :
  In v (Dict.keys (_graph d)) -> keeps_closed_with k d (snd (add_edge u v d)).
Proof.
  intros Hv [Hwf [Hc Hk]]. destruct (Dict.get u (_graph d)) as [s|] eqn:E.
  - rewrite (add_edge_present _ _ _ _ E). unfold closed_with.
    cbn [snd _graph set_graph].
    split; [now apply wf_set_add|]. split; [now apply closed_set_add|].
    rewrite DictFacts.keys_set_present; auto.
    eapply DictFacts.get_some_in_keys; eauto.
  - rewrite (add_edge_absent _ _ _ E). exact (conj Hwf (conj Hc Hk)).
Qed.

Lemma before_edge_keeps_closed_with k dep :
  stable (keeps_closed_with k) (add_node dep ;; add_edge k dep).
Proof.
  intros d H. unfold bind.
  pose proof (add_node_keeps_closed_with k dep d H) as H1.
  destruct (add_node dep d) as [[[]|e] d1] eqn:E; simpl in H1; [|exact H1].
  apply add_edge_keeps_closed_with; [|exact H1].
  apply (f_equal snd) in E. cbn [snd] in E. subst d1. simpl.
  apply in_keys_setdefault.
Qed.

Lemma after_edge_keeps_closed_with k dep :
  stable (keeps_closed_with k) (add_edge dep k).
Proof.
  intros d H. apply add_edge_keeps_closed_with; [apply H|exact H].
Qed.

Lemma keeps_closed_refl d : keeps_closed d d.
Proof. now intros H. Qed.

Lemma keeps_closed_trans d1 d2 d3 :
  keeps_closed d1 d2 -> keeps_closed d2 d3 -> keeps_closed d1 d3.
Proof. unfold keeps_closed. auto. Qed.

Lemma add_dependencies_keeps_closed kv : stable keeps_closed (add_dependencies kv).
Proof.
  intros d [Hwf Hc]. destruct kv as [k [bs af]]. unfold add_dependencies.
  cbn [fst snd deps_before deps_after].
  assert (H1 : closed_with k (snd (add_node k d))).
  { simpl. split; [now apply wf_setdefault|].
    split; [now apply closed_setdefault|apply in_keys_setdefault]. }
  cut (closed_with k (snd
         ((add_node k ;;
           match bs with
           | Some deps => for_each deps (fun dep => add_node dep ;; add_edge k dep)
           | None => raise (KeyError "before")
           end ;;
           for_each (match af with Some deps => deps | None => [] end)
                    (fun dep => add_edge dep k)) d))).
  { intros [H2 [H3 _]]. now split. }
  unfold bind at 1. destruct (add_node k d) as [[[]|e] d1]; cbn [snd] in *; [|exact H1].
  apply (stable_bind (keeps_closed_with k) (keeps_closed_with_trans k)); [| |exact H1].
  - destruct bs as [deps|]; [|apply stable_raise; apply keeps_closed_with_refl].
    apply (stable_for_each _ (keeps_closed_with_refl k) (keeps_closed_with_trans k)).
    intros dep. apply before_edge_keeps_closed_with.
  - intros _.
    apply (stable_for_each _ (keeps_closed_with_refl k) (keeps_closed_with_trans k)).
    intros dep. apply after_edge_keeps_closed_with.
Qed.

Lemma before_edges_succeed k deps : forall d,
  In k (Dict.keys (_graph d)) ->
  fst (for_each deps (fun dep => add_node dep ;; add_edge k dep) d) = Ret tt.
Proof.
  induction deps as [|dep deps IH]; intros d Hk; [reflexivity|].
  simpl. unfold bind at 1. unfold bind at 1.
  assert (Hk1 : In k (Dict.keys (_graph (snd (add_node dep d)))))
    by (simpl; now apply keys_setdefault).
  destruct (add_node dep d) as [[[]|e] d1] eqn:E1; [|discriminate E1].
  cbn [snd] in Hk1. destruct (DictFacts.in_keys_get_some _ _ Hk1) as [s Hs].
  rewrite (add_edge_present _ _ _ _ Hs). apply IH. simpl.
  now rewrite DictFacts.keys_set_present.
Qed.

Lemma dependencies_without_after_succeed dependencies : forall d,
  (forall kv, In kv dependencies ->
     deps_before (snd kv) <> None /\
     (deps_after (snd kv) = None \/ deps_after (snd kv) = Some [])) ->
  fst (for_each dependencies add_dependencies d) = Ret tt.
Proof.
  induction dependencies as [|[k [bs af]] deps IH]; intros d1 Hall; [reflexivity|].
  destruct (Hall _ (or_introl eq_refl)) as [Hb Ha].
  cbn [snd deps_before deps_after] in Hb, Ha.
  destruct bs as [bl|]; [|congruence].
  cbn [for_each]. unfold bind at 1. unfold add_dependencies at 1.
  cbn [fst snd deps_before deps_after]. unfold bind at 1.
  assert (Hk : In k (Dict.keys (_graph (snd (add_node k d1)))))
    by (simpl; apply in_keys_setdefault).
  destruct (add_node k d1) as [[[]|e] d2] eqn:E1; [|discriminate E1].
  cbn [snd] in Hk. unfold bind at 1.
  pose proof (before_edges_succeed k bl d2 Hk) as Hb1.
  destruct (for_each bl (fun dep => add_node dep ;; add_edge k dep) d2)
    as [[[]|e] d3]; [|discriminate Hb1].
  assert (Haf : (match af with Some deps0 => deps0 | None => [] end) = [])
    by (destruct Ha as [->| ->]; reflexivity).
  rewrite Haf. cbn [for_each]. unfold ret at 1.
  apply IH. intros kv Hkv. apply Hall. now right.
Qed.

(** X9: whatever dependencies the services declare, and even when an
    ['after'] entry makes [add_edge] raise, the graph [project_cleanup]
    builds is one in which every successor is a node, so starting the walk
    over it cannot fail.  Building never raises when every service has a
    ['before'] list and none has ['after'] entries. *)
Theorem cleanup_graph_is_closed : forall dependencies,
  let d := snd (cleanup_graph dependencies) in
  wf (_graph d) /\ closed (_graph d) /\
  (exists d0, __iter__ d = (Ret tt, d0)) /\
  ((forall kv, In kv dependencies ->
      deps_before (snd kv) <> None /\
      (deps_after (snd kv) = None \/ deps_after (snd kv) = Some [])) ->
   fst (cleanup_graph dependencies) = Ret tt).
Proof.
  intros dependencies d.
  assert (H : wf (_graph d) /\ closed (_graph d)).
  { apply (stable_for_each keeps_closed keeps_closed_refl keeps_closed_trans
             dependencies add_dependencies add_dependencies_keeps_closed).
    simpl. split; [apply wf_nil|]. intros u v [s [Hs _]]. discriminate. }
  destruct H as [Hwf Hc]. split; [exact Hwf|]. split; [exact Hc|]. split.
  - destruct (in_degrees_correct _ Hwf Hc) as [t [Ht _]].
    unfold __iter__. rewrite start_traverse_result, Ht. eauto.
  - apply dependencies_without_after_succeed.
Qed.

Lemma cleanup_graph_is_closed_witness :
  let deps := [("compute", mkDeps (Some ["network"]) None)] in
  fst (cleanup_graph deps) = Ret tt /\
  closed (_graph (snd (cleanup_graph deps))).
Proof.
  intros deps.
  destruct (cleanup_graph_is_closed deps) as [_ [Hc [_ Hok]]].
  split; [|exact Hc]. apply Hok.
  intros kv [<-|[]]. simpl. split; [discriminate|now left].
Defined.

(** ** Before the first walk *)

Lemma keeps_walk_refl d : keeps_walk d d.
Proof. reflexivity. Qed.

Lemma keeps_walk_trans d1 d2 d3 :
  keeps_walk d1 d2 -> keeps_walk d2 d3 -> keeps_walk d1 d3.
Proof. unfold keeps_walk. congruence. Qed.

Lemma add_node_keeps_walk n : stable keeps_walk (add_node n).
Proof. intros d. reflexivity. Qed.

Lemma add_edge_keeps_walk u v : stable keeps_walk (add_edge u v).
Proof.
  intros d. destruct (Dict.get u (_graph d)) as [s|] eqn:E.
  - now rewrite (add_edge_present _ _ _ _ E).
  - now rewrite (add_edge_absent _ _ _ E).
Qed.

Lemma from_dict_keeps_walk data : stable keeps_walk (from_dict data).
Proof.
  apply (stable_bind keeps_walk keeps_walk_trans); [intros d; reflexivity|intros _].
  apply (stable_for_each keeps_walk keeps_walk_refl keeps_walk_trans).
  intros kv. apply (stable_bind keeps_walk keeps_walk_trans).
  - apply add_node_keeps_walk.
  - intros _. apply (stable_for_each keeps_walk keeps_walk_refl keeps_walk_trans).
    intros dep. apply add_edge_keeps_walk.
Qed.

Lemma built_no_walk d : built d -> walk_attrs d = None.
Proof.
  induction 1 as [data r d H|n d r d' _ IH H|u v d r d' _ IH H|data d r d' _ IH H];
    apply (f_equal snd) in H; cbn [snd] in H; subst.
  - unfold __init__. destruct data as [[|kv rest]|]; try reflexivity.
    apply (from_dict_keeps_walk (kv :: rest)).
  - now rewrite add_node_keeps_walk.
  - now rewrite add_edge_keeps_walk.
  - now rewrite from_dict_keeps_walk.
Qed.

(** X10: on an object that has only been constructed and filled (no
    [__iter__] yet), [__next__], [node_done] and [is_complete] raise
    [AttributeError] for the walk attribute they read first and leave the
    object unchanged. *)
Theorem walk_methods_need_iter : forall d n,
  built d ->
  __next__ d = (Raise (AttributeError "_it_cnt"), d) /\
  node_done n d = (Raise (AttributeError "_done"), d) /\
  is_complete d = (Raise (AttributeError "_done"), d).
Proof.
  intros d n Hb. pose proof (built_no_walk d Hb) as Hw.
  split; [now apply next_before_walk|]. split; [now apply node_done_before_walk|].
  unfold is_complete, bind, get_walk. now rewrite Hw.
Qed.

Lemma walk_methods_need_iter_witness :
  let d := snd (__init__ (Some fan_in)) in
  built d /\ __next__ d = (Raise (AttributeError "_it_cnt"), d).
Proof.
  intros d.
  assert (Hb : built d) by (apply (built_init (Some fan_in) (Ret tt)); reflexivity).
  split; [exact Hb|]. exact (proj1 (walk_methods_need_iter d "p1" Hb)).
Defined.

(** * Other helpers of [openstack/utils.py] *)

(** ** [_hashes_up_to_date] *)

Lemma py_eq_iff a b : py_eq a b = true <-> a = b.
Proof.
  destruct a as [x|], b as [y|]; simpl; try (split; congruence).
  rewrite String.eqb_eq. split; congruence.
Qed.

(** X11: [_hashes_up_to_date] returns [True] exactly when at least one of
    the two current hashes is given (neither [None] nor empty) and every
    current hash that is given equals its previous value; a current hash
    that is not given is not compared. *)
Theorem hashes_up_to_date_iff : forall md5 sha256 md5_key sha256_key,
  _hashes_up_to_date md5 sha256 md5_key sha256_key = true <->
  (truthy md5 = true \/ truthy sha256 = true) /\
  (truthy md5 = true -> md5_key = md5) /\
  (truthy sha256 = true -> sha256_key = sha256).
Proof.
  intros m s mk sk. unfold _hashes_up_to_date.
  pose proof (py_eq_iff mk m) as Hm. pose proof (py_eq_iff sk s) as Hs.
  destruct (truthy m), (truthy s), (py_eq mk m), (py_eq sk s); simpl;
    intuition congruence.
Qed.

Lemma hashes_up_to_date_iff_witness :
  _hashes_up_to_date (Some "0cc1"%string) None (Some "0cc1"%string) (Some "stale"%string) = true.
Proof.
  apply (proj2 (hashes_up_to_date_iff (Some "0cc1"%string) None
                  (Some "0cc1"%string) (Some "stale"%string))).
  split; [left; reflexivity|]. split; [reflexivity|discriminate].
Defined.

(** ** [urljoin] *)

Lemma append_empty_r s : (s ++ "")%string = s.
Proof. induction s as [|c s IH]; simpl; [reflexivity|now rewrite IH]. Qed.

Lemma append_assoc_str a b c : ((a ++ b) ++ c)%string = (a ++ (b ++ c))%string.
Proof. induction a as [|x a IH]; simpl; [reflexivity|now rewrite IH]. Qed.

Lemma rstrip_append_slash s : rstrip (s ++ "/") = rstrip s.
Proof.
  induction s as [|c s IH]; [reflexivity|].
  simpl. now rewrite IH.
Qed.

Lemma lstrip_append_slash s :
  lstrip (s ++ "/") =
  match lstrip s with
  | EmptyString => EmptyString
  | r => (r ++ "/")%string
  end.
Proof.
  induction s as [|c s IH]; [reflexivity|].
  simpl. destruct (Ascii.eqb c "/"%char); [exact IH|reflexivity].
Qed.

Lemma strip_slash_l s : strip (String "/"%char s) = strip s.
Proof. reflexivity. Qed.

Lemma strip_slash_r s : strip (s ++ "/") = strip s.
Proof.
  unfold strip. rewrite lstrip_append_slash.
  destruct (lstrip s) as [|c r] eqn:E; [reflexivity|].
  change (String c r ++ "/")%string with (String c r ++ "/")%string.
  apply rstrip_append_slash.
Qed.

Lemma rstrip_idem s : rstrip (rstrip s) = rstrip s.
Proof.
  induction s as [|c s IH]; [reflexivity|].
  simpl. destruct (rstrip s) as [|c' r] eqn:E.
  - destruct (Ascii.eqb c "/"%char) eqn:Ec; [reflexivity|]. simpl. now rewrite Ec.
  - simpl. simpl in IH. destruct (rstrip r) as [|c2 r2] eqn:E2.
    + destruct (Ascii.eqb c' "/"%char); [discriminate|]. injection IH as <-. reflexivity.
    + now rewrite IH.
Qed.

Lemma lstrip_head s c r : lstrip s = String c r -> Ascii.eqb c "/"%char = false.
Proof.
  induction s as [|x s IH]; simpl; [discriminate|].
  destruct (Ascii.eqb x "/"%char) eqn:E; [exact IH|]. now intros [= <- _].
Qed.

Lemma rstrip_keeps_head c r :
  Ascii.eqb c "/"%char = false -> exists r', rstrip (String c r) = String c r'.
Proof.
  intros H. simpl. destruct (rstrip r); [rewrite H|]; eauto.
Qed.

Lemma lstrip_fixed c r : Ascii.eqb c "/"%char = false -> lstrip (String c r) = String c r.
Proof. intros H. simpl. now rewrite H. Qed.

Lemma strip_idem s : strip (strip s) = strip s.
Proof.
  unfold strip. destruct (lstrip s) as [|c r] eqn:E; [reflexivity|].
  pose proof (lstrip_head _ _ _ E) as Hc.
  destruct (rstrip_keeps_head c r Hc) as [r' Hr]. rewrite Hr.
  rewrite (lstrip_fixed _ _ Hc), <- Hr. apply rstrip_idem.
Qed.

Lemma concat_app sep (l1 l2 : list string) :
  l1 <> [] -> l2 <> [] ->
  String.concat sep (l1 ++ l2) =
  (String.concat sep l1 ++ sep ++ String.concat sep l2)%string.
Proof.
  intros H1 H2. induction l1 as [|a l1 IH]; [congruence|].
  destruct l1 as [|b l1].
  - destruct l2 as [|c l2]; [congruence|]. reflexivity.
  - change (String.concat sep ((a :: b :: l1) ++ l2))
      with (a ++ sep ++ String.concat sep ((b :: l1) ++ l2))%string.
    rewrite IH by discriminate.
    change (String.concat sep (a :: b :: l1))
      with (a ++ sep ++ String.concat sep (b :: l1))%string.
    now rewrite !append_assoc_str.
Qed.

(** X12: slashes around a component do not matter to [urljoin]: a
    component given with a leading slash, with a trailing slash or already
    stripped gives the same result, and [None] counts as the empty
    string. *)
Theorem urljoin_ignores_outer_slashes : forall l1 a l2,
  urljoin (l1 ++ Some (String "/"%char a) :: l2) = urljoin (l1 ++ Some a :: l2) /\
  urljoin (l1 ++ Some (a ++ "/")%string :: l2) = urljoin (l1 ++ Some a :: l2) /\
  urljoin (l1 ++ Some (strip a) :: l2) = urljoin (l1 ++ Some a :: l2) /\
  urljoin (l1 ++ None :: l2) = urljoin (l1 ++ Some ""%string :: l2).
Proof.
  intros l1 a l2. unfold urljoin. rewrite !map_app. cbn [map str_or_empty].
  rewrite strip_slash_l, strip_slash_r, strip_idem. auto.
Qed.

(** X13: [urljoin] of several components is the [urljoin] of a first part
    and of the rest with one slash between them; a single component is
    returned without leading or trailing slash, and no components give the
    empty string.  So a trailing [None] or [''] leaves a trailing slash. *)
Theorem urljoin_composes : forall l1 l2,
  (l1 <> [] -> l2 <> [] ->
   urljoin (l1 ++ l2) = (urljoin l1 ++ "/" ++ urljoin l2)%string) /\
  (forall a, urljoin [a] = strip (str_or_empty a) /\
             lstrip (urljoin [a]) = urljoin [a] /\
             rstrip (urljoin [a]) = urljoin [a]) /\
  urljoin [] = ""%string /\
  (l1 <> [] -> urljoin (l1 ++ [None]) = (urljoin l1 ++ "/")%string).
Proof.
  intros l1 l2.
  assert (Hcomp : forall k1 k2, k1 <> [] -> k2 <> [] ->
            urljoin (k1 ++ k2) = (urljoin k1 ++ "/" ++ urljoin k2)%string).
  { intros k1 k2 H1 H2. unfold urljoin. rewrite map_app. apply concat_app.
    - destruct k1; [congruence|discriminate].
    - destruct k2; [congruence|discriminate]. }
  split; [apply Hcomp|]. split; [|split; [reflexivity|]].
  - intros a. split; [reflexivity|].
    change (urljoin [a]) with (strip (str_or_empty a)).
    split; [|apply rstrip_idem].
    unfold strip. destruct (lstrip (str_or_empty a)) as [|c r] eqn:E; [reflexivity|].
    pose proof (lstrip_head _ _ _ E) as Hc.
    destruct (rstrip_keeps_head c r Hc) as [r' Hr]. rewrite Hr.
    now apply lstrip_fixed.
  - intros H1. rewrite Hcomp by (auto; discriminate). reflexivity.
Qed.

Lemma urljoin_composes_witness :
  urljoin ([Some "http://www.example.com"%string; Some "foo"%string] ++ [None]) =
  "http://www.example.com/foo/"%string.
Proof.
  rewrite (proj2 (proj2 (proj2 (urljoin_composes
             [Some "http://www.example.com"%string; Some "foo"%string] [])))).
  - reflexivity.
  - discriminate.
Defined.

(** ** [Munch] *)

Lemma keys_set_cases {V} k v (d : Dict.t V) :
  Dict.keys (Dict.set k v d) = Dict.keys d /\ In k (Dict.keys d) \/
  Dict.keys (Dict.set k v d) = Dict.keys d ++ [k] /\ ~ In k (Dict.keys d).
Proof.
  destruct (Dict.get k d) as [x|] eqn:E.
  - left. assert (H : In k (Dict.keys d)) by (eapply DictFacts.get_some_in_keys; eauto).
    split; [now apply DictFacts.keys_set_present|exact H].
  - right. rewrite DictFacts.set_absent by exact E. split.
    + unfold Dict.keys. now rewrite map_app.
    + now apply DictFacts.get_none_iff.
Qed.

Lemma nodup_keys_set {V} k v (d : Dict.t V) :
  NoDup (Dict.keys d) -> NoDup (Dict.keys (Dict.set k v d)).
Proof.
  intros ND. destruct (keys_set_cases k v d) as [[-> _]|[-> N]]; [exact ND|].
  now apply nodup_snoc.
Qed.

Lemma fold_set_item_snoc {V} (l : list (string * V)) x m :
  fold_left Munch.set_item (l ++ [x]) m =
  Dict.set (fst x) (snd x) (fold_left Munch.set_item l m).
Proof. now rewrite fold_left_app. Qed.

Lemma get_app_first {V} k (d1 d2 : Dict.t V) :
  Dict.get k (d1 ++ d2) =
  match Dict.get k d1 with
  | Some v => Some v
  | None => Dict.get k d2
  end.
Proof.
  destruct (Dict.get k d1) as [v|] eqn:E.
  - now apply DictFacts.get_app_left.
  - now apply DictFacts.get_app_right.
Qed.

Lemma get_fold_set_item {V} k (l : list (string * V)) m :
  Dict.get k (fold_left Munch.set_item l m) =
  match Dict.get k (rev l) with
  | Some v => Some v
  | None => Dict.get k m
  end.
Proof.
  induction l as [|[k' v'] l IH] using rev_ind; [reflexivity|].
  rewrite fold_set_item_snoc, rev_app_distr. cbn [rev app fst snd Dict.get].
  destruct (String.eqb_spec k k') as [->|N].
  - apply DictFacts.get_set_same.
  - rewrite DictFacts.get_set_other by exact N. exact IH.
Qed.

Lemma nodup_fold_set_item {V} (l : list (string * V)) m :
  NoDup (Dict.keys m) -> NoDup (Dict.keys (fold_left Munch.set_item l m)).
Proof.
  revert m. induction l as [|x l IH]; intros m ND; [exact ND|].
  simpl. apply IH. now apply nodup_keys_set.
Qed.

Lemma keys_fold_set_item {V} (l : list (string * V)) m :
  exists new, Dict.keys (fold_left Munch.set_item l m) = Dict.keys m ++ new.
Proof.
  revert m. induction l as [|x l IH]; intros m.
  - exists []. now rewrite app_nil_r.
  - simpl. destruct (IH (Munch.set_item m x)) as [new ->]. unfold Munch.set_item.
    destruct (keys_set_cases (fst x) (snd x) m) as [[-> _]|[-> _]]; [now exists new|].
    exists (fst x :: new). now rewrite <- app_assoc.
Qed.

Lemma get_rev_nodup {V} k (d : Dict.t V) :
  NoDup (Dict.keys d) -> Dict.get k (rev d) = Dict.get k d.
Proof.
  intros ND.
  assert (NDr : NoDup (Dict.keys (rev d))).
  { unfold Dict.keys. rewrite map_rev. now apply NoDup_rev. }
  destruct (Dict.get k d) as [v|] eqn:E.
  - apply DictFacts.in_get; [exact NDr|]. apply in_rev. rewrite rev_involutive.
    now apply DictFacts.get_in.
  - destruct (Dict.get k (rev d)) as [v|] eqn:Er; [|reflexivity].
    apply DictFacts.get_in, in_rev in Er.
    apply (DictFacts.in_get _ _ _ ND) in Er. congruence.
Qed.

Lemma fold_set_item_fresh {V} (m acc : Dict.t V) :
  NoDup (Dict.keys (acc ++ m)) -> fold_left Munch.set_item m acc = acc ++ m.
Proof.
  revert acc. induction m as [|[k v] m IH]; intros acc ND; simpl.
  - now rewrite app_nil_r.
  - unfold Munch.set_item at 2. cbn [fst snd].
    assert (Hk : Dict.get k acc = None).
    { apply DictFacts.get_none_iff. unfold Dict.keys in ND. rewrite map_app in ND.
      cbn [map fst] in ND. apply NoDup_remove_2 in ND. rewrite in_app_iff in ND. tauto. }
    rewrite DictFacts.set_absent by exact Hk.
    rewrite IH; rewrite <- app_assoc; [reflexivity|exact ND].
Qed.

(** X14: pickling round trip of [Munch].  For a munch [m] (a [dict]: no key
    twice), [__getstate__] gives a copy with the same items in the same
    order, and [__setstate__] with that state turns any other munch into
    [m], whatever it held before. *)
Theorem munch_setstate_getstate {V} (m other : Munch.t V) :
  NoDup (Dict.keys m) ->
  Munch.__getstate__ m = m /\
  Munch.__setstate__ other (Munch.__getstate__ m) = m.
Proof.
  intros ND.
  assert (H : fold_left Munch.set_item m [] = m)
    by (apply (fold_set_item_fresh m []); exact ND).
  unfold Munch.__getstate__, Munch.__setstate__, Munch.update, Munch.py_dict.
  rewrite H, app_nil_r, H. now rewrite H.
Qed.

Lemma munch_setstate_getstate_witness :
  Munch.__setstate__ [("x", 9)] (Munch.__getstate__ [("a", 1); ("b", 2)]) =
  [("a", 1); ("b", 2)].
Proof.
  apply (munch_setstate_getstate [("a", 1); ("b", 2)] [("x", 9)]).
  repeat constructor; simpl; intuition discriminate.
Defined.

(** X15: lookup after [Munch.update(arg, **kwargs)]: a key takes its last
    value among the keyword arguments, else its last value in [arg], else
    it keeps the value it had; the keys that were present keep their
    positions, new keys are appended, and no key appears twice. *)
Theorem munch_update_lookup {V} (self : Munch.t V) (arg kwargs : list (string * V)) :
  (forall k,
     Dict.get k (Munch.update self arg kwargs) =
     match Dict.get k (rev kwargs) with
     | Some v => Some v
     | None =>
         match Dict.get k (rev arg) with
         | Some v => Some v
         | None => Dict.get k self
         end
     end) /\
  (exists new, Dict.keys (Munch.update self arg kwargs) = Dict.keys self ++ new) /\
  (NoDup (Dict.keys self) -> NoDup (Dict.keys (Munch.update self arg kwargs))).
Proof.
  unfold Munch.update. split; [|split].
  - intros k. rewrite get_fold_set_item.
    assert (ND : NoDup (Dict.keys (Munch.py_dict arg kwargs)))
      by (apply nodup_fold_set_item; constructor).
    rewrite (get_rev_nodup k _ ND). unfold Munch.py_dict.
    rewrite get_fold_set_item, rev_app_distr, get_app_first.
    destruct (Dict.get k (rev kwargs)); [reflexivity|].
    destruct (Dict.get k (rev arg)); reflexivity.
  - apply keys_fold_set_item.
  - apply nodup_fold_set_item.
Qed.

Lemma munch_update_lookup_witness :
  NoDup (Dict.keys (Munch.update [("a", 1); ("b", 2)] [("b", 3); ("c", 4); ("b", 5)] [("c", 6)])).
Proof.
  apply (proj2 (proj2 (munch_update_lookup [("a", 1); ("b", 2)]
                         [("b", 3); ("c", 4); ("b", 5)] [("c", 6)]))).
  repeat constructor; simpl; intuition discriminate.
Defined.

(** X16: [Munch.setdefault] never overwrites and never fails: for a
    present key it returns the stored value and leaves the munch as it
    is, for a new key it appends [(k, d)] and returns [d]; afterwards
    [get(k, d')] gives the returned value whatever [d'] is, and a second
    [setdefault] with another default changes nothing. *)
Theorem munch_setdefault_get {V} (self : Munch.t V) (k : string) (d : V) :
  exists v self',
    Munch.setdefault self k d = (Some v, self') /\
    (match Dict.get k self with
     | Some x => v = x /\ self' = self
     | None => v = d /\ self' = self ++ [(k, d)]
     end) /\
    (forall d', Munch.get self' k d' = v) /\
    (forall d', Munch.setdefault self' k d' = (Some v, self')).
Proof.
  unfold Munch.setdefault, Munch.get.
  destruct (Dict.get k self) as [x|] eqn:E.
  - exists x, self. rewrite !E. repeat split; auto.
  - exists d, (self ++ [(k, d)]).
    rewrite (DictFacts.set_absent _ _ _ E).
    assert (H : Dict.get k (self ++ [(k, d)]) = Some d).
    { rewrite (DictFacts.get_app_right _ _ _ E). simpl. now rewrite String.eqb_refl. }
    rewrite !H. repeat split; auto.
Qed.

(** ** Microversion negotiation *)

Lemma tuple_lt_irrefl a : tuple_lt a a = false.
Proof.
  induction a as [|x a IH]; simpl; [reflexivity|]. now rewrite Z.eqb_refl.
Qed.

Lemma tuple_lt_asym a b : tuple_lt a b = true -> tuple_lt b a = false.
Proof.
  revert b. induction a as [|x a IH]; intros [|y b]; simpl; try congruence.
  destruct (Z.eqb_spec x y) as [->|N].
  - rewrite Z.eqb_refl. apply IH.
  - destruct (Z.eqb_spec y x) as [E|_]; [congruence|].
    intros H. apply Z.ltb_lt in H. apply Z.ltb_ge. lia.
Qed.

Lemma py_min_lower a b :
  (py_min a b = a \/ py_min a b = b) /\
  tuple_lt a (py_min a b) = false /\
  tuple_lt b (py_min a b) = false.
Proof.
  unfold py_min. destruct (tuple_lt b a) eqn:E.
  - split; [now right|]. split; [now apply tuple_lt_asym|apply tuple_lt_irrefl].
  - split; [now left|]. split; [apply tuple_lt_irrefl|exact E].
Qed.

Section Negotiation.
Context {D : Discover}.

Lemma supports_microversion_modes (adapter : Adapter) (microversion : version) :
  match supports_microversion adapter microversion false with
  | Returns true => supports_microversion adapter microversion true = Returns true
  | Returns false =>
      exists msg, supports_microversion adapter microversion true = Raises (SDKError msg)
  | Raises e => supports_microversion adapter microversion true = Raises e
  end.
Proof.
  unfold supports_microversion, and_then.
  destruct (get_endpoint_data adapter) as [[ed|]|e]; [|reflexivity|reflexivity].
  destruct (match min_microversion ed, max_microversion ed with
            | Some lo, Some hi =>
                if version_truthy (Some lo) && version_truthy (Some hi)
                then version_between lo hi microversion
                else Returns false
            | _, _ => Returns false
            end) as [[|]|e]; [| eauto | reflexivity].
  destruct (default_microversion adapter) as [dm|]; [|reflexivity].
  destruct (normalize_version_number dm) as [c|e]; [|reflexivity].
  destruct (normalize_version_number microversion) as [r|e]; [|reflexivity].
  destruct (version_match r c) as [[|]|e]; simpl; eauto.
Qed.

(** X17: the two modes of [supports_microversion] agree: with
    [raise_exception=True] it returns [True] exactly where the plain call
    returns [True], raises an [SDKException] where the plain call returns
    [False], fails as the plain call does where that fails, and never
    returns [False]; so [require_microversion] returns exactly when the
    plain call answers [True]. *)
Theorem supports_microversion_raise_mode (adapter : Adapter) (microversion : version) :
  (supports_microversion adapter microversion true = Returns true <->
   supports_microversion adapter microversion false = Returns true) /\
  (supports_microversion adapter microversion false = Returns false ->
   exists msg, supports_microversion adapter microversion true = Raises (SDKError msg)) /\
  (forall e, supports_microversion adapter microversion false = Raises e ->
             supports_microversion adapter microversion true = Raises e) /\
  supports_microversion adapter microversion true <> Returns false /\
  (require_microversion adapter microversion = Returns tt <->
   supports_microversion adapter microversion false = Returns true).
Proof.
  pose proof (supports_microversion_modes adapter microversion) as H.
  unfold require_microversion, and_then.
  destruct (supports_microversion adapter microversion false) as [[|]|e].
  - rewrite H. repeat split; congruence.
  - destruct H as [msg ->]. repeat split; try congruence; eauto.
  - rewrite H. repeat split; congruence.
Qed.

(** X18: what [pick_microversion] returns is supported: a returned string
    is the text of a version that [supports_microversion] accepts for the
    session, so [require_microversion] on it returns; and [None] is
    returned exactly when neither [required] nor the session's default is
    given. *)
Theorem pick_microversion_is_supported (session : Adapter) (required : option version) :
  (forall s, pick_microversion session required = Returns (Some s) ->
     exists r, version_to_string r = Returns s /\
               supports_microversion session (VTuple r) false = Returns true /\
               require_microversion session (VTuple r) = Returns tt) /\
  (pick_microversion session required = Returns None <->
   required = None /\ default_microversion session = None).
Proof.
  assert (Hsome : forall (r : list Z) (x : option string),
            (let* ok := supports_microversion session (VTuple r) false in
             if negb ok then Raises (SDKError NotSupportedOrDefaultTooLow)
             else let* s := version_to_string r in Returns (Some s)) = Returns x ->
            exists s, x = Some s /\ version_to_string r = Returns s /\
              supports_microversion session (VTuple r) false = Returns true /\
              require_microversion session (VTuple r) = Returns tt).
  { intros r x. pose proof (supports_microversion_modes session (VTuple r)) as Hm.
    unfold require_microversion, and_then in *.
    destruct (supports_microversion session (VTuple r) false) as [[|]|e];
      simpl; try discriminate.
    rewrite Hm. destruct (version_to_string r) as [s|e]; [|discriminate].
    intros [= <-]. eauto. }
  unfold pick_microversion.
  destruct required as [q|]; cbn [and_then].
  - destruct (normalize_version_number q) as [t|e]; cbn [and_then].
    2:{ split; [discriminate|]. split; [discriminate|]. intros [? _]; discriminate. }
    destruct (default_microversion session) as [dm|]; cbn [and_then].
    + destruct (normalize_version_number dm) as [df|e]; cbn [and_then].
      2:{ split; [discriminate|]. split; [discriminate|]. intros [? _]; discriminate. }
      destruct (version_match t df) as [m|e]; cbn [and_then].
      2:{ split; [discriminate|]. split; [discriminate|]. intros [? _]; discriminate. }
      split.
      * intros s Hs. apply Hsome in Hs. destruct Hs as [s' [[= <-] Hs]]. eauto.
      * split; [|intros [? _]; discriminate].
        intros Hn. apply Hsome in Hn. destruct Hn as [s' [? _]]. discriminate.
    + split.
      * intros s Hs. apply Hsome in Hs. destruct Hs as [s' [[= <-] Hs]]. eauto.
      * split; [|intros [? _]; discriminate].
        intros Hn. apply Hsome in Hn. destruct Hn as [s' [? _]]. discriminate.
  - destruct (default_microversion session) as [dm|]; cbn [and_then].
    + destruct (normalize_version_number dm) as [df|e]; cbn [and_then].
      2:{ split; [discriminate|]. split; [discriminate|]. intros [_ ?]; discriminate. }
      split.
      * intros s Hs. apply Hsome in Hs. destruct Hs as [s' [[= <-] Hs]]. eauto.
      * split; [|intros [_ ?]; discriminate].
        intros Hn. apply Hsome in Hn. destruct Hn as [s' [? _]]. discriminate.
    + split; [discriminate|]. split; auto.
Qed.

(** X19: [maximum_supported_microversion] answers [None] when the client
    has no maximum, when discovery fails with [DiscoveryFailure], when
    there is no endpoint data and when the server gives no maximum.  A
    returned string is the text of the client's or of the server's maximum,
    and that version is above neither of them; when the server gives a
    minimum, the client's maximum is not below it, and if the server's
    maximum is not below it either, nor is the returned version. *)
Theorem maximum_supported_microversion_bounds (adapter : Adapter)
    (client_maximum : option version) :
  (client_maximum = None \/
   get_endpoint_data adapter = Raises DiscoveryFailure \/
   get_endpoint_data adapter = Returns None \/
   (exists ed, get_endpoint_data adapter = Returns (Some ed) /\
               version_truthy (max_microversion ed) = false) ->
   maximum_supported_microversion adapter client_maximum = Returns None) /\
  (forall s,
     maximum_supported_microversion adapter client_maximum = Returns (Some s) ->
     exists c ed smax client_max server_max r,
       client_maximum = Some c /\
       get_endpoint_data adapter = Returns (Some ed) /\
       max_microversion ed = Some smax /\
       normalize_version_number c = Returns client_max /\
       normalize_version_number smax = Returns server_max /\
       version_to_string r = Returns s /\
       (r = client_max \/ r = server_max) /\
       tuple_lt client_max r = false /\
       tuple_lt server_max r = false /\
       (forall smin, min_microversion ed = Some smin ->
          version_truthy (Some smin) = true ->
          exists server_min,
            normalize_version_number smin = Returns server_min /\
            tuple_lt client_max server_min = false /\
            (tuple_lt server_max server_min = false ->
             tuple_lt r server_min = false))).
Proof.
  unfold maximum_supported_microversion. split.
  - intros [->|H]; [reflexivity|]. destruct client_maximum as [c|]; [|reflexivity].
    destruct H as [->|[->|[ed [-> H]]]]; try reflexivity.
    cbn [and_then]. destruct (max_microversion ed) as [smax|]; [|reflexivity].
    now rewrite H.
  - intros s. destruct client_maximum as [c|]; [|discriminate].
    destruct (get_endpoint_data adapter) as [[ed|]|e] eqn:Eg; cbn [and_then].
    2: discriminate.
    2:{ destruct e; cbn [and_then]; discriminate. }
    destruct (max_microversion ed) as [smax|] eqn:Emax; [|discriminate].
    destruct (version_truthy (Some smax)) eqn:Et; cbn [negb]; [|discriminate].
    destruct (normalize_version_number c) as [cmax|e] eqn:Ec; cbn [and_then]; [|discriminate].
    destruct (normalize_version_number smax) as [srv|e] eqn:Es; cbn [and_then]; [|discriminate].
    destruct (py_min_lower cmax srv) as [Hor [Hc Hs]].
    destruct (min_microversion ed) as [smin|] eqn:Emin.
    + destruct (version_truthy (Some smin)) eqn:Etm.
      * destruct (normalize_version_number smin) as [lo|e] eqn:El; cbn [and_then]; [|discriminate].
        destruct (tuple_lt cmax lo) eqn:Elt; [discriminate|].
        destruct (version_to_string (py_min cmax srv)) as [s'|e] eqn:Ev; cbn [and_then]; [|discriminate].
        intros [= <-]. exists c, ed, smax, cmax, srv, (py_min cmax srv).
        repeat (split; [assumption || reflexivity|]).
        intros smin' E _. assert (smin' = smin) as -> by congruence.
        exists lo. split; [exact El|]. split; [exact Elt|].
        intros Hsl. destruct Hor as [-> | ->]; assumption.
      * cbn [and_then].
        destruct (version_to_string (py_min cmax srv)) as [s'|e] eqn:Ev; cbn [and_then]; [|discriminate].
        intros [= <-]. exists c, ed, smax, cmax, srv, (py_min cmax srv).
        repeat (split; [assumption || reflexivity|]).
        intros smin' E Hx. assert (smin' = smin) as -> by congruence. congruence.
    + cbn [and_then].
      destruct (version_to_string (py_min cmax srv)) as [s'|e] eqn:Ev; cbn [and_then]; [|discriminate].
      intros [= <-]. exists c, ed, smax, cmax, srv, (py_min cmax srv).
      repeat (split; [assumption || reflexivity|]).
      intros smin' E. congruence.
Qed.

End Negotiation.

Lemma supports_microversion_raise_mode_witness :
  exists msg,
    @supports_microversion tuple_discover sample_adapter (VTuple [3; 0]) true =
    Raises (SDKError msg).
Proof.
  apply (proj1 (proj2 (@supports_microversion_raise_mode tuple_discover sample_adapter
                         (VTuple [3; 0])))).
  reflexivity.
Defined.

Lemma pick_microversion_is_supported_witness :
  exists r, @version_to_string tuple_discover r = Returns "2.50" /\
    @supports_microversion tuple_discover sample_adapter (VTuple r) false = Returns true /\
    @require_microversion tuple_discover sample_adapter (VTuple r) = Returns tt.
Proof.
  apply (proj1 (@pick_microversion_is_supported tuple_discover sample_adapter
                  (Some (VTuple [2; 50])))).
  reflexivity.
Defined.

Lemma maximum_supported_microversion_bounds_witness :
  @maximum_supported_microversion tuple_discover sample_adapter (Some (VTuple [2; 95])) =
    Returns (Some "2.90") /\
  @maximum_supported_microversion tuple_discover sample_adapter None = Returns None.
Proof.
  split; [reflexivity|].
  apply (proj1 (@maximum_supported_microversion_bounds tuple_discover sample_adapter None)).
  now left.
Defined.
